(** * Minimon: the battle engine of [main.cpp], embedded and verified

    The development follows the source file top to bottom:

    - [Double]: the arithmetic of C++ [double] values that [computeDamage]
      relies on (IEEE-754 binary64, round to nearest, ties to even);
    - the gameplay constants, then the structs [Move], [Pokemon], [Player]
      and the fields of class [Game];
    - [World]: what the program exchanges with its environment, namely the
      successive values of [std::rand()], the successive touches returned
      by [WaitForCleanPress], and the lines sent to [LCD.WriteLine];
    - [Pokemon::reset], [randInt], [Game::computeDamage], and the body of
      [Game::runMatch], cut at its natural seams (action selection, action
      processing, the battle loop, the result report, the replay prompt);
    - the rematch loop of [mainMenuLoop].

    A C++ [int] is modelled by the [Z] it denotes, between [INT_MIN] and
    [INT_MAX].  Signed overflow and the conversion of an out-of-range
    [double] to [int] are undefined in C++; a build without overflow
    checks wraps around at the former, and the conversion instruction of
    x86-64 yields [INT_MIN] at the latter.  The embedding
    writes this out ([wrap], [Double.to_int]) where operands that are
    ordinary [int]s can take the result out of range: in [randInt], in
    the conversion at the end of [computeDamage], in the halving and the
    subtraction of a hit, and in the product of the health bar.  The
    properties that depend on such a result carry the range in which the
    operation is defined as a hypothesis.  The other sums of the program
    (a heal of 8 on a health below its maximum, a counter plus one, a PP
    minus one, screen coordinates) are computed in [Z]: they are exact
    unless a health maximum, a counter or a coordinate lies within a few
    units of [INT_MAX].  An out-of-range [vector] access, undefined as
    well, is made explicit: the step that performs it yields [Undefined].
    Drawing and sleeping are not modelled; the text written with
    [LCD.WriteLine] is. *)

From Stdlib Require Import ZArith NArith QArith Qround Qpower.
From Stdlib Require Import List String Bool Lia Lqa DecimalString SpecFloat.
Import ListNotations.

(* ================================================================== *)
(** * Part I: definitions *)
(* ================================================================== *)

(** ** C++ [int]

    32 bits, two's complement. *)

Definition INT_MAX : Z := 2147483647%Z.
Definition INT_MIN : Z := (-2147483648)%Z.

(** The [int] that the mathematical result [z] of [+], [-] or [*] on two
    [int]s comes out as: [z] itself when it is in range, [z] plus or minus
    [2^32] otherwise. *)
Definition wrap (z : Z) : Z :=
  ((z + 2147483648) mod 4294967296 - 2147483648)%Z.

(** ** C++ [double] arithmetic

    A finite [double] is a rational number; every operation is the exact
    operation followed by rounding to 53 significant bits, to nearest,
    ties to even.  The exponent range is not bounded: the magnitudes that
    [computeDamage] meets on 32-bit inputs stay far inside the normal range
    of binary64, where this is exactly what IEEE-754 prescribes. *)

Module Double.

Local Open Scope Q_scope.

Definition double := Q.

Definition pow2 (e : Z) : Q := 2 ^ e.

(** Magnitude of a positive rational: the [k] with
    [2^(k-1) <= x < 2^k]. *)
Definition mag (x : Q) : Z :=
  let k0 := (Z.log2 (Qnum x) - Z.log2 (Zpos (Qden x)))%Z in
  if Qle_bool (pow2 k0) x then (k0 + 1)%Z else k0.

(** Nearest integer, ties to even. *)
Definition rne (t : Q) : Z :=
  let f := Qfloor t in
  match Qcompare (t - inject_Z f) (1 # 2) with
  | Lt => f
  | Gt => (f + 1)%Z
  | Eq => if Z.even f then f else (f + 1)%Z
  end.

(** Rounding of a positive rational to a 53-bit significand. *)
Definition round_pos (x : Q) : Q :=
  let e := (mag x - 53)%Z in
  Qred (inject_Z (rne (x / pow2 e)) * pow2 e).

Definition round53 (x : Q) : double :=
  match Qnum x with
  | Z0 => 0
  | Zpos _ => round_pos x
  | Zneg _ => - round_pos (- x)
  end.

(** [(double)n] for an integer [n]. *)
Definition of_int (n : Z) : double := round53 (inject_Z n).

(** A decimal literal of the source text. *)
Definition literal (q : Q) : double := round53 q.

Definition add (a b : double) : double := round53 (a + b).
Definition sub (a b : double) : double := round53 (a - b).
Definition mul (a b : double) : double := round53 (a * b).
Definition div (a b : double) : double := round53 (a / b).

(** [a < b] on doubles. *)
Definition ltb (a b : double) : bool := negb (Qle_bool b a).

(** Whether [a] without its fractional part is an [int], that is
    [INT_MIN - 1 < a < INT_MAX + 1]. *)
Definition fits_int (a : double) : bool :=
  ltb (inject_Z (INT_MIN - 1)) a && ltb a (inject_Z (INT_MAX + 1)).

(** [(int)a]: the fractional part is discarded (truncation toward zero).
    When the result is not an [int] the conversion is undefined; the
    conversion instruction of the processor then delivers [INT_MIN]. *)
Definition to_int (a : double) : Z :=
  if fits_int a then (if Qle_bool 0 a then Qfloor a else Qceiling a)
  else INT_MIN.

End Double.

(** ** Constants (main.cpp, lines 19-49) *)

Local Open Scope string_scope.
Local Open Scope Z_scope.

Definition SCREEN_W : Z := 320.
Definition SCREEN_H : Z := 240.

Definition BBTN_W : Z := 152.
Definition BBTN_H : Z := 48.
Definition BBTN_GAP : Z := 6.
Definition BBTN_LEFT_X : Z := 6.
Definition BBTN_RIGHT_X : Z := BBTN_LEFT_X + BBTN_W + BBTN_GAP.
Definition BBTN_START_Y : Z := 142.

Definition RETREAT_HEAL : Z := 8.
Definition MIN_DAMAGE : Z := 1.
Definition PROJECTILE_STEP_PX : Z := 6.

(** [std::to_string] on an [int]. *)
Definition to_string (n : Z) : string := NilZero.string_of_int (Z.to_int n).

(** ** The structs (main.cpp, lines 216-264) *)

Module Move.
Record t := mk {
  name : string;
  power : Z;
  accuracy : Z;
  pp : Z
}.

Definition setPP (v : Z) (m : t) : t :=
  mk (name m) (power m) (accuracy m) v.
End Move.

Module Pokemon.
Record t := mk {
  name : string;
  maxHP : Z;
  hp : Z;
  attack : Z;
  defense : Z;
  moves : list Move.t;
  x : Z; y : Z; w : Z; h : Z;
  defending : bool
}.

Definition setHp (v : Z) (p : t) : t :=
  mk (name p) (maxHP p) v (attack p) (defense p) (moves p)
     (x p) (y p) (w p) (h p) (defending p).

Definition setDefending (b : bool) (p : t) : t :=
  mk (name p) (maxHP p) (hp p) (attack p) (defense p) (moves p)
     (x p) (y p) (w p) (h p) b.

Definition setMoves (ms : list Move.t) (p : t) : t :=
  mk (name p) (maxHP p) (hp p) (attack p) (defense p) ms
     (x p) (y p) (w p) (h p) (defending p).

Definition setPos (x0 y0 : Z) (p : t) : t :=
  mk (name p) (maxHP p) (hp p) (attack p) (defense p) (moves p)
     x0 y0 (w p) (h p) (defending p).

(** [void reset() { hp = maxHP; defending = false;
      for(auto &m : moves) if (m.pp < 0) m.pp = 0; }] *)
Definition reset (p : t) : t :=
  mk (name p) (maxHP p) (maxHP p) (attack p) (defense p)
     (map (fun m => if Move.pp m <? 0 then Move.setPP 0 m else m) (moves p))
     (x p) (y p) (w p) (h p) false.

(** [bool fainted() const { return hp <= 0; }] *)
Definition fainted (p : t) : bool := hp p <=? 0.
End Pokemon.

Module Player.
Record t := mk {
  label : string;
  isHuman : bool;
  pkmn : Pokemon.t;
  wins : Z
}.

Definition setPkmn (pk : Pokemon.t) (pl : t) : t :=
  mk (label pl) (isHuman pl) pk (wins pl).
End Player.

(** The data members of class [Game] (lines 283-288). *)
Record Game := mkGame {
  bank : list Pokemon.t;
  p1 : Player.t;
  p2 : Player.t;
  gamesPlayed : Z;
  humanWins : Z;
  cpuWins : Z;
  difficulty : Z
}.

Definition setP1 (pl : Player.t) (g : Game) : Game :=
  mkGame (bank g) pl (p2 g) (gamesPlayed g) (humanWins g) (cpuWins g) (difficulty g).

Definition setP2 (pl : Player.t) (g : Game) : Game :=
  mkGame (bank g) (p1 g) pl (gamesPlayed g) (humanWins g) (cpuWins g) (difficulty g).

(** [runMatch] works through [Player *actor = p1Turn ? &p1 : &p2] and
    [Player *target = p1Turn ? &p2 : &p1]; a seat is named by the boolean
    "is it [p1]". *)
Definition getPlayer (first : bool) (g : Game) : Player.t :=
  if first then p1 g else p2 g.

Definition setPlayer (first : bool) (pl : Player.t) (g : Game) : Game :=
  if first then setP1 pl g else setP2 pl g.

Definition getPkmn (first : bool) (g : Game) : Pokemon.t :=
  Player.pkmn (getPlayer first g).

Definition setPkmn (first : bool) (pk : Pokemon.t) (g : Game) : Game :=
  setPlayer first (Player.setPkmn pk (getPlayer first g)) g.

(** ** The environment *)

Record World := mkWorld {
  randSeq : nat -> N;        (* values of the successive calls of [std::rand()] *)
  randPos : nat;             (* how many of them were consumed *)
  touchSeq : nat -> Z * Z;   (* touches returned by [WaitForCleanPress] *)
  touchPos : nat;
  lcd : list string          (* lines sent to [LCD.WriteLine], oldest first *)
}.

(** [RAND_MAX] of <cstdlib> is left to the C library, between 32767 and
    [INT_MAX]; it is taken at [INT_MAX], as glibc has it.  The properties
    below only use [0 <= rand() <= INT_MAX]. *)
Definition RAND_MAX : Z := 2147483647.

(** [std::rand()]: an [int] between 0 and [RAND_MAX], the next value of
    the environment brought into that range. *)
Definition rand (w : World) : Z * World :=
  (Z.of_N (randSeq w (randPos w)) mod (RAND_MAX + 1),
   mkWorld (randSeq w) (S (randPos w)) (touchSeq w) (touchPos w) (lcd w)).

(** [int randInt(int a, int b) { return a + (std::rand() % (b - a + 1)); }]
    [%] is the remainder of the truncating division, [Z.rem].  When
    [b - a + 1] comes out as 0 (for [b = a - 1], and for [a = INT_MIN],
    [b = INT_MAX]) the division traps and the call does not return;
    [Z.rem r 0] is [r]. *)
Definition randInt (a b : Z) (w : World) : Z * World :=
  let '(r, w') := rand w in (wrap (a + Z.rem r (wrap (b - a + 1))), w').

(** [WaitForCleanPress(outX, outY)]. *)
Definition WaitForCleanPress (w : World) : (Z * Z) * World :=
  (touchSeq w (touchPos w),
   mkWorld (randSeq w) (randPos w) (touchSeq w) (S (touchPos w)) (lcd w)).

(** [LCD.WriteLine(s)]. *)
Definition WriteLine (s : string) (w : World) : World :=
  mkWorld (randSeq w) (randPos w) (touchSeq w) (touchPos w) (lcd w ++ [s]).

(** ** [Game::computeDamage] (lines 357-369) *)

Definition computeDamage (g : Game) (att def : Pokemon.t) (m : Move.t)
    (w : World) : Z * World :=
  let base := Double.sub (Double.of_int (Pokemon.attack att))
                (Double.mul (Double.of_int (Pokemon.defense def))
                            (Double.literal (45 # 100))) in
  let base := if Double.ltb base (Double.literal 1) then Double.literal 1 else base in
  let raw := Double.mul base
               (Double.div (Double.of_int (Move.power m)) (Double.literal 20)) in
  let '(r, w') := randInt 85 100 w in
  let mult := Double.div (Double.of_int r) (Double.literal 100) in
  let raw := if difficulty g =? 1
             then Double.mul raw (Double.literal (108 # 100)) else raw in
  let raw := Double.mul raw mult in
  let dmg := Double.to_int (Double.add raw (Double.literal (1 # 2))) in
  let dmg := if dmg <? MIN_DAMAGE then MIN_DAMAGE else dmg in
  (dmg, w').

(** The body of [computeDamage] in two stages, named for the proofs:
    [clampedBase] is [base] after the clamp of line 360, and
    [finishDamage] is what lines 362-368 make of the product
    [base * (m.power / 20.0)] once [randInt(85,100)] has returned [r]
    ([computeDamage_stages] shows that the body is their composition,
    [computeDamage_converts] that [damageOperand] is what it converts). *)
Definition clampedBase (a d : Z) : Double.double :=
  let base := Double.sub (Double.of_int a)
                (Double.mul (Double.of_int d) (Double.literal (45 # 100))) in
  if Double.ltb base (Double.literal 1) then Double.literal 1 else base.

(** The [double] that line 366 converts, [raw + 0.5]. *)
Definition castOperand (hard : bool) (r : Z) (raw : Double.double) : Double.double :=
  let mult := Double.div (Double.of_int r) (Double.literal 100) in
  let raw := if hard then Double.mul raw (Double.literal (108 # 100)) else raw in
  let raw := Double.mul raw mult in
  Double.add raw (Double.literal (1 # 2)).

Definition finishDamage (hard : bool) (r : Z) (raw : Double.double) : Z :=
  let dmg := Double.to_int (castOperand hard r raw) in
  if dmg <? MIN_DAMAGE then MIN_DAMAGE else dmg.

(** The operand of the conversion in the call
    [computeDamage(att, def, m)], and whether the conversion is defined
    for it. *)
Definition damageOperand (g : Game) (att def : Pokemon.t) (m : Move.t)
    (w : World) : Double.double :=
  castOperand (difficulty g =? 1) (fst (randInt 85 100 w))
    (Double.mul (clampedBase (Pokemon.attack att) (Pokemon.defense def))
       (Double.div (Double.of_int (Move.power m)) (Double.literal 20))).

Definition damageInRange (g : Game) (att def : Pokemon.t) (m : Move.t)
    (w : World) : bool :=
  Double.fits_int (damageOperand g att def m w).

(** ** [Game::runMatch] (lines 481-743) *)

(** *** The four battle buttons (lines 507-528) *)

Module Btn.
Record t := mk { x : Z; y : Z; w : Z; h : Z; label : string; id : Z }.
End Btn.

(** [auto getY = [](int row) { return BBTN_START_Y + row * (BBTN_H + BBTN_GAP); }] *)
Definition getY (row : Z) : Z := BBTN_START_Y + row * (BBTN_H + BBTN_GAP).

(** [moves[i].name + " (" + to_string(moves[i].pp) + ")"], with the access
    to [moves[i]] made explicit. *)
Definition moveLabel (ms : list Move.t) (i : nat) : option string :=
  match nth_error ms i with
  | Some m => Some (Move.name m ++ " (" ++ to_string (Move.pp m) ++ ")")%string
  | None => None
  end.

Definition buttons (a : Pokemon.t) : option (list Btn.t) :=
  match moveLabel (Pokemon.moves a) 0, moveLabel (Pokemon.moves a) 1,
        moveLabel (Pokemon.moves a) 2 with
  | Some l0, Some l1, Some l2 =>
      Some [ Btn.mk BBTN_LEFT_X (getY 0) BBTN_W BBTN_H l0 0;
             Btn.mk BBTN_RIGHT_X (getY 0) BBTN_W BBTN_H l1 1;
             Btn.mk BBTN_LEFT_X (getY 1) BBTN_W BBTN_H l2 2;
             Btn.mk BBTN_RIGHT_X (getY 1) BBTN_W BBTN_H "RUN" 3 ]
  | _, _, _ => None
  end.

(** The first button that contains the touch (lines 553-565). *)
Definition pressed (btns : list Btn.t) (tx ty : Z) : option Btn.t :=
  find (fun b => (tx >=? Btn.x b) && (tx <=? Btn.x b + Btn.w b)
              && (ty >=? Btn.y b) && (ty <=? Btn.y b + Btn.h b)) btns.

(** *** The CPU policy (lines 571-583) *)

(** One round of
    [if (moves[i].power > moves[best].power && moves[i].pp > 0) best = i;]
    the accesses are in range whenever [i] and [best] are. *)
Definition hardStep (ms : list Move.t) (best i : nat) : nat :=
  match nth_error ms i, nth_error ms best with
  | Some mi, Some mb =>
      if (Move.power mi >? Move.power mb) && (Move.pp mi >? 0) then i else best
  | _, _ => best
  end.

(** [int best = 0; for (int i = 0; i < (int)moves.size(); ++i) ...] *)
Definition hardBest (ms : list Move.t) : nat :=
  fold_left (hardStep ms) (seq 0 (List.length ms)) 0%nat.

Definition cpuChoice (g : Game) (a : Pokemon.t) (w : World) : Z * World :=
  let '(r, w1) := randInt 1 100 w in
  if difficulty g =? 0 then
    ((if r <=? 35 then 0 else if r <=? 70 then 1 else if r <=? 85 then 2 else 3), w1)
  else
    let best := Z.of_nat (hardBest (Pokemon.moves a)) in
    let '(r2, w2) := randInt 1 100 w1 in
    ((if r2 <=? 85 then best else 3), w2).

(** *** Action selection (lines 543-592) *)

Inductive Choice :=
| Chosen (c : Z)     (* [chosen] holds [c] when line 596 is reached *)
| NothingPressed     (* the human touched no button: [continue] *)
| BadAccess.         (* an access outside [moves] or [btns] *)

Definition chooseAction (g : Game) (p1Turn : bool) (w : World) : Choice * World :=
  let actor := getPlayer p1Turn g in
  match buttons (Player.pkmn actor) with
  | None => (BadAccess, w)
  | Some btns =>
      if Player.isHuman actor then
        let '((tx, ty), w1) := WaitForCleanPress w in
        match pressed btns tx ty with
        | Some b => (Chosen (Btn.id b), w1)
        | None => (NothingPressed, w1)
        end
      else
        let '(c, w1) := cpuChoice g (Player.pkmn actor) w in
        (* [Btn b = btns[chosen];] for the highlight, lines 585-586 *)
        if (0 <=? c) && (c <? Z.of_nat (List.length btns))
        then (Chosen c, w1) else (BadAccess, w1)
  end.

(** *** The projectile (lines 627-629 and 641-677) *)

(** [bool overlap = !(px1 + pw < tx1 || px1 > tx1 + tw ||
                      py1 + ph < ty1 || py1 > ty1 + th);] *)
Definition overlap (projX projY : Z) (t : Pokemon.t) : bool :=
  let tx1 := Pokemon.x t in
  let ty1 := Pokemon.y t in
  let tw := Pokemon.w t in
  let th := Pokemon.h t in
  let px1 := projX in
  let py1 := projY - 4 in
  let pw := 8 in
  let ph := 8 in
  negb ((px1 + pw <? tx1) || (px1 >? tx1 + tw)
        || (py1 + ph <? ty1) || (py1 >? ty1 + th)).

(** [while (projX > 0 && projX < SCREEN_W) { ...
       if (overlap) { hit = true; break; }
       projX += dir * PROJECTILE_STEP_PX; }]
    The result is the final value of [hit].  [fuel] bounds the number of
    rounds; [projectile_ends] shows that the loop is over within 54
    rounds, so that the [SCREEN_W] rounds of [fireProjectile] always
    suffice. *)
Fixpoint projectile (fuel : nat) (dir projX projY : Z) (t : Pokemon.t) : bool :=
  match fuel with
  | O => false
  | S fuel' =>
      if (projX >? 0) && (projX <? SCREEN_W) then
        if overlap projX projY t then true
        else projectile fuel' dir (projX + dir * PROJECTILE_STEP_PX) projY t
      else false
  end.

Definition fireProjectile (p1Turn : bool) (actor target : Pokemon.t) : bool :=
  let projX := Pokemon.x actor + (if p1Turn then Pokemon.w actor else -8) in
  let projY := Pokemon.y actor + Z.quot (Pokemon.h actor) 2 in
  let dir := if p1Turn then 1 else -1 in
  projectile (Z.to_nat SCREEN_W) dir projX projY target.

(** The test of the loop, and the abscissa of the projectile after [k]
    rounds that did not hit ([projX += dir * PROJECTILE_STEP_PX] each). *)
Definition onScreen (projX : Z) : bool := (projX >? 0) && (projX <? SCREEN_W).

Definition projAt (dir projX : Z) (k : nat) : Z :=
  projX + Z.of_nat k * (dir * PROJECTILE_STEP_PX).

(** The loop started at [x] ends after [n] rounds that neither hit nor
    left the screen: the next test of the loop fails or the next round
    hits, and [projectile] returns the final [hit] as soon as its fuel
    exceeds [n]. *)
Definition endsAfter (dir x y : Z) (t : Pokemon.t) (n : nat) : Prop :=
  (forall k : nat, (k < n)%nat ->
      onScreen (projAt dir x k) = true /\ overlap (projAt dir x k) y t = false)
  /\ (onScreen (projAt dir x n) = false \/ overlap (projAt dir x n) y t = true)
  /\ (forall fuel : nat, (n < fuel)%nat ->
        projectile fuel dir x y t
        = onScreen (projAt dir x n) && overlap (projAt dir x n) y t).

(** *** Processing the chosen action (lines 596-710) *)

(** [moves[mIdx]]; [None] when [mIdx] is outside the vector. *)
Definition moveAt (ms : list Move.t) (mIdx : Z) : option Move.t :=
  if mIdx <? 0 then None else nth_error ms (Z.to_nat mIdx).

(** [int mIdx = chosen; if (mIdx >= (int)moves.size()) mIdx = 0;] *)
Definition moveIndex (ms : list Move.t) (chosen : Z) : Z :=
  if chosen >=? Z.of_nat (List.length ms) then 0 else chosen.

Fixpoint updateAt {A : Type} (i : nat) (f : A -> A) (l : list A) : list A :=
  match l, i with
  | [], _ => []
  | a :: l', O => f a :: l'
  | a :: l', S i' => a :: updateAt i' f l'
  end.

(** [mv.pp--] through the reference [Move &mv = actor->pkmn.moves[mIdx]]. *)
Definition decrementPP (first : bool) (mIdx : Z) (g : Game) : Game :=
  let a := getPkmn first g in
  setPkmn first
    (Pokemon.setMoves
       (updateAt (Z.to_nat mIdx) (fun m => Move.setPP (Move.pp m - 1) m)
                 (Pokemon.moves a)) a) g.

(** Lines 684-688: the hit lands on [t].
    [if (t.defending) { dmg = (dmg + 1)/2; t.defending = false; }
     t.hp -= dmg; if (t.hp < 0) t.hp = 0;]
    [dmg + 1] leaves [int] at [dmg = INT_MAX], and [t.hp - dmg] can leave it
    when [t.hp] is negative.  The result carries the amount actually
    subtracted, which line 693 prints. *)
Definition applyDamage (dmg : Z) (t : Pokemon.t) : Z * Pokemon.t :=
  let '(dmg, t) := if Pokemon.defending t
                   then (Z.quot (wrap (dmg + 1)) 2, Pokemon.setDefending false t)
                   else (dmg, t) in
  let hp' := wrap (Pokemon.hp t - dmg) in
  (dmg, Pokemon.setHp (if hp' <? 0 then 0 else hp') t).

(** Lines 596-603: [chosen == 3]. *)
Definition retreat (g : Game) (p1Turn : bool) (w : World) : Game * World :=
  let a := getPkmn p1Turn g in
  let hp' := Pokemon.hp a + RETREAT_HEAL in
  let hp' := if hp' >? Pokemon.maxHP a then Pokemon.maxHP a else hp' in
  (setPkmn p1Turn (Pokemon.setHp hp' a) g,
   WriteLine (Pokemon.name a ++ " retreated and healed.")%string w).

(** Lines 656-661, in the body of the projectile loop:
    [if (chosen != -1) { Btn b = btns[chosen]; ... }].  [btns] holds the
    four buttons pushed at lines 516-525, and the body is run at least once
    exactly when the projectile starts on the screen.  [true] when that
    read falls outside [btns]. *)
Definition highlightOutside (p1Turn : bool) (chosen : Z) (actor : Pokemon.t) : bool :=
  let projX := Pokemon.x actor + (if p1Turn then Pokemon.w actor else -8) in
  (projX >? 0) && (projX <? SCREEN_W)
  && negb (chosen =? -1) && negb ((0 <=? chosen) && (chosen <? 4)).

(** Lines 610-704: the move [mv = moves[mIdx]] of the actor is resolved;
    [None] when [btns[chosen]] is read outside [btns]. *)
Definition resolveMove (g : Game) (p1Turn : bool) (chosen mIdx : Z) (mv : Move.t)
    (w : World) : option (Game * World) :=
  let a := getPkmn p1Turn g in
  if Move.power mv =? 0 then
    if Move.pp mv <=? 0 then
      Some (g, WriteLine "No PP left for that move." w)
    else
      Some (decrementPP p1Turn mIdx (setPkmn p1Turn (Pokemon.setDefending true a) g),
            WriteLine (Pokemon.name a ++ " used " ++ Move.name mv ++ "! Defending...")%string w)
  else
    if Move.pp mv <=? 0 then
      Some (g, WriteLine "No PP left for that move." w)
    else
      let '(roll, w) := randInt 1 100 w in
      if roll >? Move.accuracy mv then
        Some (g, WriteLine (Pokemon.name a ++ " used " ++ Move.name mv ++ " but missed!")%string w)
      else
        let t := getPkmn (negb p1Turn) g in
        if highlightOutside p1Turn chosen a then None
        else if fireProjectile p1Turn a t then
          let '(dmg, w) := computeDamage g a t mv w in
          let '(dmg, t) := applyDamage dmg t in
          Some (decrementPP p1Turn mIdx (setPkmn (negb p1Turn) t g),
                WriteLine ("Hit for " ++ to_string dmg ++ " dmg")%string
                  (WriteLine (Pokemon.name a ++ " used " ++ Move.name mv ++ "!")%string w))
        else
          Some (decrementPP p1Turn mIdx g,
                WriteLine (Pokemon.name a ++ " used " ++ Move.name mv ++ " - no hit.")%string w).

(** Line 707: [if (actor->pkmn.defending && mv.power > 0)
                 actor->pkmn.defending = false;] *)
Definition clearOwnDefend (g : Game) (p1Turn : bool) (mv : Move.t) : Game :=
  let a := getPkmn p1Turn g in
  if Pokemon.defending a && (Move.power mv >? 0)
  then setPkmn p1Turn (Pokemon.setDefending false a) g else g.

(** What one round of the battle loop leads to. *)
Inductive Step :=
| Again (g : Game) (p1Turn : bool)   (* back to the loop test, [p1Turn] as given *)
| Retreated (g : Game)               (* [return false;] at line 603 *)
| Undefined.                         (* an access outside a vector *)

(** Lines 596-714, from [chosen] to [p1Turn = !p1Turn]. *)
Definition processAction (g : Game) (p1Turn : bool) (chosen : Z) (w : World)
    : Step * World :=
  if chosen =? 3 then
    let '(g, w) := retreat g p1Turn w in (Retreated g, w)
  else if negb (chosen =? -1) then
    let mIdx := moveIndex (Pokemon.moves (getPkmn p1Turn g)) chosen in
    match moveAt (Pokemon.moves (getPkmn p1Turn g)) mIdx with
    | None => (Undefined, w)
    | Some mv =>
        match resolveMove g p1Turn chosen mIdx mv w with
        | None => (Undefined, w)
        | Some (g, w) => (Again (clearOwnDefend g p1Turn mv) (negb p1Turn), w)
        end
    end
  else (Again g (negb p1Turn), w).

(** One round of the loop (lines 494-714). *)
Definition turn (g : Game) (p1Turn : bool) (w : World) : Step * World :=
  match chooseAction g p1Turn w with
  | (Chosen c, w) => processAction g p1Turn c w
  | (NothingPressed, w) => (Again g p1Turn, w)
  | (BadAccess, w) => (Undefined, w)
  end.

(** How the battle loop is left. *)
Inductive LoopExit :=
| Fainted (g : Game)    (* the loop test failed *)
| Ran (g : Game)        (* [return false;] at line 603 *)
| Crash.

(** [while (!p1.pkmn.fainted() && !p2.pkmn.fainted()) { ... }]; [None]
    when [fuel] rounds were not enough. *)
Fixpoint battleLoop (fuel : nat) (g : Game) (p1Turn : bool) (w : World)
    : option (LoopExit * World) :=
  if negb (Pokemon.fainted (Player.pkmn (p1 g)))
     && negb (Pokemon.fainted (Player.pkmn (p2 g))) then
    match fuel with
    | O => None
    | S fuel' =>
        match turn g p1Turn w with
        | (Again g' p1Turn', w') => battleLoop fuel' g' p1Turn' w'
        | (Retreated g', w') => Some (Ran g', w')
        | (Undefined, w') => Some (Crash, w')
        end
    end
  else Some (Fainted g, w).

(** Lines 718-731: the result is displayed and counted. *)
Definition reportResult (g : Game) (w : World) : Game * World :=
  let f1 := Pokemon.fainted (Player.pkmn (p1 g)) in
  let f2 := Pokemon.fainted (Player.pkmn (p2 g)) in
  let '(hw, cw, w) :=
    if f1 && f2 then
      (humanWins g, cpuWins g, WriteLine "It's a tie!" w)
    else if f1 then
      let w := WriteLine (Player.label (p1 g) ++ " lost. "
                          ++ Player.label (p2 g) ++ " wins!")%string w in
      if Player.isHuman (p2 g) then (humanWins g + 1, cpuWins g, w)
      else (humanWins g, cpuWins g + 1, w)
    else if f2 then
      let w := WriteLine (Player.label (p2 g) ++ " lost. "
                          ++ Player.label (p1 g) ++ " wins!")%string w in
      if Player.isHuman (p1 g) then (humanWins g + 1, cpuWins g, w)
      else (humanWins g, cpuWins g + 1, w)
    else
      (humanWins g, cpuWins g, WriteLine "Match ended unexpectedly." w) in
  (mkGame (bank g) (p1 g) (p2 g) (gamesPlayed g + 1) hw cw (difficulty g), w).

(** Lines 735-742: [bool again = (ry < SCREEN_H/2);] *)
Definition askReplay (w : World) : bool * World :=
  let w := WriteLine "" w in
  let w := WriteLine "Play again? Tap TOP half = YES, bottom half = NO" w in
  let '((rx, ry), w) := WaitForCleanPress w in
  (ry <? Z.quot SCREEN_H 2, w).

(** What a call of [runMatch] comes to. *)
Inductive MatchResult :=
| Returned (again : bool) (g : Game)
| Crashed.

(** Lines 718-742 after the loop, or nothing at all after line 603. *)
Definition finishMatch (e : LoopExit) (w : World) : MatchResult * World :=
  match e with
  | Fainted g =>
      let '(g, w) := reportResult g w in
      let '(again, w) := askReplay w in
      (Returned again g, w)
  | Ran g => (Returned false g, w)
  | Crash => (Crashed, w)
  end.

(** Lines 487-488: [p1.pkmn.defending = false; p2.pkmn.defending = false;] *)
Definition clearDefends (g : Game) : Game :=
  setPkmn false (Pokemon.setDefending false (getPkmn false g))
    (setPkmn true (Pokemon.setDefending false (getPkmn true g)) g).

Definition runMatch (fuel : nat) (g : Game) (w : World)
    : option (MatchResult * World) :=
  match battleLoop fuel (clearDefends g) true w with
  | Some (e, w) => Some (finishMatch e w)
  | None => None
  end.

(** ** The rematch loop of [mainMenuLoop] (lines 898-906) *)

(** [game.p1.pkmn.reset(); game.p2.pkmn.reset();] *)
Definition resetBoth (g : Game) : Game :=
  setPkmn false (Pokemon.reset (getPkmn false g))
    (setPkmn true (Pokemon.reset (getPkmn true g)) g).

(** [while (again) { again = game.runMatch(); if (again) { reset both } }],
    at most [matches] matches of at most [fuel] rounds each. *)
Fixpoint playMatches (matches fuel : nat) (g : Game) (w : World)
    : option (MatchResult * World) :=
  match matches with
  | O => None
  | S matches' =>
      match runMatch fuel g w with
      | Some (Returned true g', w') =>
          playMatches matches' fuel (resetBoth g') (WriteLine "Restarting match..." w')
      | r => r
      end
  end.

(** ** [Game::loadBank] and [Game::assignPlayers] (lines 294-347) *)

(** The lambda [mk] of [loadBank]. *)
Definition mkPokemon (n : string) (hp atk def : Z) (m1 m2 m3 : Move.t)
    : Pokemon.t :=
  Pokemon.mk n hp hp atk def [m1; m2; m3] 0 0 48 48 false.

Definition loadBank : list Pokemon.t :=
  [ mkPokemon "Pikachu" 40 11 6
      (Move.mk "Thunder" 40 95 15) (Move.mk "Quick" 40 100 20) (Move.mk "Growl" 0 100 25);
    mkPokemon "Charmander" 45 10 7
      (Move.mk "Ember" 40 95 15) (Move.mk "Scratch" 35 100 25) (Move.mk "Tail" 0 100 25);
    mkPokemon "Squirtle" 50 9 9
      (Move.mk "Water" 40 95 15) (Move.mk "Tackle" 40 100 25) (Move.mk "Withdraw" 0 100 25);
    mkPokemon "Bulbasaur" 48 9 8
      (Move.mk "Vine" 45 100 15) (Move.mk "Tackle" 40 100 25) (Move.mk "Seed" 0 90 20);
    mkPokemon "Gengar" 55 12 6
      (Move.mk "Shadow" 50 90 12) (Move.mk "Lick" 30 95 20) (Move.mk "Hypno" 0 70 8);
    mkPokemon "Onix" 60 11 12
      (Move.mk "RockT" 50 90 15) (Move.mk "Tackle" 40 100 25) (Move.mk "Harden" 0 100 20) ].

(** [while (i2 == i1) i2 = randInt(0, (int)bank.size()-1);] *)
Fixpoint resample (fuel : nat) (n i1 i2 : Z) (w : World) : option (Z * World) :=
  if i2 =? i1 then
    match fuel with
    | O => None
    | S fuel' => let '(i2', w') := randInt 0 (n - 1) w in resample fuel' n i1 i2' w'
    end
  else Some (i2, w).

Definition assignPlayers (fuel : nat) (g : Game) (w : World) : option (Game * World) :=
  let '(assignment, w) := randInt 0 1 w in
  let h1 := assignment =? 0 in
  let n := Z.of_nat (List.length (bank g)) in
  let '(i1, w) := randInt 0 (n - 1) w in
  let '(i2, w) := randInt 0 (n - 1) w in
  match resample fuel n i1 i2 w with
  | None => None
  | Some (i2, w) =>
      match nth_error (bank g) (Z.to_nat i1), nth_error (bank g) (Z.to_nat i2) with
      | Some b1, Some b2 =>
          let k1 := Pokemon.setPos 40 60 (Pokemon.reset b1) in
          let k2 := Pokemon.setPos 220 60 (Pokemon.reset b2) in
          Some (mkGame (bank g)
                  (Player.mk "Player 1" h1 k1 (Player.wins (p1 g)))
                  (Player.mk "Player 2" (negb h1) k2 (Player.wins (p2 g)))
                  (gamesPlayed g) (humanWins g) (cpuWins g) (difficulty g), w)
      | _, _ => None
      end
  end.

Definition fst_opt {A B : Type} (o : option (A * B)) : option A :=
  match o with Some (a, _) => Some a | None => None end.

(** ** Concrete states used to exercise the definitions *)

(** The environment whose [rand()] values and touches are read from two
    lists (0 and the origin once a list is exhausted). *)
Definition worldOf (rands : list N) (touches : list (Z * Z)) : World :=
  mkWorld (fun i => nth i rands 0%N) 0 (fun i => nth i touches (0, 0)) 0 [].

(** A seat as [assignPlayers] sets it up. *)
Definition seat1 (human : bool) (pk : Pokemon.t) : Player.t :=
  Player.mk "Player 1" human (Pokemon.setPos 40 60 (Pokemon.reset pk)) 0.

Definition seat2 (human : bool) (pk : Pokemon.t) : Player.t :=
  Player.mk "Player 2" human (Pokemon.setPos 220 60 (Pokemon.reset pk)) 0.

Definition pikachu : Pokemon.t := nth 0 loadBank (mkPokemon "" 0 0 0 (Move.mk "" 0 0 0) (Move.mk "" 0 0 0) (Move.mk "" 0 0 0)).
Definition charmander : Pokemon.t := nth 1 loadBank pikachu.

(** Pikachu (human, seat 1) against Charmander (CPU, seat 2). *)
Definition sampleGame (diff : Z) : Game :=
  mkGame loadBank (seat1 true pikachu) (seat2 false charmander) 0 0 0 diff.

(** The same match after Pikachu has spent the PP of its first move and
    Charmander the PP of its first move (PP survive rematches). *)
Definition spendFirst (p : Pokemon.t) : Pokemon.t :=
  Pokemon.setMoves (updateAt 0 (Move.setPP 0) (Pokemon.moves p)) p.

Definition tiredGame (diff : Z) : Game :=
  mkGame loadBank
    (seat1 true (spendFirst pikachu)) (seat2 false (spendFirst charmander)) 0 0 0 diff.

(** ** The data invariant of section 3 of the specification

    Health between 0 and the maximum, no negative PP. *)

Definition healthy (p : Pokemon.t) : Prop :=
  0 <= Pokemon.hp p <= Pokemon.maxHP p
  /\ Forall (fun m => 0 <= Move.pp m) (Pokemon.moves p).

Definition wellFormed (g : Game) : Prop :=
  healthy (getPkmn true g) /\ healthy (getPkmn false g).

(** ** Hits that stay inside [int]

    [hitInRange]: in the call [computeDamage(att, def, m)] the conversion
    of line 366 is defined and the result is below [INT_MAX], so that
    [dmg + 1] at line 685 is an [int] as well.  [hitFits g s] says so of
    every move of seat [s] against the other seat, for each of the sixteen
    values of [randInt(85,100)]; it only depends on what a match never
    changes (difficulty, attack, defense, powers). *)

Definition hitInRange (g : Game) (att def : Pokemon.t) (m : Move.t)
    (w : World) : bool :=
  damageInRange g att def m w && (fst (computeDamage g att def m w) <? INT_MAX).

Definition variances : list Z := map (fun k => 85 + Z.of_nat k) (seq 0 16).

Definition powerFits (hard : bool) (a d p : Z) : bool :=
  forallb (fun r =>
    let raw := Double.mul (clampedBase a d)
                 (Double.div (Double.of_int p) (Double.literal 20)) in
    Double.fits_int (castOperand hard r raw) && (finishDamage hard r raw <? INT_MAX))
    variances.

Definition hitFits (g : Game) (s : bool) : bool :=
  forallb (powerFits (difficulty g =? 1) (Pokemon.attack (getPkmn s g))
             (Pokemon.defense (getPkmn (negb s) g)))
    (map Move.power (Pokemon.moves (getPkmn s g))).

(** Both health maxima leave room for the heal of a retreat
    ([hp + RETREAT_HEAL] at line 598 is an [int]) and the hits of both
    seats fit. *)
Definition intSafe (g : Game) : Prop :=
  (forall s : bool, Pokemon.maxHP (getPkmn s g) + RETREAT_HEAL <= INT_MAX)
  /\ (forall s : bool, hitFits g s = true).

(** ** The HARD policy as the specification words it

    "Pick the move with the highest power among moves with PP > 0 (ties
    resolved by first occurrence)": a scan that only ever holds a move
    with PP left, to be compared with [hardBest]. *)

Definition spec_hardStep (ms : list Move.t) (best : option nat) (i : nat)
    : option nat :=
  match nth_error ms i with
  | Some mi =>
      if Move.pp mi >? 0 then
        match best with
        | None => Some i
        | Some b =>
            match nth_error ms b with
            | Some mb => if Move.power mi >? Move.power mb then Some i else best
            | None => best
            end
        end
      else best
  | None => best
  end.

Definition spec_hardBest (ms : list Move.t) : option nat :=
  fold_left (spec_hardStep ms) (seq 0 (List.length ms)) None.

(** ** The damage formula on the binary64 numbers of the Standard Library

    [SpecFloat] is the executable specification of IEEE-754 arithmetic
    that comes with Rocq.  The same formula is written over it, to check
    [Double] against it on every input the roster can produce
    ([bank_damage_is_binary64]). *)

Module Binary64.

Definition prec : Z := 53.
Definition emax : Z := 1024.

Definition of_int (n : Z) : spec_float := binary_normalize prec emax n 0 false.

(** The double nearest to [n / d]. *)
Definition literal (n d : Z) : spec_float :=
  SFdiv prec emax (of_int n) (of_int d).

Definition to_int (f : spec_float) : Z :=
  match f with
  | S754_finite s m e =>
      let v := if e >=? 0 then Zpos m * 2 ^ e else Z.quot (Zpos m) (2 ^ (- e)) in
      if s then - v else v
  | _ => 0
  end.

Definition computeDamage (hard : bool) (attack defense power r : Z) : Z :=
  let base := SFsub prec emax (of_int attack)
                (SFmul prec emax (of_int defense) (literal 45 100)) in
  let base := if SFltb base (of_int 1) then of_int 1 else base in
  let raw := SFmul prec emax base (SFdiv prec emax (of_int power) (of_int 20)) in
  let mult := SFdiv prec emax (of_int r) (of_int 100) in
  let raw := if hard then SFmul prec emax raw (literal 108 100) else raw in
  let raw := SFmul prec emax raw mult in
  let dmg := to_int (SFadd prec emax raw (literal 1 2)) in
  if dmg <? MIN_DAMAGE then MIN_DAMAGE else dmg.

End Binary64.

(** [computeDamage] and [Binary64.computeDamage] give the same damage for
    the stats [a], [d], the power [p], both difficulties and each of the
    sixteen values of [randInt(85,100)]. *)
Definition damageAgrees (a d p : Z) : bool :=
  forallb (fun hard =>
    forallb (fun r =>
      Binary64.computeDamage hard a d p r
      =? finishDamage hard r
           (Double.mul (clampedBase a d)
              (Double.div (Double.of_int p) (Double.literal 20))))
      (map (fun k => 85 + Z.of_nat k) (seq 0 16)))
    [false; true].

Definition bankDamageAgrees : bool :=
  forallb (fun att =>
    forallb (fun def =>
      forallb (fun m =>
        damageAgrees (Pokemon.attack att) (Pokemon.defense def) (Move.power m))
        (Pokemon.moves att))
      loadBank)
    loadBank.

(** ** The menus (lines 23-28, 183-204, 774-785, 880-892) *)

Definition BTN_X : Z := 20.
Definition BTN_W : Z := 280.
Definition BTN_H : Z := 45.
Definition BTN_START_Y : Z := 40.
Definition BTN_GAP : Z := 10.
Definition NUM_MENU_BUTTONS : Z := 4.

(** [DrawMenuButton(label, index)] draws the rectangle
    [(BTN_X, y, BTN_W, BTN_H)] with
    [int y = BTN_START_Y + index * (BTN_H + BTN_GAP);] *)
Definition menuButtonY (index : Z) : Z :=
  BTN_START_Y + index * (BTN_H + BTN_GAP).

(** [GetMenuButtonPressed], from the touch [(touchX, touchY)] it has read
    (lines 191-203). *)
Definition menuButtonAt (touchX touchY : Z) : Z :=
  if (touchX <? BTN_X) || (touchX >? BTN_X + BTN_W) then 0
  else
    let rel := touchY - BTN_START_Y in
    if rel <? 0 then 0
    else
      let rowH := BTN_H + BTN_GAP in
      let index := Z.quot rel rowH in
      if (index >=? 0) && (index <? NUM_MENU_BUTTONS) then
        let top := BTN_START_Y + index * rowH in
        let bottom := top + BTN_H in
        if (touchY >=? top) && (touchY <=? bottom) then index + 1 else 0
      else 0.

(** [GetSimpleMenuChoice(numRegions)], from the ordinate [ty] it has read
    (lines 780-784). *)
Definition simpleMenuChoiceAt (numRegions ty : Z) : Z :=
  let regionH := Z.quot SCREEN_H numRegions in
  let idx := Z.quot ty regionH in
  let idx := if idx <? 0 then 0 else idx in
  let idx := if idx >=? numRegions then numRegions - 1 else idx in
  idx + 1.

Definition setDifficulty (d : Z) (g : Game) : Game :=
  mkGame (bank g) (p1 g) (p2 g) (gamesPlayed g) (humanWins g) (cpuWins g) d.

(** The difficulty submenu of [mainMenuLoop] (lines 885-892), from the
    touch [(sx, sy)] returned by [WaitForCleanPress]. *)
Definition selectDifficulty (sx sy : Z) (g : Game) (w : World) : Game * World :=
  if (sx >=? 30) && (sx <=? 150) && (sy >=? 50) && (sy <=? 90) then
    (setDifficulty 0 g, WriteLine "Difficulty: EASY" w)
  else if (sx >=? 170) && (sx <=? 290) && (sy >=? 50) && (sy <=? 90) then
    (setDifficulty 1 g, WriteLine "Difficulty: HARD" w)
  else if (sx >=? 30) && (sx <=? 290) && (sy >=? 110) && (sy <=? 150) then
    (g, WriteLine "Starting match..." w)
  else
    (setDifficulty 0 g, WriteLine "No selection, starting default (Easy)." w).

(** [case 1] of [mainMenuLoop] (lines 880-912): the submenu, the deal, the
    matches.  [None] when the fuel of the deal or of the matches runs out. *)
Definition playCase (dealFuel matches fuel : nat) (g : Game) (w : World)
    : option (MatchResult * World) :=
  let '((sx, sy), w) := WaitForCleanPress w in
  let '(g, w) := selectDifficulty sx sy g w in
  match assignPlayers dealFuel g w with
  | None => None
  | Some (g, w) =>
      match playMatches matches fuel g w with
      | Some (Returned again g, w) =>
          Some (Returned again g, WriteLine "Returning to menu..." w)
      | r => r
      end
  end.

(** ** The health bar of [drawPokemonGraphic] (lines 412-417)

    [int barW = p.w; int hpperc = (p.hp * barW) / p.maxHP;] the green
    rectangle is [hpperc] wide over a red one that is [barW] wide.  The
    product is an [int]; the division truncates, and traps when [maxHP]
    is 0. *)
Definition healthBar (p : Pokemon.t) : Z :=
  Z.quot (wrap (Pokemon.hp p * Pokemon.w p)) (Pokemon.maxHP p).

(** ** What a match never changes

    The fixed part of a move, of a combatant, of a seat and of the game;
    the three session counters. *)

Definition moveStatic (m : Move.t) : string * Z * Z :=
  (Move.name m, Move.power m, Move.accuracy m).

Definition pkmnStatic (p : Pokemon.t)
    : string * Z * Z * Z * (Z * Z * Z * Z) * list (string * Z * Z) :=
  (Pokemon.name p, Pokemon.maxHP p, Pokemon.attack p, Pokemon.defense p,
   (Pokemon.x p, Pokemon.y p, Pokemon.w p, Pokemon.h p),
   map moveStatic (Pokemon.moves p)).

Definition seatStatic (first : bool) (g : Game) :=
  (Player.label (getPlayer first g), Player.isHuman (getPlayer first g),
   Player.wins (getPlayer first g), pkmnStatic (getPkmn first g)).

Definition setup (g : Game) :=
  (bank g, difficulty g, seatStatic true g, seatStatic false g).

Definition stats (g : Game) : Z * Z * Z :=
  (gamesPlayed g, humanWins g, cpuWins g).

(** A move after a round: its PP is what it was, or one less. *)
Definition ppSpent (m m' : Move.t) : Prop :=
  moveStatic m' = moveStatic m
  /\ (Move.pp m' = Move.pp m \/ (0 < Move.pp m /\ Move.pp m' = Move.pp m - 1)).

(** The effects of a round on the game, gathered in one record of facts. *)
Definition roundEffects (s : bool) (g g' : Game) : Prop :=
  setup g' = setup g
  /\ stats g' = stats g
  /\ Pokemon.hp (getPkmn s g') = Pokemon.hp (getPkmn s g)
  /\ Pokemon.moves (getPkmn (negb s) g') = Pokemon.moves (getPkmn (negb s) g)
  /\ (hitFits g s = true ->
      0 <= Pokemon.hp (getPkmn (negb s) g) <= INT_MAX ->
      0 <= Pokemon.hp (getPkmn (negb s) g') <= Pokemon.hp (getPkmn (negb s) g))
  /\ Forall2 ppSpent (Pokemon.moves (getPkmn s g)) (Pokemon.moves (getPkmn s g')).

(* ================================================================== *)
(** * Part II: properties *)
(* ================================================================== *)

(** ** Rounding is monotone

    The one fact about binary64 arithmetic that the damage formula needs:
    rounding to nearest never reverses an order.  It is proved from the
    definition of [Double.round53]: the magnitude is monotone, within one
    binade the nearest-integer function is monotone, and between two
    binades the powers of two, which are fixed points, separate the
    results. *)

Module DoubleFacts.

Import Double.
Local Open Scope Q_scope.

Lemma pow2_pos e : 0 < pow2 e.
Proof. apply Qpower_0_lt. reflexivity. Qed.

Lemma pow2_succ e : pow2 (e + 1) == 2 * pow2 e.
Proof. unfold pow2. rewrite Qpower_plus by discriminate. simpl (2 ^ 1). ring. Qed.

Lemma pow2_pred e : pow2 (e - 1) == pow2 e / 2.
Proof.
assert (H := pow2_succ (e - 1)). replace (e - 1 + 1)%Z with e in H by ring.
rewrite H. field.
Qed.

Lemma pow2_lt e1 e2 : (e1 < e2)%Z -> pow2 e1 < pow2 e2.
Proof. intros. apply Qpower_lt_compat_l; [assumption|reflexivity]. Qed.

Lemma pow2_le e1 e2 : (e1 <= e2)%Z -> pow2 e1 <= pow2 e2.
Proof. intros. apply Qpower_le_compat_l; [assumption|discriminate]. Qed.

Lemma pow2_lt_inv e1 e2 : pow2 e1 < pow2 e2 -> (e1 < e2)%Z.
Proof. intros. apply (Qpower_lt_compat_l_inv 2); [assumption|reflexivity]. Qed.

Lemma pow2_log2_quot (n d : Z) : (0 < n)%Z -> (0 < d)%Z ->
pow2 (Z.log2 n - Z.log2 d - 1) < inject_Z n / inject_Z d
/\ inject_Z n / inject_Z d < pow2 (Z.log2 n - Z.log2 d + 1).
Proof.
intros Hn Hd.
destruct (Z.log2_spec n Hn) as [Hn1 Hn2].
destruct (Z.log2_spec d Hd) as [Hd1 Hd2].
assert (Ln := Z.log2_nonneg n). assert (Ld := Z.log2_nonneg d).
rewrite pow2_pred, pow2_succ.
assert (E : pow2 (Z.log2 n - Z.log2 d) == inject_Z (2 ^ Z.log2 n) / inject_Z (2 ^ Z.log2 d)).
{ unfold pow2. rewrite Qpower_minus by discriminate.
  rewrite !Zpower_Qpower by assumption. reflexivity. }
rewrite E. clear E.
rewrite Z.pow_succ_r in Hn2, Hd2 by assumption.
set (A := (2 ^ Z.log2 n)%Z) in *. set (B := (2 ^ Z.log2 d)%Z) in *.
assert (HB : (0 < B)%Z) by (apply Z.pow_pos_nonneg; lia).
assert (HA : (0 < A)%Z) by (apply Z.pow_pos_nonneg; lia).
assert (QB : 0 < inject_Z B) by (change 0 with (inject_Z 0); rewrite <- Zlt_Qlt; assumption).
assert (QD : 0 < inject_Z d) by (change 0 with (inject_Z 0); rewrite <- Zlt_Qlt; assumption).
assert (Q2 : 0 < 2) by reflexivity.
assert (NB : ~ inject_Z B == 0) by (intro X; rewrite X in QB; discriminate).
assert (ND : ~ inject_Z d == 0) by (intro X; rewrite X in QD; discriminate).
split.
- setoid_replace (inject_Z A / inject_Z B / 2)
    with (inject_Z A / (2 * inject_Z B)) by (field; assumption).
  apply Qlt_shift_div_r.
  { change 2 with (inject_Z 2). rewrite <- inject_Z_mult.
    change 0 with (inject_Z 0). rewrite <- Zlt_Qlt. lia. }
  setoid_replace (inject_Z n / inject_Z d * (2 * inject_Z B))
    with ((inject_Z n * 2 * inject_Z B) / inject_Z d) by (field; assumption).
  apply Qlt_shift_div_l; [assumption|].
  change 2 with (inject_Z 2). rewrite <- !inject_Z_mult, <- Zlt_Qlt. nia.
- apply Qlt_shift_div_r; [assumption|].
  setoid_replace (2 * (inject_Z A / inject_Z B) * inject_Z d)
    with ((2 * inject_Z A * inject_Z d) / inject_Z B) by (field; assumption).
  apply Qlt_shift_div_l; [assumption|].
  change 2 with (inject_Z 2). rewrite <- !inject_Z_mult, <- Zlt_Qlt. nia.
Qed.

Lemma mag_spec x : 0 < x -> pow2 (mag x - 1) <= x /\ x < pow2 (mag x).
Proof.
intros Hx. destruct x as [n d]. 
assert (Hn : (0 < n)%Z) by (unfold Qlt in Hx; simpl in Hx; lia).
destruct (pow2_log2_quot n (Zpos d) Hn eq_refl) as [L U].
rewrite <- Qmake_Qdiv in L, U.
unfold mag. cbn [Qnum Qden].
set (k0 := (Z.log2 n - Z.log2 (Z.pos d))%Z) in *.
destruct (Qle_bool (pow2 k0) (n # d)) eqn:E.
- rewrite Qle_bool_iff in E. replace (k0 + 1 - 1)%Z with k0 by ring. split; assumption.
- split; [apply Qlt_le_weak; assumption|].
  apply Qnot_le_lt. intro X. rewrite <- Qle_bool_iff in X. congruence.
Qed.

Lemma mag_unique x k : pow2 (k - 1) <= x -> x < pow2 k -> mag x = k.
Proof.
intros L U.
assert (Hx : 0 < x) by (eapply Qlt_le_trans; [apply pow2_pos | exact L]).
destruct (mag_spec x Hx) as [L' U'].
assert (k - 1 < mag x)%Z by (apply pow2_lt_inv; eapply Qle_lt_trans; eassumption).
assert (mag x - 1 < k)%Z by (apply pow2_lt_inv; eapply Qle_lt_trans; eassumption).
lia.
Qed.

Lemma mag_le x y : 0 < x -> x <= y -> (mag x <= mag y)%Z.
Proof.
intros Hx Hxy.
assert (Hy : 0 < y) by (eapply Qlt_le_trans; eassumption).
destruct (mag_spec x Hx) as [L _]. destruct (mag_spec y Hy) as [_ U].
assert (mag x - 1 < mag y)%Z; [|lia].
apply pow2_lt_inv. eapply Qle_lt_trans; [exact L|]. eapply Qle_lt_trans; eassumption.
Qed.

Lemma rne_floor_le t : (Qfloor t <= rne t)%Z.
Proof. unfold rne. destruct (Qcompare _ _); [destruct (Z.even _)|..]; lia. Qed.

Lemma rne_le_floor_succ t : (rne t <= Qfloor t + 1)%Z.
Proof. unfold rne. destruct (Qcompare _ _); [destruct (Z.even _)|..]; lia. Qed.

Lemma rne_le t u : t <= u -> (rne t <= rne u)%Z.
Proof.
intros H. assert (F := Qfloor_resp_le t u H).
destruct (Z.eq_dec (Qfloor t) (Qfloor u)) as [E|NE].
- unfold rne. rewrite <- E. set (f := Qfloor t).
  assert (R : t - inject_Z f <= u - inject_Z f) by lra.
  destruct (Qcompare_spec (t - inject_Z f) (1 # 2)) as [Ht|Ht|Ht];
  destruct (Qcompare_spec (u - inject_Z f) (1 # 2)) as [Hu|Hu|Hu];
  try destruct (Z.even f); try lia; exfalso; lra.
- assert (A := rne_le_floor_succ t). assert (B := rne_floor_le u). lia.
Qed.

Lemma rne_inject_Z n : rne (inject_Z n) = n.
Proof.
unfold rne. rewrite Qfloor_Z.
destruct (Qcompare_spec (inject_Z n - inject_Z n) (1 # 2)) as [H|H|H]; try reflexivity; exfalso; lra.
Qed.

Lemma rne_lower n t : inject_Z n <= t -> (n <= rne t)%Z.
Proof. intros H. apply rne_le in H. rewrite rne_inject_Z in H. exact H. Qed.

Lemma rne_upper n t : t <= inject_Z n -> (rne t <= n)%Z.
Proof. intros H. apply rne_le in H. rewrite rne_inject_Z in H. exact H. Qed.

Lemma round_pos_eq x : round_pos x == inject_Z (rne (x / pow2 (mag x - 53))) * pow2 (mag x - 53).
Proof. unfold round_pos. apply Qred_correct. Qed.

Lemma pow2_add a b : pow2 (a + b) == pow2 a * pow2 b.
Proof. unfold pow2. apply Qpower_plus. discriminate. Qed.

Lemma pow2_lo m : pow2 (m - 1) == inject_Z (2 ^ 52) * pow2 (m - 53).
Proof. replace (m - 1)%Z with (52 + (m - 53))%Z by ring. rewrite pow2_add. reflexivity. Qed.

Lemma pow2_hi m : pow2 m == inject_Z (2 ^ 53) * pow2 (m - 53).
Proof. replace m with (53 + (m - 53))%Z at 1 by ring. rewrite pow2_add. reflexivity. Qed.

Lemma scaled_bounds x : 0 < x ->
inject_Z (2 ^ 52) <= x / pow2 (mag x - 53) /\ x / pow2 (mag x - 53) <= inject_Z (2 ^ 53).
Proof.
intros Hx. destruct (mag_spec x Hx) as [L U].
assert (P := pow2_pos (mag x - 53)).
split.
- apply Qle_shift_div_l; [assumption|]. rewrite <- pow2_lo. assumption.
- apply Qle_shift_div_r; [assumption|]. rewrite <- pow2_hi. apply Qlt_le_weak. assumption.
Qed.

Lemma round_pos_bounds x : 0 < x ->
pow2 (mag x - 1) <= round_pos x /\ round_pos x <= pow2 (mag x).
Proof.
intros Hx. destruct (scaled_bounds x Hx) as [L U].
assert (P := pow2_pos (mag x - 53)).
rewrite round_pos_eq.
apply rne_lower in L. apply rne_upper in U.
rewrite Zle_Qle in L, U.
split.
- rewrite pow2_lo.
  apply Qmult_le_compat_r; [|apply Qlt_le_weak; assumption]. exact L.
- rewrite (pow2_hi (mag x)).
  apply Qmult_le_compat_r; [|apply Qlt_le_weak; assumption]. exact U.
Qed.

Lemma round_pos_gt0 x : 0 < x -> 0 < round_pos x.
Proof.
intros Hx. destruct (round_pos_bounds x Hx) as [L _].
eapply Qlt_le_trans; [apply pow2_pos | exact L].
Qed.

Lemma round_pos_le x y : 0 < x -> x <= y -> round_pos x <= round_pos y.
Proof.
intros Hx Hxy.
assert (Hy : 0 < y) by (eapply Qlt_le_trans; eassumption).
assert (M := mag_le x y Hx Hxy).
destruct (Z.eq_dec (mag x) (mag y)) as [E|NE].
- rewrite !round_pos_eq, E.
  assert (P := pow2_pos (mag y - 53)).
  apply Qmult_le_compat_r; [|apply Qlt_le_weak; assumption].
  rewrite <- Zle_Qle. apply rne_le.
  apply Qmult_le_compat_r; [assumption|].
  apply Qlt_le_weak, Qinv_lt_0_compat, P.
- destruct (round_pos_bounds x Hx) as [_ U].
  destruct (round_pos_bounds y Hy) as [L _].
  eapply Qle_trans; [exact U|]. eapply Qle_trans; [|exact L].
  apply pow2_le. lia.
Qed.

Lemma Qnum_sign x :
match Qnum x with Z0 => x == 0 | Zpos _ => 0 < x | Zneg _ => x < 0 end.
Proof. destruct x as [[|p|p] d]; unfold Qeq, Qlt; simpl; lia. Qed.

Lemma round53_le x y : x <= y -> round53 x <= round53 y.
Proof.
intros H. unfold round53.
assert (Sx := Qnum_sign x). assert (Sy := Qnum_sign y).
destruct (Qnum x) eqn:Ex; destruct (Qnum y) eqn:Ey; try (exfalso; lra).
- apply Qle_refl.
- apply Qlt_le_weak, round_pos_gt0, Sy.
- apply round_pos_le; assumption.
- assert (0 < round_pos (- x)) by (apply round_pos_gt0; lra). lra.
- assert (0 < round_pos (- x)) by (apply round_pos_gt0; lra).
  assert (0 < round_pos y) by (apply round_pos_gt0; lra). lra.
- assert (round_pos (- y) <= round_pos (- x)) by (apply round_pos_le; lra). lra.
Qed.

#[global] Instance round53_proper : Proper (Qeq ==> Qeq) round53.
Proof.
intros x y E. apply Qle_antisym; apply round53_le; rewrite E; apply Qle_refl.
Qed.

(** The operations inherit the monotonicity of the exact ones. *)

Lemma round53_0 : round53 0 = 0.
Proof. reflexivity. Qed.

Lemma round53_nonneg x : 0 <= x -> 0 <= round53 x.
Proof. intros H. apply round53_le in H. exact H. Qed.

Lemma round53_nonpos x : x <= 0 -> round53 x <= 0.
Proof. intros H. apply round53_le in H. exact H. Qed.

Lemma of_int_le a b : (a <= b)%Z -> of_int a <= of_int b.
Proof. intros H. apply round53_le. rewrite <- Zle_Qle. exact H. Qed.

Lemma of_int_nonneg a : (0 <= a)%Z -> 0 <= of_int a.
Proof. intros H. apply (of_int_le 0 a H). Qed.

Lemma add_le_l a b c : a <= b -> add a c <= add b c.
Proof. intros H. apply round53_le. lra. Qed.

Lemma sub_le_l a b c : a <= b -> sub a c <= sub b c.
Proof. intros H. apply round53_le. lra. Qed.

Lemma mul_le_l a b c : 0 <= c -> a <= b -> mul a c <= mul b c.
Proof. intros Hc H. apply round53_le. apply Qmult_le_compat_r; assumption. Qed.

Lemma mul_le_r a b c : 0 <= c -> a <= b -> mul c a <= mul c b.
Proof.
intros Hc H. apply round53_le.
rewrite (Qmult_comm c a), (Qmult_comm c b). apply Qmult_le_compat_r; assumption.
Qed.

Lemma mul_nonneg a b : 0 <= a -> 0 <= b -> 0 <= mul a b.
Proof. intros Ha Hb. apply round53_nonneg. apply Qmult_le_0_compat; assumption. Qed.

Lemma mul_nonpos_l a b : a <= 0 -> 0 <= b -> mul a b <= 0.
Proof.
intros Ha Hb. apply round53_nonpos.
setoid_replace 0 with (0 * b) by ring. apply Qmult_le_compat_r; assumption.
Qed.

Lemma mul_nonpos_r a b : 0 <= a -> b <= 0 -> mul a b <= 0.
Proof.
intros Ha Hb. apply round53_nonpos. rewrite Qmult_comm.
setoid_replace 0 with (0 * a) by ring. apply Qmult_le_compat_r; assumption.
Qed.

Lemma div_le_l a b c : 0 < c -> a <= b -> div a c <= div b c.
Proof.
intros Hc H. apply round53_le. unfold Qdiv.
apply Qmult_le_compat_r; [assumption|].
apply Qlt_le_weak, Qinv_lt_0_compat, Hc.
Qed.

Lemma div_nonneg a c : 0 <= a -> 0 < c -> 0 <= div a c.
Proof.
intros Ha Hc. apply round53_nonneg.
apply Qle_shift_div_l; [assumption|]. lra.
Qed.

Lemma div_nonpos a c : a <= 0 -> 0 < c -> div a c <= 0.
Proof.
intros Ha Hc. apply round53_nonpos.
apply Qle_shift_div_r; [assumption|]. lra.
Qed.

(** Truncation toward zero is monotone and keeps a value between two
  integers of opposite signs between them. *)

Lemma trunc_le a b :
  a <= b ->
  ((if Qle_bool 0 a then Qfloor a else Qceiling a)
   <= (if Qle_bool 0 b then Qfloor b else Qceiling b))%Z.
Proof.
intros H.
destruct (Qle_bool 0 a) eqn:Ea; destruct (Qle_bool 0 b) eqn:Eb.
- apply Qfloor_resp_le, H.
- rewrite Qle_bool_iff in Ea.
  assert (~ 0 <= b) by (rewrite <- Qle_bool_iff; congruence). exfalso; lra.
- assert (Na : ~ 0 <= a) by (rewrite <- Qle_bool_iff; congruence).
  rewrite Qle_bool_iff in Eb.
  assert (Qceiling a <= 0)%Z.
  { change 0%Z with (Qceiling 0). apply Qceiling_resp_le. lra. }
  assert (0 <= Qfloor b)%Z.
  { change 0%Z with (Qfloor 0). apply Qfloor_resp_le. exact Eb. }
  lia.
- apply Qceiling_resp_le, H.
Qed.

Lemma trunc_lower (n : Z) a :
  (n <= 0)%Z -> inject_Z (n - 1) < a ->
  (n <= (if Qle_bool 0 a then Qfloor a else Qceiling a))%Z.
Proof.
intros Hn H. destruct (Qle_bool 0 a) eqn:Ea.
- rewrite Qle_bool_iff in Ea.
  assert (0 <= Qfloor a)%Z by (change 0%Z with (Qfloor 0); apply Qfloor_resp_le, Ea).
  lia.
- assert (C := Qle_ceiling a).
  assert (X : inject_Z (n - 1) < inject_Z (Qceiling a)) by lra.
  rewrite <- Zlt_Qlt in X. lia.
Qed.

Lemma trunc_upper (n : Z) a :
  (0 <= n)%Z -> a < inject_Z (n + 1) ->
  ((if Qle_bool 0 a then Qfloor a else Qceiling a) <= n)%Z.
Proof.
intros Hn H. destruct (Qle_bool 0 a) eqn:Ea.
- assert (F := Qfloor_le a).
  assert (X : inject_Z (Qfloor a) < inject_Z (n + 1)) by lra.
  rewrite <- Zlt_Qlt in X. lia.
- assert (Na : ~ 0 <= a) by (rewrite <- Qle_bool_iff; congruence).
  assert (Qceiling a <= 0)%Z.
  { change 0%Z with (Qceiling 0). apply Qceiling_resp_le. lra. }
  lia.
Qed.

Lemma ltb_true a b : ltb a b = true -> a < b.
Proof.
unfold ltb. intros H. apply Qnot_le_lt. intros X.
rewrite <- Qle_bool_iff in X. rewrite X in H. discriminate.
Qed.

Lemma ltb_false a b : ltb a b = false -> b <= a.
Proof.
unfold ltb. intros H. apply Qle_bool_iff.
destruct (Qle_bool b a); [reflexivity | discriminate].
Qed.

Lemma ltb_lt a b : a < b -> ltb a b = true.
Proof.
intros H. destruct (ltb a b) eqn:E; [reflexivity|].
apply ltb_false in E. lra.
Qed.

(** The conversion to [int]. *)

Lemma fits_int_true a :
  fits_int a = true -> inject_Z (INT_MIN - 1) < a /\ a < inject_Z (INT_MAX + 1).
Proof.
unfold fits_int. intros H. apply andb_prop in H. destruct H as [L U].
split; apply ltb_true; assumption.
Qed.

Lemma fits_int_lt a :
  inject_Z (INT_MIN - 1) < a -> a < inject_Z (INT_MAX + 1) -> fits_int a = true.
Proof.
intros L U. unfold fits_int. rewrite (ltb_lt _ _ L), (ltb_lt _ _ U). reflexivity.
Qed.

Lemma fits_int_false a :
  fits_int a = false -> a <= inject_Z (INT_MIN - 1) \/ inject_Z (INT_MAX + 1) <= a.
Proof.
unfold fits_int. intros H. apply andb_false_elim in H.
destruct H as [H|H]; apply ltb_false in H; [left|right]; exact H.
Qed.

Lemma to_int_range a : (INT_MIN <= to_int a <= INT_MAX)%Z.
Proof.
unfold to_int. destruct (fits_int a) eqn:F; [|unfold INT_MIN, INT_MAX; lia].
apply fits_int_true in F. destruct F as [L U]. split.
- apply trunc_lower; [unfold INT_MIN; lia|exact L].
- apply trunc_upper; [unfold INT_MAX; lia|exact U].
Qed.

(** The conversion is monotone up to the first value that is too large
  for an [int]. *)
Lemma to_int_le a b :
  a <= b -> b < inject_Z (INT_MAX + 1) -> (to_int a <= to_int b)%Z.
Proof.
intros H U. unfold to_int.
destruct (fits_int b) eqn:Fb.
- destruct (fits_int a) eqn:Fa; [apply trunc_le, H|].
  apply fits_int_true in Fb. destruct Fb as [Lb _].
  apply trunc_lower; [unfold INT_MIN; lia|exact Lb].
- apply fits_int_false in Fb. destruct Fb as [Lb|Ub]; [|lra].
  destruct (fits_int a) eqn:Fa; [|lia].
  apply fits_int_true in Fa. lra.
Qed.

Lemma to_int_fits_le a b :
  a <= b -> fits_int b = true -> (to_int a <= to_int b)%Z.
Proof.
intros H F. apply to_int_le; [exact H|]. apply fits_int_true in F. apply F.
Qed.

(** The literals of [computeDamage]: 1.0, 20.0, 100.0 and 0.5 are
  representable, 0.45 and 1.08 are rounded. *)

Lemma literal_1 : literal 1 == 1.
Proof. vm_compute. reflexivity. Qed.

Lemma literal_20 : literal 20 == 20.
Proof. vm_compute. reflexivity. Qed.

Lemma literal_100 : literal 100 == 100.
Proof. vm_compute. reflexivity. Qed.

Lemma literal_half : literal (1 # 2) == 1 # 2.
Proof. vm_compute. reflexivity. Qed.

Lemma literal_045 : literal (45 # 100) == 8106479329266893 # (2 ^ 54).
Proof. vm_compute. reflexivity. Qed.

Lemma literal_108 : literal (108 # 100) == 4863887597560136 # (2 ^ 52).
Proof. vm_compute. reflexivity. Qed.

End DoubleFacts.

(** ** Randomness *)

Lemma wrap_small (z : Z) : -2147483648 <= z <= 2147483647 -> wrap z = z.
Proof.
  intros H. unfold wrap. rewrite Z.mod_small by lia. lia.
Qed.

Lemma wrap_range (z : Z) : INT_MIN <= wrap z <= INT_MAX.
Proof.
  unfold wrap, INT_MIN, INT_MAX.
  assert (M := Z.mod_pos_bound (z + 2147483648) 4294967296 ltac:(lia)). lia.
Qed.

Lemma rand_range (w : World) : 0 <= fst (rand w) <= 2147483647.
Proof.
  unfold rand, RAND_MAX. cbn [fst].
  assert (M := Z.mod_pos_bound (Z.of_N (randSeq w (randPos w))) (2147483647 + 1) ltac:(lia)).
  lia.
Qed.

(** [randInt(a, b)] is between [a] and [b] when [a], [b] and the number
    [b - a + 1] of values asked for are [int]s. *)
Lemma randInt_range (a b : Z) (w : World) :
  -2147483648 <= a <= b /\ b <= 2147483647 /\ b - a < 2147483647 ->
  a <= fst (randInt a b w) <= b.
Proof.
  intros (H1 & H2 & H3). unfold randInt.
  assert (R := rand_range w). destruct (rand w) as [r w']. cbn [fst] in *.
  rewrite (wrap_small (b - a + 1)) by lia.
  assert (M := Z.rem_bound_pos r (b - a + 1) ltac:(lia) ltac:(lia)).
  rewrite wrap_small by lia. lia.
Qed.

(** [randInt(0, n - 1)] for the number [n] of elements of a vector:
    an index into the vector. *)
Lemma randInt_index (n : Z) (w : World) :
  1 <= n -> 0 <= fst (randInt 0 (n - 1) w) <= n - 1.
Proof.
  intros Hn. unfold randInt.
  assert (R := rand_range w). destruct (rand w) as [r w']. cbn [fst] in *.
  replace (n - 1 - 0 + 1) with n by ring.
  assert (B : 0 <= Z.rem r (wrap n) <= r).
  { destruct (Z.eq_dec (wrap n) 0) as [E|E].
    - rewrite (Z.rem_0_r_ext r _ E). lia.
    - split; [apply Z.rem_nonneg; lia|].
      rewrite <- Z.rem_abs_r by exact E. apply Z.rem_le; lia. }
  rewrite wrap_small by lia.
  destruct (Z_le_gt_dec n 2147483647) as [S|L].
  - rewrite (wrap_small n) in * by lia.
    assert (M := Z.rem_bound_pos r n ltac:(lia) ltac:(lia)). lia.
  - lia.
Qed.

Lemma randInt_world (a b : Z) (w : World) :
  snd (randInt a b w)
  = mkWorld (randSeq w) (S (randPos w)) (touchSeq w) (touchPos w) (lcd w).
Proof. reflexivity. Qed.

(** ** The damage model *)

(** Line 367: [if (dmg < MIN_DAMAGE) dmg = MIN_DAMAGE;] *)

Lemma min_damage_le (a b : Z) :
  a <= b ->
  (if a <? MIN_DAMAGE then MIN_DAMAGE else a) <= (if b <? MIN_DAMAGE then MIN_DAMAGE else b).
Proof.
  unfold MIN_DAMAGE. intros H.
  destruct (Z.ltb_spec a 1); destruct (Z.ltb_spec b 1); lia.
Qed.

Lemma min_damage_nonpos (a : Z) :
  a <= 0 -> (if a <? MIN_DAMAGE then MIN_DAMAGE else a) = 1.
Proof. unfold MIN_DAMAGE. intros H. destruct (Z.ltb_spec a 1); lia. Qed.

Section Damage.

Import DoubleFacts.

Lemma computeDamage_stages g att def m w :
  fst (computeDamage g att def m w)
  = finishDamage (difficulty g =? 1) (fst (randInt 85 100 w))
      (Double.mul (clampedBase (Pokemon.attack att) (Pokemon.defense def))
         (Double.div (Double.of_int (Move.power m)) (Double.literal 20))).
Proof.
  unfold computeDamage, finishDamage, castOperand, clampedBase.
  destruct (randInt 85 100 w) as [r w'] eqn:E. cbn [fst].
  reflexivity.
Qed.

(** [damageOperand] is the [double] that [computeDamage] converts. *)
Lemma computeDamage_converts g att def m w :
  fst (computeDamage g att def m w)
  = (if Double.to_int (damageOperand g att def m w) <? MIN_DAMAGE then MIN_DAMAGE
     else Double.to_int (damageOperand g att def m w)).
Proof. rewrite computeDamage_stages. reflexivity. Qed.

Lemma variance_nonneg r : 85 <= r -> (0 <= Double.div (Double.of_int r) (Double.literal 100))%Q.
Proof.
  intros H. apply div_nonneg.
  - apply of_int_nonneg. lia.
  - rewrite literal_100. reflexivity.
Qed.

Lemma castOperand_le hard r x y :
  85 <= r -> (x <= y)%Q -> (castOperand hard r x <= castOperand hard r y)%Q.
Proof.
  intros Hr H. unfold castOperand.
  assert (M := variance_nonneg r Hr).
  set (mult := Double.div (Double.of_int r) (Double.literal 100)) in *.
  assert (H1 : ((if hard then Double.mul x (Double.literal (108 # 100)) else x)
                <= (if hard then Double.mul y (Double.literal (108 # 100)) else y))%Q).
  { destruct hard; [|exact H]. apply mul_le_l; [|exact H].
    rewrite literal_108. discriminate. }
  exact (add_le_l _ _ (Double.literal (1 # 2)) (mul_le_l _ _ _ M H1)).
Qed.

Lemma castOperand_nonpos hard r x :
  85 <= r -> (x <= 0)%Q -> (castOperand hard r x <= 1 # 2)%Q.
Proof.
  intros Hr H. unfold castOperand.
  assert (M := variance_nonneg r Hr).
  set (mult := Double.div (Double.of_int r) (Double.literal 100)) in *.
  assert (H1 : ((if hard then Double.mul x (Double.literal (108 # 100)) else x) <= 0)%Q).
  { destruct hard; [|exact H]. apply mul_nonpos_l; [exact H|].
    rewrite literal_108. discriminate. }
  set (x1 := if hard then _ else x) in *.
  assert (H2 : (Double.mul x1 mult <= 0)%Q) by (apply mul_nonpos_l; assumption).
  assert (H3 : (Double.add (Double.mul x1 mult) (Double.literal (1 # 2)) <= 1 # 2)%Q).
  { rewrite <- literal_half at 2. unfold Double.literal at 2.
    apply round53_le. rewrite literal_half. lra. }
  exact H3.
Qed.

(** The damage grows with the product [base * (m.power / 20.0)] as long
    as the larger damage is converted inside [int]. *)
Lemma finishDamage_le hard r x y :
  85 <= r -> (x <= y)%Q ->
  Double.fits_int (castOperand hard r y) = true ->
  finishDamage hard r x <= finishDamage hard r y.
Proof.
  intros Hr H F. unfold finishDamage.
  apply min_damage_le, to_int_fits_le; [|exact F].
  apply castOperand_le; assumption.
Qed.

Lemma finishDamage_nonpos hard r x :
  85 <= r -> (x <= 0)%Q -> finishDamage hard r x = 1.
Proof.
  intros Hr H. unfold finishDamage.
  assert (H3 := castOperand_nonpos hard r x Hr H).
  apply to_int_le in H3; [|reflexivity].
  change (Double.to_int (1 # 2)) with 0 in H3.
  apply min_damage_nonpos, H3.
Qed.

Lemma clampedBase_nonneg a d : (0 <= clampedBase a d)%Q.
Proof.
  unfold clampedBase.
  destruct (Double.ltb _ _) eqn:E.
  - rewrite literal_1. discriminate.
  - apply ltb_false in E. rewrite literal_1 in E. lra.
Qed.

Lemma clampedBase_le a a' d : a <= a' -> (clampedBase a d <= clampedBase a' d)%Q.
Proof.
  intros H. unfold clampedBase.
  assert (B := sub_le_l _ _ (Double.mul (Double.of_int d) (Double.literal (45 # 100)))
                 (of_int_le a a' H)).
  set (b := Double.sub (Double.of_int a) _) in *.
  set (b' := Double.sub (Double.of_int a') _) in *.
  destruct (Double.ltb b _) eqn:E; destruct (Double.ltb b' _) eqn:E'.
  - apply Qle_refl.
  - apply ltb_false in E'. exact E'.
  - apply ltb_false in E. apply ltb_true in E'. lra.
  - exact B.
Qed.

(** C6.  Whatever the two combatants, the move, the difficulty and the
    value drawn from the random source, [computeDamage] returns an
    integer that is at least 1 (in particular for every move of power
    [>= 0]). *)
Theorem computeDamage_at_least_1 :
  forall (g : Game) (att def : Pokemon.t) (m : Move.t) (w : World),
    1 <= fst (computeDamage g att def m w).
Proof.
  intros. unfold computeDamage.
  destruct (randInt 85 100 w) as [r w']. cbn [fst]. unfold MIN_DAMAGE.
  match goal with |- 1 <= (if ?c then _ else _) => destruct c eqn:E end; lia.
Qed.

(** C8.  With the same random source (hence the same variance draw), the
    same defender and the same difficulty, the damage does not decrease
    when the power of the move grows, nor when the attack stat of the
    attacker grows, as long as the larger of the two damages is converted
    to [int] inside the range of [int] (line 366; outside that range the
    conversion is undefined, and the damage comes out as 1). *)
Theorem computeDamage_monotone :
  forall (g : Game) (def : Pokemon.t) (w : World),
    (forall (att : Pokemon.t) (m m' : Move.t),
        Move.power m <= Move.power m' ->
        damageInRange g att def m' w = true ->
        fst (computeDamage g att def m w) <= fst (computeDamage g att def m' w))
    /\
    (forall (att att' : Pokemon.t) (m : Move.t),
        Pokemon.attack att <= Pokemon.attack att' ->
        damageInRange g att' def m w = true ->
        fst (computeDamage g att def m w) <= fst (computeDamage g att' def m w)).
Proof.
  intros g def w.
  assert (Hr : 85 <= fst (randInt 85 100 w)) by (apply randInt_range; lia).
  assert (P20 : (0 < Double.literal 20)%Q) by (rewrite literal_20; reflexivity).
  split.
  - intros att m m' H F. rewrite !computeDamage_stages.
    apply finishDamage_le; [exact Hr| |exact F].
    apply mul_le_r; [apply clampedBase_nonneg|].
    apply div_le_l; [exact P20|]. apply of_int_le, H.
  - intros att att' m H F. rewrite !computeDamage_stages.
    destruct (Z.le_gt_cases 0 (Move.power m)) as [Hp|Hp].
    + apply finishDamage_le; [exact Hr| |exact F].
      apply mul_le_l; [|apply clampedBase_le, H].
      apply div_nonneg; [|exact P20]. apply of_int_nonneg, Hp.
    + assert (Q : (Double.div (Double.of_int (Move.power m)) (Double.literal 20) <= 0)%Q).
      { apply div_nonpos; [|exact P20].
        apply (of_int_le (Move.power m) 0). lia. }
      rewrite !finishDamage_nonpos; try lia; try exact Hr;
        apply mul_nonpos_r; try exact Q; apply clampedBase_nonneg.
Qed.

End Damage.

(** The two scenarios of the specification: attack 11 against defense 6
    with a move of power 40 and the variance at 100 percent. *)
Example scenario_easy :
  fst (computeDamage (sampleGame 0) pikachu pikachu
         (Move.mk "Thunder" 40 95 15) (worldOf [15%N] [])) = 17.
Proof. vm_compute. reflexivity. Qed.

Example scenario_hard :
  fst (computeDamage (sampleGame 1) pikachu pikachu
         (Move.mk "Thunder" 40 95 15) (worldOf [15%N] [])) = 18.
Proof. vm_compute. reflexivity. Qed.

(** For every attacker, defender and move of the roster, both
    difficulties and every variance, the rational model of the doubles
    yields the damage that IEEE-754 binary64 arithmetic yields. *)
Lemma bank_damage_is_binary64 : bankDamageAgrees = true.
Proof. vm_compute. reflexivity. Qed.

(** ** The sample match is one that [assignPlayers] deals *)

Example sampleGame_is_assigned :
  forall (pl : Player.t) (diff : Z),
    Player.wins pl = 0 ->
    fst_opt (assignPlayers 0 (mkGame loadBank pl pl 0 0 0 diff)
               (worldOf [0%N; 0%N; 1%N] []))
    = Some (sampleGame diff).
Proof.
  intros pl diff W. unfold assignPlayers, fst_opt, sampleGame, seat1, seat2.
  cbn. rewrite W. reflexivity.
Qed.

(** ** Lists of moves *)

Lemma nth_error_updateAt_same {A : Type} (f : A -> A) (l : list A) (i : nat) :
  nth_error (updateAt i f l) i = option_map f (nth_error l i).
Proof.
  revert i. induction l as [|a l IH]; intros [|i]; cbn; try reflexivity. apply IH.
Qed.

Lemma nth_error_updateAt_other {A : Type} (f : A -> A) (l : list A) (i j : nat) :
  i <> j -> nth_error (updateAt i f l) j = nth_error l j.
Proof.
  revert i j. induction l as [|a l IH]; intros [|i] [|j] H; cbn; try reflexivity.
  - congruence.
  - apply IH. congruence.
Qed.

Lemma length_updateAt {A : Type} (f : A -> A) (l : list A) (i : nat) :
  List.length (updateAt i f l) = List.length l.
Proof.
  revert i. induction l as [|a l IH]; intros [|i]; cbn; try reflexivity.
  f_equal. apply IH.
Qed.

Lemma moveAt_Some (ms : list Move.t) (i : Z) (m : Move.t) :
  moveAt ms i = Some m ->
  0 <= i < Z.of_nat (List.length ms) /\ nth_error ms (Z.to_nat i) = Some m.
Proof.
  unfold moveAt. destruct (Z.ltb_spec i 0); [discriminate|].
  intros E. split; [|exact E].
  assert (L : (Z.to_nat i < List.length ms)%nat).
  { apply nth_error_Some. congruence. }
  lia.
Qed.

Lemma moveAt_in_range (ms : list Move.t) (i : Z) :
  0 <= i < Z.of_nat (List.length ms) -> exists m, moveAt ms i = Some m.
Proof.
  intros H. unfold moveAt. destruct (Z.ltb_spec i 0); [lia|].
  destruct (nth_error ms (Z.to_nat i)) eqn:E; [eauto|].
  apply nth_error_None in E. lia.
Qed.

(** ** Getters and setters of the two seats *)

Lemma getPkmn_setPkmn_same (s : bool) (pk : Pokemon.t) (g : Game) :
  getPkmn s (setPkmn s pk g) = pk.
Proof. destruct s; reflexivity. Qed.

Lemma getPlayer_setPkmn_other (s : bool) (pk : Pokemon.t) (g : Game) :
  getPlayer (negb s) (setPkmn s pk g) = getPlayer (negb s) g.
Proof. destruct s; reflexivity. Qed.

Lemma getPkmn_setPkmn_other (s : bool) (pk : Pokemon.t) (g : Game) :
  getPkmn (negb s) (setPkmn s pk g) = getPkmn (negb s) g.
Proof. destruct s; reflexivity. Qed.

Lemma stats_setPkmn (s : bool) (pk : Pokemon.t) (g : Game) :
  gamesPlayed (setPkmn s pk g) = gamesPlayed g
  /\ humanWins (setPkmn s pk g) = humanWins g
  /\ cpuWins (setPkmn s pk g) = cpuWins g
  /\ difficulty (setPkmn s pk g) = difficulty g.
Proof. destruct s; repeat split. Qed.

(** ** [Pokemon::reset] and the rematch *)

Lemma reset_moves_nth (p : Pokemon.t) (i : nat) :
  nth_error (Pokemon.moves (Pokemon.reset p)) i
  = option_map (fun m => if Move.pp m <? 0 then Move.setPP 0 m else m)
      (nth_error (Pokemon.moves p) i).
Proof. unfold Pokemon.reset. cbn [Pokemon.moves]. apply nth_error_map. Qed.

Lemma getPkmn_resetBoth (s : bool) (g : Game) :
  getPkmn s (resetBoth g) = Pokemon.reset (getPkmn s g).
Proof. destruct s; reflexivity. Qed.

(** After a match that the player asks to replay, the next match starts
    from the state the previous one ended in, both combatants reset. *)
Lemma playMatches_rematch (matches fuel : nat) (g g' : Game) (w w' : World) :
  runMatch fuel g w = Some (Returned true g', w') ->
  playMatches (S matches) fuel g w
  = playMatches matches fuel (resetBoth g') (WriteLine "Restarting match..." w').
Proof. intros R. cbn [playMatches]. rewrite R. reflexivity. Qed.

(** C10.  [reset()] restores the health to the maximum and clears the
    defending flag; name, stats and position are untouched; the moves keep
    their number, order, names, powers and accuracies, a negative PP
    becomes 0 and a move whose PP is not negative is left exactly as it
    was.  The rematch of [mainMenuLoop] does nothing but reset the two
    combatants ([playMatches_rematch]), so each move enters the next match
    with the PP it had at the end of the previous one. *)
Theorem reset_only_restores_health :
  forall p : Pokemon.t,
    let p' := Pokemon.reset p in
    Pokemon.hp p' = Pokemon.maxHP p
    /\ Pokemon.defending p' = false
    /\ (Pokemon.name p' = Pokemon.name p
        /\ Pokemon.maxHP p' = Pokemon.maxHP p
        /\ Pokemon.attack p' = Pokemon.attack p
        /\ Pokemon.defense p' = Pokemon.defense p
        /\ Pokemon.x p' = Pokemon.x p /\ Pokemon.y p' = Pokemon.y p
        /\ Pokemon.w p' = Pokemon.w p /\ Pokemon.h p' = Pokemon.h p)
    /\ List.length (Pokemon.moves p') = List.length (Pokemon.moves p)
    /\ (forall (i : nat) (m : Move.t),
          nth_error (Pokemon.moves p) i = Some m ->
          exists m',
            nth_error (Pokemon.moves p') i = Some m'
            /\ Move.name m' = Move.name m
            /\ Move.power m' = Move.power m
            /\ Move.accuracy m' = Move.accuracy m
            /\ Move.pp m' = Z.max 0 (Move.pp m)
            /\ (0 <= Move.pp m -> m' = m))
    /\ (forall (g : Game) (s : bool) (i : nat) (m : Move.t),
          nth_error (Pokemon.moves (getPkmn s g)) i = Some m ->
          0 <= Move.pp m ->
          nth_error (Pokemon.moves (getPkmn s (resetBoth g))) i = Some m).
Proof.
  intros p p'. subst p'.
  split; [reflexivity|]. split; [reflexivity|].
  split; [repeat split|].
  split; [apply length_map|].
  split.
  - intros i m E. rewrite reset_moves_nth, E. cbn [option_map].
    destruct (Z.ltb_spec (Move.pp m) 0) as [Hneg|Hpos].
    + exists (Move.setPP 0 m). cbn. repeat split; lia.
    + exists m. repeat split. lia.
  - intros g s i m E Hpp.
    rewrite getPkmn_resetBoth, reset_moves_nth, E. cbn [option_map].
    destruct (Z.ltb_spec (Move.pp m) 0); [lia|reflexivity].
Qed.

(** ** Taking a hit *)

(** The hit block on amounts and healths for which its arithmetic stays
    inside [int]. *)
Lemma applyDamage_spec (dmg : Z) (t : Pokemon.t) :
  0 <= dmg <= 2147483647 ->
  (Pokemon.defending t = true -> dmg < 2147483647) ->
  0 <= Pokemon.hp t <= 2147483647 ->
  let taken := if Pokemon.defending t then (dmg + 1) / 2 else dmg in
  applyDamage dmg t
  = (taken,
     Pokemon.setHp (Z.max 0 (Pokemon.hp t - taken))
       (if Pokemon.defending t then Pokemon.setDefending false t else t)).
Proof.
  intros Hd Hf Hh taken. subst taken. unfold applyDamage.
  destruct (Pokemon.defending t) eqn:E.
  - specialize (Hf eq_refl).
    rewrite (wrap_small (dmg + 1)) by lia.
    rewrite Z.quot_div_nonneg by lia.
    assert (D : 0 <= (dmg + 1) / 2 <= dmg).
    { assert (X := Z.div_mod (dmg + 1) 2 ltac:(lia)).
      assert (Y := Z.mod_pos_bound (dmg + 1) 2 ltac:(lia)). lia. }
    cbn [Pokemon.setDefending Pokemon.hp].
    rewrite wrap_small by lia.
    destruct (Z.ltb_spec (Pokemon.hp t - (dmg + 1) / 2) 0);
      [rewrite Z.max_l by lia | rewrite Z.max_r by lia]; reflexivity.
  - rewrite wrap_small by lia.
    destruct (Z.ltb_spec (Pokemon.hp t - dmg) 0);
      [rewrite Z.max_l by lia | rewrite Z.max_r by lia]; reflexivity.
Qed.

(** C5.  A hit of an amount between 0 and [INT_MAX] (below [INT_MAX] on a
    defending target, so that [amount + 1] is an [int]) on a combatant
    whose health lies between 0 and its maximum leaves the health between
    0 and the maximum.  A defending target loses [(amount + 1) / 2] instead
    of [amount] and stops defending; the hit after that one is taken in
    full. *)
Theorem applyDamage_clamps_and_halves_once :
  forall (amount : Z) (t : Pokemon.t),
    0 <= amount <= INT_MAX ->
    (Pokemon.defending t = true -> amount < INT_MAX) ->
    0 <= Pokemon.hp t <= Pokemon.maxHP t ->
    Pokemon.maxHP t <= INT_MAX ->
    let taken := fst (applyDamage amount t) in
    let t' := snd (applyDamage amount t) in
    0 <= Pokemon.hp t' <= Pokemon.maxHP t'
    /\ Pokemon.maxHP t' = Pokemon.maxHP t
    /\ taken = (if Pokemon.defending t then (amount + 1) / 2 else amount)
    /\ Pokemon.hp t' = Z.max 0 (Pokemon.hp t - taken)
    /\ Pokemon.defending t' = false
    /\ (forall amount' : Z, fst (applyDamage amount' t') = amount').
Proof.
  intros amount t Ha Hf Hhp Hm taken t'. subst taken t'. unfold INT_MAX in *.
  rewrite applyDamage_spec by (try assumption; lia). cbn [fst snd].
  assert (D : 0 <= (amount + 1) / 2) by (apply Z.div_pos; lia).
  unfold applyDamage.
  destruct (Pokemon.defending t) eqn:E; cbn; rewrite ?E; repeat split; lia.
Qed.

(** ** The end of a match *)

Lemma battleLoop_Fainted (fuel : nat) :
  forall (g : Game) (p1Turn : bool) (w : World) (g' : Game) (w' : World),
    battleLoop fuel g p1Turn w = Some (Fainted g', w') ->
    Pokemon.fainted (Player.pkmn (p1 g')) || Pokemon.fainted (Player.pkmn (p2 g')) = true.
Proof.
  induction fuel as [|fuel IH]; intros g p1Turn w g' w'; cbn [battleLoop];
    destruct (Pokemon.fainted (Player.pkmn (p1 g))) eqn:F1;
    destruct (Pokemon.fainted (Player.pkmn (p2 g))) eqn:F2; cbn [negb andb];
    try (intros E; inversion E; subst; rewrite F1, ?F2; reflexivity);
    try discriminate.
  destruct (turn g p1Turn w) as [[g1 t1| g1 |] w1]; try discriminate.
  apply IH.
Qed.


(** ** Retreat *)



(** ** A move without PP *)

Lemma clearOwnDefend_frame (g : Game) (p1Turn : bool) (mv : Move.t) :
  let g' := clearOwnDefend g p1Turn mv in
  getPlayer (negb p1Turn) g' = getPlayer (negb p1Turn) g
  /\ Pokemon.hp (getPkmn p1Turn g') = Pokemon.hp (getPkmn p1Turn g)
  /\ Pokemon.moves (getPkmn p1Turn g') = Pokemon.moves (getPkmn p1Turn g)
  /\ Pokemon.defending (getPkmn p1Turn g')
     = Pokemon.defending (getPkmn p1Turn g) && (Move.power mv <=? 0)
  /\ gamesPlayed g' = gamesPlayed g
  /\ humanWins g' = humanWins g
  /\ cpuWins g' = cpuWins g.
Proof.
  unfold clearOwnDefend.
  destruct (Pokemon.defending (getPkmn p1Turn g)) eqn:D; cbn [andb].
  - destruct (Z.gtb_spec (Move.power mv) 0) as [P|P];
      destruct (Z.leb_spec (Move.power mv) 0); try lia.
    + cbn zeta. rewrite getPkmn_setPkmn_same, getPlayer_setPkmn_other.
      destruct p1Turn; repeat split.
    + cbn zeta. rewrite D. repeat split.
  - cbn zeta. rewrite D. repeat split.
Qed.

(** Processing a move that [resolveMove] resolves. *)
Lemma processAction_resolved (g : Game) (s : bool) (chosen : Z) (mv : Move.t)
    (w : World) (g1 : Game) (w1 : World) :
  chosen <> 3 -> chosen <> -1 ->
  moveAt (Pokemon.moves (getPkmn s g)) (moveIndex (Pokemon.moves (getPkmn s g)) chosen)
  = Some mv ->
  resolveMove g s chosen (moveIndex (Pokemon.moves (getPkmn s g)) chosen) mv w
  = Some (g1, w1) ->
  processAction g s chosen w = (Again (clearOwnDefend g1 s mv) (negb s), w1).
Proof.
  intros N3 N1 M R. unfold processAction.
  destruct (Z.eqb_spec chosen 3); [contradiction|].
  destruct (Z.eqb_spec chosen (-1)); [contradiction|]. cbn [negb].
  rewrite M, R. reflexivity.
Qed.

Lemma resolveMove_no_pp (g : Game) (s : bool) (chosen i : Z) (mv : Move.t) (w : World) :
  Move.pp mv <= 0 ->
  resolveMove g s chosen i mv w = Some (g, WriteLine "No PP left for that move." w).
Proof.
  intros PP. unfold resolveMove.
  destruct (Z.leb_spec (Move.pp mv) 0); [|lia].
  destruct (Move.power mv =? 0); reflexivity.
Qed.

(** C1, as the code has it.  When the selected move has no PP left, the
    engine writes "No PP left for that move." and changes neither health
    nor PP nor anything of the other seat nor any counter; when the move
    is a utility move the game is exactly what it was; and the turn passes
    to the other seat: the actor is not asked again. *)
Theorem no_pp_is_reported_and_turn_passes :
  forall (g : Game) (p1Turn : bool) (chosen : Z) (mv : Move.t) (w : World),
    chosen <> 3 -> chosen <> -1 ->
    moveAt (Pokemon.moves (getPkmn p1Turn g))
           (moveIndex (Pokemon.moves (getPkmn p1Turn g)) chosen) = Some mv ->
    Move.pp mv <= 0 ->
    exists g' : Game,
      processAction g p1Turn chosen w
      = (Again g' (negb p1Turn), WriteLine "No PP left for that move." w)
      /\ getPlayer (negb p1Turn) g' = getPlayer (negb p1Turn) g
      /\ Pokemon.hp (getPkmn p1Turn g') = Pokemon.hp (getPkmn p1Turn g)
      /\ Pokemon.moves (getPkmn p1Turn g') = Pokemon.moves (getPkmn p1Turn g)
      /\ gamesPlayed g' = gamesPlayed g
      /\ humanWins g' = humanWins g
      /\ cpuWins g' = cpuWins g
      /\ (Move.power mv = 0 -> g' = g).
Proof.
  intros g p1Turn chosen mv w N3 N1 M PP.
  exists (clearOwnDefend g p1Turn mv).
  split.
  { apply processAction_resolved; try assumption. apply resolveMove_no_pp, PP. }
  destruct (clearOwnDefend_frame g p1Turn mv) as (F1 & F2 & F3 & _ & F5 & F6 & F7).
  repeat split; try assumption.
  intros P. unfold clearOwnDefend. rewrite P. cbn [Z.gtb Z.compare].
  rewrite andb_false_r. reflexivity.
Qed.

(** ** PP and the accuracy roll *)

Lemma moves_decrementPP (s : bool) (i : Z) (g : Game) :
  Pokemon.moves (getPkmn s (decrementPP s i g))
  = updateAt (Z.to_nat i) (fun m => Move.setPP (Move.pp m - 1) m)
      (Pokemon.moves (getPkmn s g)).
Proof. unfold decrementPP. rewrite getPkmn_setPkmn_same. reflexivity. Qed.

Lemma moves_clearOwnDefend (g : Game) (s : bool) (mv : Move.t) :
  Pokemon.moves (getPkmn s (clearOwnDefend g s mv)) = Pokemon.moves (getPkmn s g).
Proof. apply clearOwnDefend_frame. Qed.

Lemma moves_setPkmn_other (s : bool) (pk : Pokemon.t) (g : Game) :
  Pokemon.moves (getPkmn s (setPkmn (negb s) pk g)) = Pokemon.moves (getPkmn s g).
Proof. destruct s; reflexivity. Qed.

(** What [mv.pp--] makes of the move list: the move at [i] has one PP
    less and is otherwise the same, every other move is untouched. *)
Lemma moves_after_decrement (ms : list Move.t) (i : Z) (mv : Move.t) :
  moveAt ms i = Some mv ->
  let ms' := updateAt (Z.to_nat i) (fun m => Move.setPP (Move.pp m - 1) m) ms in
  List.length ms' = List.length ms
  /\ (exists mv' : Move.t,
        moveAt ms' i = Some mv'
        /\ Move.pp mv' = Move.pp mv - 1
        /\ Move.name mv' = Move.name mv
        /\ Move.power mv' = Move.power mv
        /\ Move.accuracy mv' = Move.accuracy mv)
  /\ (forall j : Z, j <> i -> moveAt ms' j = moveAt ms j).
Proof.
  intros M ms'. subst ms'. destruct (moveAt_Some _ _ _ M) as [Hrange Hnth].
  split; [apply length_updateAt|]. split.
  - exists (Move.setPP (Move.pp mv - 1) mv). split; [|repeat split].
    unfold moveAt. destruct (Z.ltb_spec i 0); [lia|].
    rewrite nth_error_updateAt_same, Hnth. reflexivity.
  - intros j Hj. unfold moveAt. destruct (Z.ltb_spec j 0); [reflexivity|].
    apply nth_error_updateAt_other. lia.
Qed.

Lemma highlightOutside_button (s : bool) (chosen : Z) (a : Pokemon.t) :
  0 <= chosen < 4 -> highlightOutside s chosen a = false.
Proof.
  intros H. unfold highlightOutside.
  destruct (Z.leb_spec 0 chosen); [|lia]. destruct (Z.ltb_spec chosen 4); [|lia].
  cbn [andb negb]. apply andb_false_r.
Qed.

(** The three ways an attack move with PP resolves when a move button
    was chosen. *)
Lemma resolveMove_attack (g : Game) (s : bool) (chosen i : Z) (mv : Move.t) (w : World) :
  0 <= chosen < 4 ->
  Move.power mv <> 0 -> 0 < Move.pp mv ->
  let a := getPkmn s g in
  let t := getPkmn (negb s) g in
  let roll := fst (randInt 1 100 w) in
  let w1 := snd (randInt 1 100 w) in
  resolveMove g s chosen i mv w
  = if roll >? Move.accuracy mv then
      Some (g, WriteLine (Pokemon.name a ++ " used " ++ Move.name mv ++ " but missed!")%string w1)
    else if fireProjectile s a t then
      let dw := computeDamage g a t mv w1 in
      let dt := applyDamage (fst dw) t in
      Some (decrementPP s i (setPkmn (negb s) (snd dt) g),
            WriteLine ("Hit for " ++ to_string (fst dt) ++ " dmg")%string
              (WriteLine (Pokemon.name a ++ " used " ++ Move.name mv ++ "!")%string (snd dw)))
    else
      Some (decrementPP s i g,
            WriteLine (Pokemon.name a ++ " used " ++ Move.name mv ++ " - no hit.")%string w1).
Proof.
  intros C P PP a t roll w1. subst a t roll w1. unfold resolveMove.
  destruct (Z.eqb_spec (Move.power mv) 0); [contradiction|].
  destruct (Z.leb_spec (Move.pp mv) 0); [lia|].
  destruct (randInt 1 100 w) as [roll w1]. cbn [fst snd].
  destruct (roll >? Move.accuracy mv); [reflexivity|].
  rewrite (highlightOutside_button s chosen _ C).
  destruct (fireProjectile s (getPkmn s g) (getPkmn (negb s) g)); [|reflexivity].
  destruct (computeDamage g (getPkmn s g) (getPkmn (negb s) g) mv w1) as [dmg w2].
  cbn [fst snd].
  destruct (applyDamage dmg (getPkmn (negb s) g)) as [dmg' t']. reflexivity.
Qed.

(** C7.  An attack move that still has PP, chosen with one of the move
    buttons, is resolved with a roll in [1, 100].  If the roll does not
    exceed the accuracy of the move, the PP of that move is exactly one
    less afterwards, its name, power and accuracy are what they were and
    no other move changes, whether the projectile is found to hit or not;
    if the roll exceeds the accuracy, the moves of the actor are exactly
    what they were. *)
Theorem attack_spends_pp_unless_missed :
  forall (g : Game) (p1Turn : bool) (chosen : Z) (mv : Move.t) (w : World),
    0 <= chosen < 4 -> chosen <> 3 ->
    let ms := Pokemon.moves (getPkmn p1Turn g) in
    let mIdx := moveIndex ms chosen in
    moveAt ms mIdx = Some mv ->
    Move.power mv <> 0 ->
    0 < Move.pp mv ->
    let roll := fst (randInt 1 100 w) in
    1 <= roll <= 100
    /\ exists (g' : Game) (w' : World),
         processAction g p1Turn chosen w = (Again g' (negb p1Turn), w')
         /\ let ms' := Pokemon.moves (getPkmn p1Turn g') in
            List.length ms' = List.length ms
            /\ (roll <= Move.accuracy mv ->
                (exists mv' : Move.t,
                    moveAt ms' mIdx = Some mv'
                    /\ Move.pp mv' = Move.pp mv - 1
                    /\ Move.name mv' = Move.name mv
                    /\ Move.power mv' = Move.power mv
                    /\ Move.accuracy mv' = Move.accuracy mv)
                /\ (forall j : Z, j <> mIdx -> moveAt ms' j = moveAt ms j))
            /\ (Move.accuracy mv < roll -> ms' = ms).
Proof.
  intros g p1Turn chosen mv w C N3 ms mIdx M P PP roll.
  split; [apply randInt_range; lia|].
  assert (R := resolveMove_attack g p1Turn chosen mIdx mv w C P PP).
  cbn zeta in R. fold roll in R.
  assert (Upd : forall g0,
             Pokemon.moves (getPkmn p1Turn g0) = ms ->
             let ms' := Pokemon.moves (getPkmn p1Turn
                          (clearOwnDefend (decrementPP p1Turn mIdx g0) p1Turn mv)) in
             List.length ms' = List.length ms
             /\ (roll <= Move.accuracy mv ->
                 (exists mv' : Move.t,
                     moveAt ms' mIdx = Some mv'
                     /\ Move.pp mv' = Move.pp mv - 1
                     /\ Move.name mv' = Move.name mv
                     /\ Move.power mv' = Move.power mv
                     /\ Move.accuracy mv' = Move.accuracy mv)
                 /\ (forall j : Z, j <> mIdx -> moveAt ms' j = moveAt ms j))
             /\ (Move.accuracy mv < roll -> ms' = ms) ->
             True).
  { intros. exact I. }
  clear Upd.
  assert (Dec : forall g0,
             Pokemon.moves (getPkmn p1Turn g0) = ms ->
             roll <= Move.accuracy mv ->
             let ms' := Pokemon.moves (getPkmn p1Turn
                          (clearOwnDefend (decrementPP p1Turn mIdx g0) p1Turn mv)) in
             List.length ms' = List.length ms
             /\ (roll <= Move.accuracy mv ->
                 (exists mv' : Move.t,
                     moveAt ms' mIdx = Some mv'
                     /\ Move.pp mv' = Move.pp mv - 1
                     /\ Move.name mv' = Move.name mv
                     /\ Move.power mv' = Move.power mv
                     /\ Move.accuracy mv' = Move.accuracy mv)
                 /\ (forall j : Z, j <> mIdx -> moveAt ms' j = moveAt ms j))
             /\ (Move.accuracy mv < roll -> ms' = ms)).
  { intros g0 E Ok ms'. subst ms'.
    rewrite moves_clearOwnDefend, moves_decrementPP, E.
    destruct (moves_after_decrement ms mIdx mv M) as (L & X & O).
    split; [exact L|]. split; [intros _; split; assumption|]. intros Miss. lia. }
  destruct (Z.gtb_spec roll (Move.accuracy mv)) as [Miss|Ok].
  - eexists. eexists.
    split; [apply (processAction_resolved g p1Turn chosen mv w); try lia;
            [exact M | exact R]|].
    cbn zeta. rewrite moves_clearOwnDefend. fold ms.
    split; [reflexivity|]. split; [intros; lia|]. reflexivity.
  - destruct (fireProjectile p1Turn (getPkmn p1Turn g) (getPkmn (negb p1Turn) g)).
    + eexists. eexists.
      split; [apply (processAction_resolved g p1Turn chosen mv w); try lia;
              [exact M | exact R]|].
      apply Dec; [apply moves_setPkmn_other | exact Ok].
    + eexists. eexists.
      split; [apply (processAction_resolved g p1Turn chosen mv w); try lia;
              [exact M | exact R]|].
      apply Dec; [reflexivity | exact Ok].
Qed.

(** ** The index of the move *)

Lemma buttons_Some (a : Pokemon.t) (btns : list Btn.t) :
  buttons a = Some btns ->
  (3 <= List.length (Pokemon.moves a))%nat
  /\ List.length btns = 4%nat
  /\ (forall b : Btn.t, In b btns -> 0 <= Btn.id b <= 3).
Proof.
  unfold buttons, moveLabel.
  destruct (Pokemon.moves a) as [|m0 [|m1 [|m2 ms]]]; cbn [nth_error]; try discriminate.
  intros E. injection E as <-. split; [cbn; lia|]. split; [reflexivity|].
  intros b HIn. cbn [List.In] in HIn.
  destruct HIn as [<-|[<-|[<-|[<-|[]]]]]; cbn; lia.
Qed.

(** The values that [chosen] holds when line 596 is reached: the id of a
    button. *)
Lemma chooseAction_Chosen (g : Game) (s : bool) (w w1 : World) (c : Z) :
  chooseAction g s w = (Chosen c, w1) ->
  0 <= c <= 3 /\ (3 <= List.length (Pokemon.moves (getPkmn s g)))%nat.
Proof.
  unfold chooseAction. fold (getPkmn s g).
  destruct (buttons (getPkmn s g)) as [btns|] eqn:B; [|discriminate].
  destruct (buttons_Some _ _ B) as (L3 & L4 & Ids).
  destruct (Player.isHuman (getPlayer s g)).
  - destruct (WaitForCleanPress w) as [[tx ty] w2].
    destruct (pressed btns tx ty) as [b|] eqn:P; [|discriminate].
    intros E. injection E as <- _. apply find_some in P. destruct P as [HIn _].
    split; [apply Ids, HIn | exact L3].
  - destruct (cpuChoice g (getPkmn s g) w) as [c' w2]. rewrite L4.
    destruct (Z.leb_spec 0 c'); [|discriminate].
    destruct (Z.ltb_spec c' (Z.of_nat 4)); [|discriminate]. cbn [andb].
    intros E. injection E as <- _. split; [lia | exact L3].
Qed.

Lemma resolveMove_defined (g : Game) (s : bool) (chosen i : Z) (mv : Move.t) (w : World) :
  0 <= chosen < 4 -> resolveMove g s chosen i mv w <> None.
Proof.
  intros C. unfold resolveMove.
  destruct (Move.power mv =? 0); destruct (Move.pp mv <=? 0); try discriminate.
  destruct (randInt 1 100 w) as [roll w1].
  destruct (roll >? Move.accuracy mv); [discriminate|].
  rewrite (highlightOutside_button s chosen _ C).
  destruct (fireProjectile _ _ _); [|discriminate].
  destruct (computeDamage _ _ _ _ _) as [dmg w2].
  destruct (applyDamage _ _). discriminate.
Qed.

(** C9.  The guard of line 606 brings every index that is not negative
    inside a move list that is not empty: an index at or beyond the number
    of moves becomes 0, a smaller one is kept.  And whatever the selection
    code hands over as [chosen], other than retreat, is the id 0, 1 or 2 of
    a move button of an actor with at least three moves: the index used is
    [chosen] itself, the move is found, and processing the action performs
    no access outside a vector. *)
Theorem chosen_move_index_in_bounds :
  forall (g : Game) (p1Turn : bool),
    let ms := Pokemon.moves (getPkmn p1Turn g) in
    (forall chosen : Z,
        0 <= chosen -> ms <> [] ->
        0 <= moveIndex ms chosen < Z.of_nat (List.length ms)
        /\ (Z.of_nat (List.length ms) <= chosen -> moveIndex ms chosen = 0)
        /\ (chosen < Z.of_nat (List.length ms) -> moveIndex ms chosen = chosen))
    /\ (forall (w w1 : World) (c : Z),
          chooseAction g p1Turn w = (Chosen c, w1) ->
          c <> 3 ->
          0 <= c < 3
          /\ moveIndex ms c = c
          /\ 0 <= moveIndex ms c < Z.of_nat (List.length ms)
          /\ (exists mv : Move.t, moveAt ms (moveIndex ms c) = Some mv)
          /\ fst (processAction g p1Turn c w1) <> Undefined).
Proof.
  intros g p1Turn ms. split.
  - intros chosen H0 Hne.
    assert (L : 0 < Z.of_nat (List.length ms)).
    { subst ms. destruct (Pokemon.moves (getPkmn p1Turn g)); [congruence|cbn; lia]. }
    unfold moveIndex.
    destruct (Z.geb_spec chosen (Z.of_nat (List.length ms))); repeat split; lia.
  - intros w w1 c C N3.
    destruct (chooseAction_Chosen g p1Turn w w1 c C) as [R L]. fold ms in L.
    assert (E : moveIndex ms c = c).
    { unfold moveIndex. destruct (Z.geb_spec c (Z.of_nat (List.length ms))); lia. }
    assert (B : 0 <= moveIndex ms c < Z.of_nat (List.length ms)) by lia.
    destruct (moveAt_in_range ms (moveIndex ms c) B) as [mv M].
    split; [lia|]. split; [exact E|]. split; [exact B|]. split; [eauto|].
    unfold processAction.
    destruct (Z.eqb_spec c 3); [contradiction|].
    destruct (Z.eqb_spec c (-1)); [lia|]. cbn [negb].
    fold ms. rewrite M.
    assert (D := resolveMove_defined g p1Turn c (moveIndex ms c) mv w1 ltac:(lia)).
    destruct (resolveMove g p1Turn c (moveIndex ms c) mv w1) as [[g1 w2]|];
      [cbn [fst]; discriminate | congruence].
Qed.

(** ** The HARD policy *)

Lemma hardStep_keeps_usable (ms : list Move.t) (b i : nat) :
  spec_hardStep ms (Some b) i = Some (hardStep ms b i).
Proof.
  unfold spec_hardStep, hardStep.
  destruct (nth_error ms i) as [mi|]; [|reflexivity].
  destruct (nth_error ms b) as [mb|];
    destruct (Move.pp mi >? 0); try reflexivity;
    destruct (Move.power mi >? Move.power mb); reflexivity.
Qed.

Lemma hard_scan_keeps_usable (ms : list Move.t) (l : list nat) :
  forall b : nat,
    fold_left (spec_hardStep ms) l (Some b) = Some (fold_left (hardStep ms) l b).
Proof.
  induction l as [|i l IH]; intros b; cbn [fold_left]; [reflexivity|].
  rewrite hardStep_keeps_usable. apply IH.
Qed.

(** Where the code and the specification agree: as soon as the first move
    has PP left, [hardBest] is the strongest usable move, first occurrence
    winning the ties. *)
Lemma hardBest_meets_spec (ms : list Move.t) (m0 : Move.t) :
  nth_error ms 0 = Some m0 -> 0 < Move.pp m0 ->
  spec_hardBest ms = Some (hardBest ms).
Proof.
  intros E PP. unfold spec_hardBest, hardBest.
  destruct ms as [|m ms]; [discriminate|].
  cbn in E. injection E as ->.
  cbn [List.length seq fold_left].
  assert (S0 : spec_hardStep (m0 :: ms) None 0%nat = Some 0%nat).
  { unfold spec_hardStep. cbn [nth_error].
    destruct (Z.gtb_spec (Move.pp m0) 0); [reflexivity|lia]. }
  assert (H0 : hardStep (m0 :: ms) 0%nat 0%nat = 0%nat).
  { unfold hardStep. cbn [nth_error].
    destruct ((Move.power m0 >? Move.power m0) && (Move.pp m0 >? 0)); reflexivity. }
  rewrite S0, H0. apply hard_scan_keeps_usable.
Qed.

(** Under HARD the policy draws twice: the first value is not used, the
    second one decides between the move found by the scan and retreat. *)
Lemma cpuChoice_hard (g : Game) (a : Pokemon.t) (w : World) :
  difficulty g <> 0 ->
  fst (cpuChoice g a w)
  = (if fst (randInt 1 100 (snd (randInt 1 100 w))) <=? 85
     then Z.of_nat (hardBest (Pokemon.moves a)) else 3).
Proof.
  intros D. unfold cpuChoice.
  destruct (randInt 1 100 w) as [r w1]. cbn [snd].
  destruct (Z.eqb_spec (difficulty g) 0); [contradiction|].
  destruct (randInt 1 100 w1) as [r2 w2]. reflexivity.
Qed.

(** C3 at its failing input.  Charmander has used up Ember (power 40, its
    first move) and still has Scratch (power 35, PP 25).  The strongest
    move with PP left is Scratch, index 1; the scan of the code starts from
    [best = 0] without looking at the PP of move 0 and stays there, so the
    HARD CPU selects Ember on a roll that is at most 85, and its turn only
    produces "No PP left for that move.". *)
Theorem hard_cpu_selects_exhausted_first_move :
  map Move.power (Pokemon.moves (getPkmn false (tiredGame 1))) = [40; 35; 0]
  /\ map Move.pp (Pokemon.moves (getPkmn false (tiredGame 1))) = [0; 25; 25]
  /\ spec_hardBest (Pokemon.moves (getPkmn false (tiredGame 1))) = Some 1%nat
  /\ hardBest (Pokemon.moves (getPkmn false (tiredGame 1))) = 0%nat
  /\ fst (cpuChoice (tiredGame 1) (getPkmn false (tiredGame 1))
            (worldOf [0%N; 0%N] [])) = 0
  /\ lcd (snd (turn (tiredGame 1) false (worldOf [0%N; 0%N] [])))
     = ["No PP left for that move."].
Proof. vm_compute. repeat split. Qed.

(** ** The claims on concrete matches *)

(** C1 fails as stated.  Pikachu (human, seat 1) has no PP left for
    Thunder and the player taps the Thunder button: the message is
    written, nothing else changes, and the next round belongs to seat 2.
    With Pikachu defending, the same tap also clears its defending flag. *)
Lemma no_pp_turn_passes_counterexample :
  chooseAction (tiredGame 0) true (worldOf [] [(10, 150)])
  = (Chosen 0, snd (WaitForCleanPress (worldOf [] [(10, 150)])))
  /\ moveAt (Pokemon.moves (getPkmn true (tiredGame 0))) 0
     = Some (Move.mk "Thunder" 40 95 0)
  /\ fst (turn (tiredGame 0) true (worldOf [] [(10, 150)]))
     = Again (tiredGame 0) false
  /\ lcd (snd (turn (tiredGame 0) true (worldOf [] [(10, 150)])))
     = ["No PP left for that move."]
  /\ Pokemon.defending
       (getPkmn true
          (setPkmn true (Pokemon.setDefending true (getPkmn true (tiredGame 0)))
             (tiredGame 0))) = true
  /\ exists g', fst (turn
                       (setPkmn true
                          (Pokemon.setDefending true (getPkmn true (tiredGame 0)))
                          (tiredGame 0))
                       true (worldOf [] [(10, 150)])) = Again g' false
                /\ Pokemon.defending (getPkmn true g') = false.
Proof.
  repeat split; try (vm_compute; reflexivity).
  eexists. split; vm_compute; reflexivity.
Qed.

Lemma no_pp_is_reported_and_turn_passes_witness :
  (0 <> 3 /\ 0 <> -1
   /\ moveAt (Pokemon.moves (getPkmn true (tiredGame 0)))
        (moveIndex (Pokemon.moves (getPkmn true (tiredGame 0))) 0)
      = Some (Move.mk "Thunder" 40 95 0)
   /\ Move.pp (Move.mk "Thunder" 40 95 0) <= 0)
  /\ exists g' : Game,
       processAction (tiredGame 0) true 0 (worldOf [] [])
       = (Again g' false, WriteLine "No PP left for that move." (worldOf [] []))
       /\ Pokemon.hp (getPkmn true g') = 40
       /\ map Move.pp (Pokemon.moves (getPkmn true g')) = [0; 20; 25].
Proof.
  assert (H : 0 <> 3 /\ 0 <> -1
     /\ moveAt (Pokemon.moves (getPkmn true (tiredGame 0)))
          (moveIndex (Pokemon.moves (getPkmn true (tiredGame 0))) 0)
        = Some (Move.mk "Thunder" 40 95 0)
     /\ Move.pp (Move.mk "Thunder" 40 95 0) <= 0).
  { repeat split; try lia; try reflexivity; cbn; lia. }
  split; [exact H|]. destruct H as (N3 & N1 & M & PP).
  destruct (no_pp_is_reported_and_turn_passes (tiredGame 0) true 0
              (Move.mk "Thunder" 40 95 0) (worldOf [] []) N3 N1 M PP)
    as (g' & E & _ & Hp & Mv & _).
  exists g'. split; [exact E|]. split; [rewrite Hp | rewrite Mv]; reflexivity.
Defined.



Lemma chosen_move_index_in_bounds_witness :
  (chooseAction (sampleGame 0) true (worldOf [] [(200, 160)])
   = (Chosen 1, snd (WaitForCleanPress (worldOf [] [(200, 160)])))
   /\ 1 <> 3)
  /\ moveIndex (Pokemon.moves (getPkmn true (sampleGame 0))) 1 = 1
  /\ (exists mv : Move.t,
        moveAt (Pokemon.moves (getPkmn true (sampleGame 0)))
          (moveIndex (Pokemon.moves (getPkmn true (sampleGame 0))) 1) = Some mv)
  /\ fst (processAction (sampleGame 0) true 1
            (snd (WaitForCleanPress (worldOf [] [(200, 160)])))) <> Undefined.
Proof.
  assert (H : chooseAction (sampleGame 0) true (worldOf [] [(200, 160)])
              = (Chosen 1, snd (WaitForCleanPress (worldOf [] [(200, 160)])))
              /\ 1 <> 3).
  { split; [vm_compute; reflexivity | lia]. }
  split; [exact H|]. destruct H as [C N3].
  destruct (proj2 (chosen_move_index_in_bounds (sampleGame 0) true) _ _ _ C N3)
    as (_ & E & _ & M & U).
  split; [exact E|]. split; [exact M | exact U].
Defined.


Lemma applyDamage_clamps_and_halves_once_witness :
  (0 <= 17 <= INT_MAX
   /\ (Pokemon.defending (Pokemon.setDefending true pikachu) = true -> 17 < INT_MAX)
   /\ 0 <= Pokemon.hp (Pokemon.setDefending true pikachu)
        <= Pokemon.maxHP (Pokemon.setDefending true pikachu)
   /\ Pokemon.maxHP (Pokemon.setDefending true pikachu) <= INT_MAX)
  /\ fst (applyDamage 17 (Pokemon.setDefending true pikachu)) = 9
  /\ Pokemon.hp (snd (applyDamage 17 (Pokemon.setDefending true pikachu))) = 31
  /\ Pokemon.defending (snd (applyDamage 17 (Pokemon.setDefending true pikachu))) = false.
Proof.
  assert (H : 0 <= 17 <= INT_MAX
              /\ (Pokemon.defending (Pokemon.setDefending true pikachu) = true
                  -> 17 < INT_MAX)
              /\ 0 <= Pokemon.hp (Pokemon.setDefending true pikachu)
                   <= Pokemon.maxHP (Pokemon.setDefending true pikachu)
              /\ Pokemon.maxHP (Pokemon.setDefending true pikachu) <= INT_MAX).
  { unfold INT_MAX. cbn. lia. }
  split; [exact H|].
  destruct H as (Ha & Hf & Hh & Hm).
  destruct (applyDamage_clamps_and_halves_once 17 (Pokemon.setDefending true pikachu)
              Ha Hf Hh Hm) as (_ & _ & T & HP & D & _).
  split; [exact T|]. split; [|exact D].
  rewrite HP, T. reflexivity.
Defined.

Lemma attack_spends_pp_unless_missed_witness :
  (0 <= 0 < 4 /\ 0 <> 3
   /\ moveAt (Pokemon.moves (getPkmn true (sampleGame 0)))
        (moveIndex (Pokemon.moves (getPkmn true (sampleGame 0))) 0)
      = Some (Move.mk "Thunder" 40 95 15)
   /\ Move.power (Move.mk "Thunder" 40 95 15) <> 0
   /\ 0 < Move.pp (Move.mk "Thunder" 40 95 15)
   /\ fst (randInt 1 100 (worldOf [7%N] [])) <= Move.accuracy (Move.mk "Thunder" 40 95 15))
  /\ exists (g' : Game) (w' : World),
       processAction (sampleGame 0) true 0 (worldOf [7%N] []) = (Again g' false, w')
       /\ exists mv' : Move.t,
            moveAt (Pokemon.moves (getPkmn true g')) 0 = Some mv'
            /\ Move.pp mv' = 14
            /\ Move.name mv' = "Thunder".
Proof.
  assert (H : 0 <= 0 < 4 /\ 0 <> 3
     /\ moveAt (Pokemon.moves (getPkmn true (sampleGame 0)))
          (moveIndex (Pokemon.moves (getPkmn true (sampleGame 0))) 0)
        = Some (Move.mk "Thunder" 40 95 15)
     /\ Move.power (Move.mk "Thunder" 40 95 15) <> 0
     /\ 0 < Move.pp (Move.mk "Thunder" 40 95 15)
     /\ fst (randInt 1 100 (worldOf [7%N] []))
        <= Move.accuracy (Move.mk "Thunder" 40 95 15)).
  { repeat split; try lia; cbn; lia. }
  split; [exact H|].
  destruct H as (C & N3 & M & P & PP & Roll).
  destruct (attack_spends_pp_unless_missed (sampleGame 0) true 0
              (Move.mk "Thunder" 40 95 15) (worldOf [7%N] []) C N3 M P PP)
    as (_ & g' & w' & E & _ & Spent & _).
  destruct (Spent Roll) as ((mv' & M' & PP' & Nm & _) & _).
  exists g', w'. split; [exact E|].
  exists mv'. split; [exact M'|]. split; [exact PP' | exact Nm].
Defined.

Lemma computeDamage_monotone_witness :
  (Move.power (Move.mk "Scratch" 35 100 25) <= Move.power (Move.mk "Ember" 40 95 15)
   /\ damageInRange (sampleGame 1) charmander pikachu
        (Move.mk "Ember" 40 95 15) (worldOf [3%N] []) = true
   /\ Pokemon.attack pikachu <= Pokemon.attack (nth 4 loadBank pikachu)
   /\ damageInRange (sampleGame 1) (nth 4 loadBank pikachu) charmander
        (Move.mk "Ember" 40 95 15) (worldOf [3%N] []) = true)
  /\ fst (computeDamage (sampleGame 1) charmander pikachu
            (Move.mk "Scratch" 35 100 25) (worldOf [3%N] []))
     <= fst (computeDamage (sampleGame 1) charmander pikachu
               (Move.mk "Ember" 40 95 15) (worldOf [3%N] []))
  /\ fst (computeDamage (sampleGame 1) pikachu charmander
            (Move.mk "Ember" 40 95 15) (worldOf [3%N] []))
     <= fst (computeDamage (sampleGame 1) (nth 4 loadBank pikachu) charmander
               (Move.mk "Ember" 40 95 15) (worldOf [3%N] [])).
Proof.
  assert (H : Move.power (Move.mk "Scratch" 35 100 25)
              <= Move.power (Move.mk "Ember" 40 95 15)
              /\ damageInRange (sampleGame 1) charmander pikachu
                   (Move.mk "Ember" 40 95 15) (worldOf [3%N] []) = true
              /\ Pokemon.attack pikachu <= Pokemon.attack (nth 4 loadBank pikachu)
              /\ damageInRange (sampleGame 1) (nth 4 loadBank pikachu) charmander
                   (Move.mk "Ember" 40 95 15) (worldOf [3%N] []) = true).
  { split; [cbn; lia|]. split; [vm_compute; reflexivity|].
    split; [cbn; lia | vm_compute; reflexivity]. }
  split; [exact H|]. destruct H as (Hp & Fp & Ha & Fa). split.
  - exact (proj1 (computeDamage_monotone (sampleGame 1) pikachu (worldOf [3%N] []))
             charmander _ _ Hp Fp).
  - exact (proj2 (computeDamage_monotone (sampleGame 1) charmander (worldOf [3%N] []))
             pikachu (nth 4 loadBank pikachu) _ Ha Fa).
Defined.

Lemma reset_only_restores_health_witness :
  (nth_error (Pokemon.moves (getPkmn true (tiredGame 0))) 0
   = Some (Move.mk "Thunder" 40 95 0)
   /\ 0 <= Move.pp (Move.mk "Thunder" 40 95 0))
  /\ nth_error (Pokemon.moves (getPkmn true (resetBoth (tiredGame 0)))) 0
     = Some (Move.mk "Thunder" 40 95 0).
Proof.
  assert (H : nth_error (Pokemon.moves (getPkmn true (tiredGame 0))) 0
              = Some (Move.mk "Thunder" 40 95 0)
              /\ 0 <= Move.pp (Move.mk "Thunder" 40 95 0)).
  { split; [reflexivity | cbn; lia]. }
  split; [exact H|]. destruct H as [E PP].
  destruct (reset_only_restores_health pikachu) as (_ & _ & _ & _ & _ & R).
  exact (R (tiredGame 0) true 0%nat (Move.mk "Thunder" 40 95 0) E PP).
Defined.

(** ** The invariant is kept

    [reset] establishes it for any creature whose maximum health is not
    negative; a hit whose arithmetic stays inside [int], a spent PP, a
    retreat and a change of the defending flag keep it.  Part III follows
    it through the rounds of a match and through a session. *)

Lemma Forall_updateAt {A : Type} (P : A -> Prop) (f : A -> A) (l : list A) (i : nat) :
  Forall P l ->
  (forall a, nth_error l i = Some a -> P a -> P (f a)) ->
  Forall P (updateAt i f l).
Proof.
  intros H. revert i. induction H as [|a l Ha Hl IH]; intros [|i] Hf; cbn.
  - constructor.
  - constructor.
  - constructor; [apply Hf; [reflexivity|exact Ha] | exact Hl].
  - constructor; [exact Ha | apply IH; exact Hf].
Qed.

Lemma reset_healthy (p : Pokemon.t) :
  0 <= Pokemon.maxHP p -> healthy (Pokemon.reset p).
Proof.
  intros H. split; [cbn; lia|]. cbn [Pokemon.reset Pokemon.moves].
  apply Forall_map, Forall_forall. intros m _.
  destruct (Z.ltb_spec (Move.pp m) 0); cbn; lia.
Qed.

Lemma damage_positive (g : Game) (att def : Pokemon.t) (m : Move.t) (w : World) :
  0 < fst (computeDamage g att def m w).
Proof.
  unfold computeDamage. destruct (randInt 85 100 w) as [r w']. cbn [fst].
  unfold MIN_DAMAGE.
  match goal with |- 0 < (if ?c then _ else _) => destruct c eqn:E end; lia.
Qed.

Lemma applyDamage_healthy (amount : Z) (t : Pokemon.t) :
  0 <= amount < INT_MAX -> healthy t -> Pokemon.maxHP t <= INT_MAX ->
  healthy (snd (applyDamage amount t)).
Proof.
  unfold INT_MAX. intros Ha [Hhp Hpp] Hm.
  rewrite applyDamage_spec by lia. cbn [snd].
  assert (D : 0 <= (amount + 1) / 2) by (apply Z.div_pos; lia).
  destruct (Pokemon.defending t); (split; [cbn in *; lia | exact Hpp]).
Qed.

Lemma wellFormed_setPkmn (s : bool) (pk : Pokemon.t) (g : Game) :
  wellFormed g -> healthy pk -> wellFormed (setPkmn s pk g).
Proof. intros [H1 H2] H. destruct s; split; assumption. Qed.

Lemma wellFormed_get (s : bool) (g : Game) : wellFormed g -> healthy (getPkmn s g).
Proof. intros [H1 H2]. destruct s; assumption. Qed.

Lemma healthy_setDefending (b : bool) (p : Pokemon.t) :
  healthy p -> healthy (Pokemon.setDefending b p).
Proof. intros H. exact H. Qed.

Lemma wellFormed_decrementPP (s : bool) (i : Z) (mv : Move.t) (g : Game) :
  wellFormed g ->
  moveAt (Pokemon.moves (getPkmn s g)) i = Some mv -> 0 < Move.pp mv ->
  wellFormed (decrementPP s i g).
Proof.
  intros W M PP. unfold decrementPP. apply wellFormed_setPkmn; [exact W|].
  destruct (wellFormed_get s g W) as [Hhp Hpp]. split; [exact Hhp|].
  cbn [Pokemon.setMoves Pokemon.moves].
  apply Forall_updateAt; [exact Hpp|].
  intros a E _. destruct (moveAt_Some _ _ _ M) as [_ E'].
  rewrite E' in E. injection E as <-. cbn. lia.
Qed.

Lemma wellFormed_clearOwnDefend (g : Game) (s : bool) (mv : Move.t) :
  wellFormed g -> wellFormed (clearOwnDefend g s mv).
Proof.
  intros W. unfold clearOwnDefend.
  destruct (Pokemon.defending (getPkmn s g) && (Move.power mv >? 0)); [|exact W].
  apply wellFormed_setPkmn; [exact W|].
  apply healthy_setDefending, wellFormed_get, W.
Qed.

Lemma wellFormed_retreat (g : Game) (s : bool) (w : World) :
  wellFormed g -> wellFormed (fst (retreat g s w)).
Proof.
  intros W. unfold retreat. cbn [fst]. apply wellFormed_setPkmn; [exact W|].
  destruct (wellFormed_get s g W) as [Hhp Hpp]. split; [|exact Hpp].
  unfold RETREAT_HEAL. cbn [Pokemon.setHp Pokemon.hp Pokemon.maxHP].
  destruct (Z.gtb_spec (Pokemon.hp (getPkmn s g) + 8) (Pokemon.maxHP (getPkmn s g))); lia.
Qed.

Lemma sampleGame_wellFormed (diff : Z) : wellFormed (sampleGame diff).
Proof.
  split; (split; [cbn; lia|]); cbn; repeat constructor; cbn; lia.
Qed.

Lemma sampleGame_intSafe : intSafe (sampleGame 0).
Proof.
  split; intros [|]; vm_compute; congruence.
Qed.

(* ================================================================== *)
(** * Part III: further properties of the code *)
(* ================================================================== *)

(** ** [randInt] *)

(** X1.  For two [int]s [a <= b] that are less than [INT_MAX] apart (so
    that the number [b - a + 1] of values asked for is an [int]),
    [randInt(a, b)] returns a value between [a] and [b], both included,
    whatever [std::rand()] returns; it consumes exactly one value of
    [std::rand()] and touches nothing else; and when [a = b] the result is
    [a]. *)
Theorem randInt_stays_in_range :
  forall (a b : Z) (w : World),
    INT_MIN <= a -> a <= b -> b <= INT_MAX -> b - a < INT_MAX ->
    a <= fst (randInt a b w) <= b
    /\ (a = b -> fst (randInt a b w) = a)
    /\ randPos (snd (randInt a b w)) = S (randPos w)
    /\ randSeq (snd (randInt a b w)) = randSeq w
    /\ touchPos (snd (randInt a b w)) = touchPos w
    /\ lcd (snd (randInt a b w)) = lcd w.
Proof.
  unfold INT_MIN, INT_MAX. intros a b w H1 H2 H3 H4.
  assert (R := randInt_range a b w ltac:(lia)).
  split; [exact R|].
  split; [|repeat split].
  intros E. lia.
Qed.

Lemma randInt_stays_in_range_witness :
  (INT_MIN <= 1 /\ 1 <= 100 /\ 100 <= INT_MAX /\ 100 - 1 < INT_MAX)
  /\ 1 <= fst (randInt 1 100 (worldOf [12345%N] [])) <= 100.
Proof.
  assert (H : INT_MIN <= 1 /\ 1 <= 100 /\ 100 <= INT_MAX /\ 100 - 1 < INT_MAX)
    by (unfold INT_MIN, INT_MAX; lia).
  split; [exact H|]. destruct H as (H1 & H2 & H3 & H4).
  exact (proj1 (randInt_stays_in_range 1 100 (worldOf [12345%N] []) H1 H2 H3 H4)).
Defined.

(** ** The menus *)

(** X2.  [GetMenuButtonPressed] returns a value in 0..4, and it returns
    [k] in 1..4 exactly when the touch lies in the rectangle that
    [DrawMenuButton] draws for index [k - 1] (borders included); every
    other touch, in particular one in the gap between two buttons, gives
    0. *)
Theorem menu_button_matches_drawn_rectangle :
  forall touchX touchY : Z,
    0 <= menuButtonAt touchX touchY <= NUM_MENU_BUTTONS
    /\ forall k : Z,
         1 <= k <= NUM_MENU_BUTTONS ->
         (menuButtonAt touchX touchY = k
          <-> (BTN_X <= touchX <= BTN_X + BTN_W
               /\ menuButtonY (k - 1) <= touchY <= menuButtonY (k - 1) + BTN_H)).
Proof.
  intros x y. unfold menuButtonAt, menuButtonY, NUM_MENU_BUTTONS,
    BTN_X, BTN_W, BTN_H, BTN_START_Y, BTN_GAP.
  destruct (Z.ltb_spec x 20); [cbn [orb]; split; [lia|intros; lia]|].
  destruct (Z.gtb_spec x (20 + 280)); cbn [orb]; [split; [lia|intros; lia]|].
  destruct (Z.ltb_spec (y - 40) 0); [split; [lia|intros; lia]|].
  rewrite Z.quot_div_nonneg by lia.
  assert (D := Z.div_mod (y - 40) (45 + 10) ltac:(lia)).
  assert (M := Z.mod_pos_bound (y - 40) (45 + 10) ltac:(lia)).
  set (q := (y - 40) / (45 + 10)) in *.
  destruct (Z.geb_spec q 0); [|lia].
  destruct (Z.ltb_spec q 4); cbn [andb]; [|split; [lia|intros; lia]].
  destruct (Z.geb_spec y (40 + q * (45 + 10))); [|lia].
  destruct (Z.leb_spec y (40 + q * (45 + 10) + 45)); cbn [andb];
    (split; [lia|intros k Hk; lia]).
Qed.

Lemma menu_button_matches_drawn_rectangle_witness :
  1 <= 3 <= NUM_MENU_BUTTONS
  /\ (menuButtonAt 100 160 = 3
      <-> (BTN_X <= 100 <= BTN_X + BTN_W
           /\ menuButtonY (3 - 1) <= 160 <= menuButtonY (3 - 1) + BTN_H)).
Proof.
  assert (H : 1 <= 3 <= NUM_MENU_BUTTONS) by (unfold NUM_MENU_BUTTONS; lia).
  split; [exact H|].
  exact (proj2 (menu_button_matches_drawn_rectangle 100 160) 3 H).
Defined.

(** X3.  For a number of regions between 1 and the height of the screen,
    [GetSimpleMenuChoice] returns a region number between 1 and that
    number; a touch in the [k]-th horizontal slice of height
    [SCREEN_H / numRegions] gives [k], a touch above the screen gives 1
    and a touch below the last slice gives the last region. *)
Theorem simple_menu_choice_in_range :
  forall numRegions ty : Z,
    1 <= numRegions <= SCREEN_H ->
    let regionH := SCREEN_H / numRegions in
    1 <= simpleMenuChoiceAt numRegions ty <= numRegions
    /\ (forall k : Z,
          1 <= k <= numRegions ->
          (k - 1) * regionH <= ty < k * regionH ->
          simpleMenuChoiceAt numRegions ty = k)
    /\ (ty < 0 -> simpleMenuChoiceAt numRegions ty = 1)
    /\ (numRegions * regionH <= ty -> simpleMenuChoiceAt numRegions ty = numRegions).
Proof.
  intros n ty Hn regionH. unfold SCREEN_H in *.
  assert (R : 1 <= regionH).
  { subst regionH. apply Z.div_le_lower_bound; lia. }
  unfold simpleMenuChoiceAt, SCREEN_H.
  rewrite (Z.quot_div_nonneg 240 n) by lia. fold regionH.
  split; [|split; [|split]].
  - destruct (Z.ltb_spec (Z.quot ty regionH) 0);
      match goal with |- context [?a >=? n] => destruct (Z.geb_spec a n) end; lia.
  - intros k Hk Hty.
    assert (0 <= ty) by nia.
    rewrite Z.quot_div_nonneg by lia.
    assert (E : ty / regionH = k - 1).
    { symmetry. apply (Z.div_unique ty regionH (k - 1) (ty - (k - 1) * regionH)); lia. }
    rewrite E.
    destruct (Z.ltb_spec (k - 1) 0); [lia|].
    destruct (Z.geb_spec (k - 1) n); lia.
  - intros Hneg.
    assert (Z.quot ty regionH <= 0).
    { rewrite <- (Z.opp_involutive ty), Z.quot_opp_l by lia.
      assert (0 <= Z.quot (- ty) regionH) by (apply Z.quot_pos; lia). lia. }
    destruct (Z.ltb_spec (Z.quot ty regionH) 0).
    + destruct (Z.geb_spec 0 n); lia.
    + assert (Z.quot ty regionH = 0) by lia.
      match goal with |- context [?a >=? n] => destruct (Z.geb_spec a n) end; lia.
  - intros Hbig.
    assert (0 <= ty) by nia.
    rewrite Z.quot_div_nonneg by lia.
    assert (n <= ty / regionH) by (apply Z.div_le_lower_bound; lia).
    destruct (Z.ltb_spec (ty / regionH) 0); [lia|].
    destruct (Z.geb_spec (ty / regionH) n); lia.
Qed.

Lemma simple_menu_choice_in_range_witness :
  1 <= 3 <= SCREEN_H /\ 1 <= simpleMenuChoiceAt 3 100 <= 3.
Proof.
  assert (H : 1 <= 3 <= SCREEN_H) by (unfold SCREEN_H; lia).
  split; [exact H|].
  exact (proj1 (simple_menu_choice_in_range 3 100 H)).
Defined.

(** X4.  The difficulty submenu leaves a difficulty that is 0 or 1
    whenever it found one, and changes nothing else in the game.  The
    difficulty is 1 afterwards exactly when the touch is in the HARD box,
    or is in the START box while the difficulty was already 1: a touch
    outside the three boxes always falls back to EASY. *)
Theorem selectDifficulty_easy_or_hard :
  forall (sx sy : Z) (g : Game) (w : World),
    difficulty g = 0 \/ difficulty g = 1 ->
    let g' := fst (selectDifficulty sx sy g w) in
    (difficulty g' = 0 \/ difficulty g' = 1)
    /\ (difficulty g' = 1
        <-> ((170 <= sx <= 290 /\ 50 <= sy <= 90)
             \/ (30 <= sx <= 290 /\ 110 <= sy <= 150 /\ difficulty g = 1)))
    /\ bank g' = bank g /\ p1 g' = p1 g /\ p2 g' = p2 g /\ stats g' = stats g.
Proof.
  intros sx sy g w D g'. subst g'. unfold selectDifficulty.
  destruct (Z.geb_spec sx 30); destruct (Z.leb_spec sx 150);
    destruct (Z.geb_spec sy 50); destruct (Z.leb_spec sy 90);
    destruct (Z.geb_spec sx 170); destruct (Z.leb_spec sx 290);
    destruct (Z.geb_spec sy 110); destruct (Z.leb_spec sy 150);
    cbn [andb fst setDifficulty difficulty bank p1 p2 stats gamesPlayed humanWins cpuWins];
    repeat split; try reflexivity; try lia; try (intros; lia).
Qed.

Lemma selectDifficulty_easy_or_hard_witness :
  (difficulty (sampleGame 0) = 0 \/ difficulty (sampleGame 0) = 1)
  /\ difficulty (fst (selectDifficulty 200 70 (sampleGame 0) (worldOf [] []))) = 1.
Proof.
  assert (H : difficulty (sampleGame 0) = 0 \/ difficulty (sampleGame 0) = 1)
    by (left; reflexivity).
  split; [exact H|].
  destruct (selectDifficulty_easy_or_hard 200 70 (sampleGame 0) (worldOf [] []) H)
    as (_ & E & _).
  apply E. left. lia.
Defined.

(** ** The health bar *)

(** X5.  For a combatant with a positive maximum, a health between 0 and
    the maximum, a sprite that is not of negative width and a product
    [maxHP * w] that is an [int], the green part of the health bar is never
    wider than the red bar behind it; it is empty at health 0, full at full
    health, and does not shrink when the health grows. *)
Theorem healthBar_fits_its_frame :
  forall p : Pokemon.t,
    0 < Pokemon.maxHP p ->
    0 <= Pokemon.hp p <= Pokemon.maxHP p ->
    0 <= Pokemon.w p ->
    Pokemon.maxHP p * Pokemon.w p <= INT_MAX ->
    0 <= healthBar p <= Pokemon.w p
    /\ (Pokemon.hp p = 0 -> healthBar p = 0)
    /\ (Pokemon.hp p = Pokemon.maxHP p -> healthBar p = Pokemon.w p)
    /\ (forall v : Z,
          Pokemon.hp p <= v <= Pokemon.maxHP p ->
          healthBar p <= healthBar (Pokemon.setHp v p)).
Proof.
  unfold INT_MAX. intros p Hm Hh Hw Hi. unfold healthBar.
  cbn [Pokemon.setHp Pokemon.hp Pokemon.w Pokemon.maxHP].
  assert (N : 0 <= Pokemon.hp p * Pokemon.w p <= 2147483647) by nia.
  rewrite (wrap_small (Pokemon.hp p * Pokemon.w p)) by lia.
  rewrite Z.quot_div_nonneg by lia.
  split; [split|split; [|split]].
  - apply Z.div_pos; lia.
  - apply Z.div_le_upper_bound; [lia|]. nia.
  - intros ->. reflexivity.
  - intros ->. rewrite Z.mul_comm. apply Z.div_mul. lia.
  - intros v Hv.
    assert (N' : 0 <= v * Pokemon.w p <= 2147483647) by nia.
    rewrite (wrap_small (v * Pokemon.w p)) by lia.
    rewrite Z.quot_div_nonneg by lia.
    apply Z.div_le_mono; [lia|]. nia.
Qed.

Lemma healthBar_fits_its_frame_witness :
  (0 < Pokemon.maxHP (Pokemon.setHp 13 pikachu)
   /\ 0 <= Pokemon.hp (Pokemon.setHp 13 pikachu) <= Pokemon.maxHP (Pokemon.setHp 13 pikachu)
   /\ 0 <= Pokemon.w (Pokemon.setHp 13 pikachu)
   /\ Pokemon.maxHP (Pokemon.setHp 13 pikachu) * Pokemon.w (Pokemon.setHp 13 pikachu)
      <= INT_MAX)
  /\ healthBar (Pokemon.setHp 13 pikachu) = 15
  /\ 0 <= healthBar (Pokemon.setHp 13 pikachu) <= Pokemon.w (Pokemon.setHp 13 pikachu).
Proof.
  assert (H : 0 < Pokemon.maxHP (Pokemon.setHp 13 pikachu)
     /\ 0 <= Pokemon.hp (Pokemon.setHp 13 pikachu) <= Pokemon.maxHP (Pokemon.setHp 13 pikachu)
     /\ 0 <= Pokemon.w (Pokemon.setHp 13 pikachu)
     /\ Pokemon.maxHP (Pokemon.setHp 13 pikachu) * Pokemon.w (Pokemon.setHp 13 pikachu)
        <= INT_MAX) by (unfold INT_MAX; cbn; lia).
  split; [exact H|]. destruct H as (A & B & C & D).
  split; [reflexivity|].
  exact (proj1 (healthBar_fits_its_frame (Pokemon.setHp 13 pikachu) A B C D)).
Defined.

(** ** The scan of the HARD policy *)

Lemma hardBest_prefix (ms : list Move.t) (m0 : Move.t) :
  nth_error ms 0 = Some m0 ->
  forall k : nat,
    (k <= List.length ms)%nat ->
    let b := fold_left (hardStep ms) (seq 0 k) 0%nat in
    exists mb,
      nth_error ms b = Some mb
      /\ (b = 0%nat \/ ((b < k)%nat /\ 0 < Move.pp mb))
      /\ (forall (i : nat) (mi : Move.t),
            (i < k)%nat -> nth_error ms i = Some mi ->
            i = 0%nat \/ 0 < Move.pp mi ->
            Move.power mi <= Move.power mb
            /\ ((i < b)%nat -> Move.power mi < Move.power mb)).
Proof.
  intros E0 k. induction k as [|k IH]; intros Hk b.
  - exists m0. subst b. cbn. split; [exact E0|]. split; [left; reflexivity|].
    intros i mi Hi. lia.
  - subst b. rewrite seq_S, fold_left_app. cbn [fold_left Nat.add].
    destruct (IH ltac:(lia)) as (mb & Eb & Cb & Mb). clear IH.
    set (b := fold_left (hardStep ms) (seq 0 k) 0%nat) in *.
    destruct (nth_error ms k) as [mk|] eqn:Ek;
      [|apply nth_error_None in Ek; lia].
    unfold hardStep. rewrite Ek, Eb.
    destruct (Z.gtb_spec (Move.power mk) (Move.power mb)) as [Hp|Hp];
      destruct (Z.gtb_spec (Move.pp mk) 0) as [Hpp|Hpp]; cbn [andb].
    + exists mk. split; [exact Ek|]. split; [right; split; [lia|exact Hpp]|].
      intros i mi Hi Ei Ci.
      destruct (Nat.eq_dec i k) as [->|Hne].
      * rewrite Ek in Ei. injection Ei as <-. split; [lia|intros; lia].
      * destruct (Mb i mi ltac:(lia) Ei Ci) as [Le _]. split; [lia|intros; lia].
    + exists mb. split; [exact Eb|]. split; [destruct Cb as [|[? ?]]; [left; assumption|right; split; [lia|assumption]]|].
      intros i mi Hi Ei Ci.
      destruct (Nat.eq_dec i k) as [->|Hne].
      * rewrite Ek in Ei. injection Ei as <-.
        destruct Ci as [->|Ci]; [|lia].
        assert (b = 0%nat) as -> by (destruct Cb as [|[? ?]]; [assumption|lia]).
        rewrite Ek in Eb. injection Eb as <-. split; [lia|intros; lia].
      * apply Mb; [lia|assumption|assumption].
    + exists mb. split; [exact Eb|]. split; [destruct Cb as [|[? ?]]; [left; assumption|right; split; [lia|assumption]]|].
      intros i mi Hi Ei Ci.
      destruct (Nat.eq_dec i k) as [->|Hne].
      * rewrite Ek in Ei. injection Ei as <-. split; [lia|].
        intros Hlt. destruct Cb as [->|[? ?]]; lia.
      * apply Mb; [lia|assumption|assumption].
    + exists mb. split; [exact Eb|]. split; [destruct Cb as [|[? ?]]; [left; assumption|right; split; [lia|assumption]]|].
      intros i mi Hi Ei Ci.
      destruct (Nat.eq_dec i k) as [->|Hne].
      * rewrite Ek in Ei. injection Ei as <-. split; [lia|].
        intros Hlt. destruct Cb as [->|[? ?]]; lia.
      * apply Mb; [lia|assumption|assumption].
Qed.

(** X6.  What the scan of the HARD policy returns for a non-empty move
    list: an index inside the list, which is 0 or that of a move with PP
    left; among move 0 and the moves with PP left, no move is stronger than
    the returned one, and every such move before it is strictly weaker
    (the first of the strongest wins).  Move 0 takes part whatever its
    PP. *)
Theorem hardBest_is_first_strongest_candidate :
  forall (ms : list Move.t) (m0 : Move.t),
    nth_error ms 0 = Some m0 ->
    exists mb : Move.t,
      nth_error ms (hardBest ms) = Some mb
      /\ (hardBest ms = 0%nat \/ 0 < Move.pp mb)
      /\ (forall (i : nat) (mi : Move.t),
            nth_error ms i = Some mi ->
            i = 0%nat \/ 0 < Move.pp mi ->
            Move.power mi <= Move.power mb
            /\ ((i < hardBest ms)%nat -> Move.power mi < Move.power mb)).
Proof.
  intros ms m0 E0.
  destruct (hardBest_prefix ms m0 E0 (List.length ms) ltac:(lia))
    as (mb & Eb & Cb & Mb).
  fold (hardBest ms) in *.
  exists mb. split; [exact Eb|]. split; [destruct Cb as [|[_ ?]]; [left|right]; assumption|].
  intros i mi Ei Ci. apply Mb; [|assumption|assumption].
  apply nth_error_Some. congruence.
Qed.

Lemma hardBest_is_first_strongest_candidate_witness :
  nth_error (Pokemon.moves (nth 4 loadBank pikachu)) 0 = Some (Move.mk "Shadow" 50 90 12)
  /\ exists mb : Move.t,
       nth_error (Pokemon.moves (nth 4 loadBank pikachu))
         (hardBest (Pokemon.moves (nth 4 loadBank pikachu))) = Some mb
       /\ (hardBest (Pokemon.moves (nth 4 loadBank pikachu)) = 0%nat \/ 0 < Move.pp mb).
Proof.
  assert (H : nth_error (Pokemon.moves (nth 4 loadBank pikachu)) 0
              = Some (Move.mk "Shadow" 50 90 12)) by reflexivity.
  split; [exact H|].
  destruct (hardBest_is_first_strongest_candidate _ _ H) as (mb & E & C & _).
  exists mb. split; assumption.
Defined.

(** ** What a round changes and what it leaves alone *)

Lemma setup_setPkmn (s : bool) (pk : Pokemon.t) (g : Game) :
  pkmnStatic pk = pkmnStatic (getPkmn s g) ->
  setup (setPkmn s pk g) = setup g /\ stats (setPkmn s pk g) = stats g.
Proof.
  intros E. destruct s; unfold setup, seatStatic, stats; cbn in *; rewrite E; split; reflexivity.
Qed.

Lemma getPkmn_setPkmn_negb (s : bool) (pk : Pokemon.t) (g : Game) :
  getPkmn s (setPkmn (negb s) pk g) = getPkmn s g.
Proof. destruct s; reflexivity. Qed.

Lemma map_moveStatic_updateAt (i : nat) (f : Move.t -> Move.t) (l : list Move.t) :
  (forall m, moveStatic (f m) = moveStatic m) ->
  map moveStatic (updateAt i f l) = map moveStatic l.
Proof.
  intros Hf. revert i. induction l as [|a l IH]; intros [|i]; cbn; try reflexivity.
  - rewrite Hf. reflexivity.
  - rewrite IH. reflexivity.
Qed.

Lemma ppSpent_refl (l : list Move.t) : Forall2 ppSpent l l.
Proof. induction l; constructor; [split; [reflexivity|left; reflexivity]|assumption]. Qed.

Lemma ppSpent_updateAt (l : list Move.t) (i : nat) (mv : Move.t) :
  nth_error l i = Some mv -> 0 < Move.pp mv ->
  Forall2 ppSpent l (updateAt i (fun m => Move.setPP (Move.pp m - 1) m) l).
Proof.
  revert i. induction l as [|a l IH]; intros [|i] E P; cbn in *; try discriminate.
  - injection E as ->. constructor; [|apply ppSpent_refl].
    split; [reflexivity|right; split; [exact P|reflexivity]].
  - constructor; [split; [reflexivity|left; reflexivity]|]. apply IH; assumption.
Qed.

Lemma ppSpent_trans_refl (l l' : list Move.t) :
  l' = l -> Forall2 ppSpent l l'.
Proof. intros ->. apply ppSpent_refl. Qed.

(** Hits that stay inside [int]. *)

Lemma variances_In (r : Z) : 85 <= r <= 100 -> In r variances.
Proof.
  intros H. unfold variances. apply in_map_iff.
  exists (Z.to_nat (r - 85)). split; [lia|]. apply in_seq. lia.
Qed.

Lemma hitFits_In (g : Game) (s : bool) (mv : Move.t) (w : World) :
  hitFits g s = true -> In mv (Pokemon.moves (getPkmn s g)) ->
  hitInRange g (getPkmn s g) (getPkmn (negb s) g) mv w = true.
Proof.
  unfold hitFits. intros H HIn.
  rewrite forallb_forall in H.
  specialize (H (Move.power mv) (in_map Move.power _ _ HIn)).
  unfold powerFits in H. rewrite forallb_forall in H.
  assert (R := randInt_range 85 100 w ltac:(lia)).
  specialize (H _ (variances_In _ R)). cbn zeta in H.
  unfold hitInRange, damageInRange, damageOperand.
  rewrite computeDamage_stages. exact H.
Qed.

Lemma hitInRange_bounds (g : Game) (att def : Pokemon.t) (m : Move.t) (w : World) :
  hitInRange g att def m w = true ->
  1 <= fst (computeDamage g att def m w) < INT_MAX.
Proof.
  unfold hitInRange. intros H. apply andb_prop in H. destruct H as [_ H].
  apply Z.ltb_lt in H. assert (P := damage_positive g att def m w). lia.
Qed.

Lemma moveAt_In (ms : list Move.t) (i : Z) (mv : Move.t) :
  moveAt ms i = Some mv -> In mv ms.
Proof. intros M. destruct (moveAt_Some _ _ _ M) as [_ E]. exact (nth_error_In _ _ E). Qed.

Lemma roundEffects_refl (s : bool) (g : Game) : roundEffects s g g.
Proof. repeat split; try lia. apply ppSpent_refl. Qed.

Lemma roundEffects_actor_flag (s : bool) (b : bool) (g g' : Game) :
  roundEffects s g g' ->
  roundEffects s g (setPkmn s (Pokemon.setDefending b (getPkmn s g')) g').
Proof.
  intros (A & B & C & D & E & F).
  destruct (setup_setPkmn s (Pokemon.setDefending b (getPkmn s g')) g' eq_refl) as [A' B'].
  unfold roundEffects.
  rewrite A', B', getPkmn_setPkmn_same, getPkmn_setPkmn_other.
  cbn [Pokemon.setDefending Pokemon.hp Pokemon.moves].
  repeat split; try assumption; apply E; assumption.
Qed.

Lemma roundEffects_decrementPP (s : bool) (i : Z) (mv : Move.t) (g g' : Game) :
  roundEffects s g g' ->
  Pokemon.moves (getPkmn s g') = Pokemon.moves (getPkmn s g) ->
  moveAt (Pokemon.moves (getPkmn s g)) i = Some mv -> 0 < Move.pp mv ->
  roundEffects s g (decrementPP s i g').
Proof.
  intros (A & B & C & D & E & F) Em M P.
  destruct (moveAt_Some _ _ _ M) as [_ En].
  unfold decrementPP.
  set (pk := Pokemon.setMoves _ (getPkmn s g')).
  assert (S : pkmnStatic pk = pkmnStatic (getPkmn s g')).
  { subst pk. unfold pkmnStatic. cbn [Pokemon.setMoves Pokemon.name Pokemon.maxHP
      Pokemon.attack Pokemon.defense Pokemon.x Pokemon.y Pokemon.w Pokemon.h Pokemon.moves].
    rewrite map_moveStatic_updateAt; reflexivity. }
  destruct (setup_setPkmn s pk g' S) as [A' B'].
  unfold roundEffects.
  rewrite A', B', getPkmn_setPkmn_same, getPkmn_setPkmn_other.
  repeat split; try assumption; try (apply E; assumption).
  subst pk. cbn [Pokemon.setMoves Pokemon.moves]. rewrite Em.
  apply (ppSpent_updateAt _ _ mv); assumption.
Qed.

Lemma applyDamage_effects (dmg : Z) (t : Pokemon.t) :
  pkmnStatic (snd (applyDamage dmg t)) = pkmnStatic t
  /\ Pokemon.moves (snd (applyDamage dmg t)) = Pokemon.moves t
  /\ (0 <= dmg < INT_MAX -> 0 <= Pokemon.hp t <= INT_MAX ->
      0 <= Pokemon.hp (snd (applyDamage dmg t)) <= Pokemon.hp t).
Proof.
  split; [|split].
  - unfold applyDamage. destruct (Pokemon.defending t); reflexivity.
  - unfold applyDamage. destruct (Pokemon.defending t); reflexivity.
  - unfold INT_MAX. intros Hd Hh. rewrite applyDamage_spec by lia. cbn [snd].
    assert (D : 0 <= (dmg + 1) / 2) by (apply Z.div_pos; lia).
    destruct (Pokemon.defending t); cbn; lia.
Qed.

Lemma roundEffects_hit (s : bool) (dmg : Z) (g : Game) :
  (hitFits g s = true -> 0 <= dmg < INT_MAX) ->
  roundEffects s g (setPkmn (negb s) (snd (applyDamage dmg (getPkmn (negb s) g))) g)
  /\ Pokemon.moves (getPkmn s (setPkmn (negb s) (snd (applyDamage dmg (getPkmn (negb s) g))) g))
     = Pokemon.moves (getPkmn s g).
Proof.
  intros Hd.
  destruct (applyDamage_effects dmg (getPkmn (negb s) g)) as (S & M & H).
  destruct (setup_setPkmn (negb s) _ g S) as [A B].
  split; [|rewrite getPkmn_setPkmn_negb; reflexivity].
  unfold roundEffects. rewrite A, B, getPkmn_setPkmn_negb, getPkmn_setPkmn_same.
  repeat split; try assumption; try (apply H; auto; fail). apply ppSpent_refl.
Qed.

Lemma roundEffects_resolveMove (g : Game) (s : bool) (chosen i : Z) (mv : Move.t)
    (w : World) (g1 : Game) (w1 : World) :
  moveAt (Pokemon.moves (getPkmn s g)) i = Some mv ->
  resolveMove g s chosen i mv w = Some (g1, w1) ->
  roundEffects s g g1.
Proof.
  intros M. unfold resolveMove.
  destruct (Move.power mv =? 0); destruct (Z.leb_spec (Move.pp mv) 0) as [P|P];
    try (intros R; injection R as <- _; apply roundEffects_refl).
  - intros R. injection R as <- _.
    apply (roundEffects_decrementPP s i mv); try assumption.
    + apply roundEffects_actor_flag, roundEffects_refl.
    + rewrite getPkmn_setPkmn_same. reflexivity.
  - destruct (randInt 1 100 w) as [roll w2].
    destruct (roll >? Move.accuracy mv);
      [intros R; injection R as <- _; apply roundEffects_refl|].
    destruct (highlightOutside s chosen (getPkmn s g)); [discriminate|].
    destruct (fireProjectile s (getPkmn s g) (getPkmn (negb s) g)).
    + assert (D : hitFits g s = true ->
                  0 <= fst (computeDamage g (getPkmn s g) (getPkmn (negb s) g) mv w2)
                  < INT_MAX).
      { intros F.
        assert (B := hitInRange_bounds _ _ _ _ _
                       (hitFits_In g s mv w2 F (moveAt_In _ _ _ M))). lia. }
      destruct (computeDamage g (getPkmn s g) (getPkmn (negb s) g) mv w2) as [dmg w3].
      cbn [fst] in D.
      destruct (roundEffects_hit s dmg g D) as [R Em].
      destruct (applyDamage dmg (getPkmn (negb s) g)) as [dmg' t']. cbn [fst snd] in *.
      intros X. injection X as <- _.
      apply (roundEffects_decrementPP s i mv); assumption.
    + intros X. injection X as <- _.
      apply (roundEffects_decrementPP s i mv); try assumption;
        [apply roundEffects_refl|reflexivity].
Qed.

Lemma roundEffects_clearOwnDefend (g g' : Game) (s : bool) (mv : Move.t) :
  roundEffects s g g' -> roundEffects s g (clearOwnDefend g' s mv).
Proof.
  intros R. unfold clearOwnDefend.
  destruct (Pokemon.defending (getPkmn s g') && (Move.power mv >? 0)); [|exact R].
  apply roundEffects_actor_flag, R.
Qed.

Lemma roundEffects_processAction (g : Game) (s : bool) (c : Z) (w : World)
    (g' : Game) (s' : bool) :
  fst (processAction g s c w) = Again g' s' ->
  roundEffects s g g' /\ s' = negb s.
Proof.
  unfold processAction. destruct (c =? 3).
  - destruct (retreat g s w). discriminate.
  - destruct (negb (c =? -1)).
    + destruct (moveAt (Pokemon.moves (getPkmn s g))
                  (moveIndex (Pokemon.moves (getPkmn s g)) c)) as [mv|] eqn:M;
        [|discriminate].
      destruct (resolveMove g s c (moveIndex (Pokemon.moves (getPkmn s g)) c) mv w)
        as [[g1 w1]|] eqn:R; [|discriminate].
      cbn [fst]. intros E. injection E as <- <-.
      split; [|reflexivity].
      apply roundEffects_clearOwnDefend, (roundEffects_resolveMove _ _ _ _ _ _ _ _ M R).
    + cbn [fst]. intros E. injection E as <- <-.
      split; [apply roundEffects_refl|reflexivity].
Qed.

Lemma roundEffects_turn (g : Game) (s : bool) (w : World) (g' : Game) (s' : bool) :
  fst (turn g s w) = Again g' s' ->
  roundEffects s g g' /\ (s' = s -> g' = g).
Proof.
  unfold turn. destruct (chooseAction g s w) as [[c| |] w1]; cbn [fst]; try discriminate.
  - intros E. destruct (roundEffects_processAction g s c w1 g' s' E) as [R N].
    split; [exact R|]. subst s'. destruct s; discriminate.
  - intros E. injection E as <- <-. split; [apply roundEffects_refl|reflexivity].
Qed.

Lemma turn_passes (g : Game) (s : bool) (w : World) (g' : Game) (s' : bool) :
  fst (turn g s w) = Again g' s' ->
  s' = negb s \/ (s' = s /\ g' = g /\ Player.isHuman (getPlayer s g) = true).
Proof.
  unfold turn, chooseAction.
  destruct (buttons (Player.pkmn (getPlayer s g))) as [btns|]; [|discriminate].
  destruct (Player.isHuman (getPlayer s g)) eqn:H.
  - destruct (WaitForCleanPress w) as [[tx ty] w1].
    destruct (pressed btns tx ty) as [b|].
    + intros E. left. apply (roundEffects_processAction _ _ _ _ _ _ E).
    + cbn [fst]. intros X. injection X as <- <-. right. repeat split.
  - destruct (cpuChoice g (Player.pkmn (getPlayer s g)) w) as [c w1].
    destruct ((0 <=? c) && (c <? Z.of_nat (List.length btns))); [|discriminate].
    intros E. left. apply (roundEffects_processAction _ _ _ _ _ _ E).
Qed.

Lemma roundEffects_retreat (g : Game) (s : bool) (w : World) (g' : Game) :
  fst (turn g s w) = Retreated g' ->
  setup g' = setup g /\ stats g' = stats g
  /\ getPkmn (negb s) g' = getPkmn (negb s) g
  /\ Pokemon.moves (getPkmn s g') = Pokemon.moves (getPkmn s g)
  /\ (Pokemon.hp (getPkmn s g) <= Pokemon.maxHP (getPkmn s g) ->
      Pokemon.hp (getPkmn s g) <= Pokemon.hp (getPkmn s g')).
Proof.
  unfold turn. destruct (chooseAction g s w) as [[c| |] w1]; cbn [fst]; try discriminate.
  unfold processAction. destruct (c =? 3).
  - unfold retreat. intros E. injection E as <-.
    set (pk := Pokemon.setHp _ (getPkmn s g)).
    destruct (setup_setPkmn s pk g eq_refl) as [A B].
    rewrite A, B, getPkmn_setPkmn_same, getPkmn_setPkmn_other.
    repeat split. subst pk. unfold RETREAT_HEAL. cbn [Pokemon.setHp Pokemon.hp].
    intros H.
    destruct (Z.gtb_spec (Pokemon.hp (getPkmn s g) + 8) (Pokemon.maxHP (getPkmn s g))); lia.
  - destruct (negb (c =? -1)); [|discriminate].
    destruct (moveAt _ _); [|discriminate].
    destruct (resolveMove _ _ _ _ _ _) as [[g1 w2]|]; discriminate.
Qed.

(** ** A whole match *)

Lemma setup_clearDefends (g : Game) :
  setup (clearDefends g) = setup g /\ stats (clearDefends g) = stats g
  /\ (forall s, Pokemon.hp (getPkmn s (clearDefends g)) = Pokemon.hp (getPkmn s g))
  /\ (forall s, Pokemon.moves (getPkmn s (clearDefends g)) = Pokemon.moves (getPkmn s g)).
Proof. repeat split; intros [|]; reflexivity. Qed.


Lemma setup_moves_length (g g' : Game) (s : bool) :
  setup g' = setup g ->
  List.length (Pokemon.moves (getPkmn s g')) = List.length (Pokemon.moves (getPkmn s g)).
Proof.
  unfold setup, seatStatic, pkmnStatic. intros E.
  assert (M : map moveStatic (Pokemon.moves (getPkmn s g'))
              = map moveStatic (Pokemon.moves (getPkmn s g))).
  { destruct s; congruence. }
  rewrite <- (length_map moveStatic), M. apply length_map.
Qed.



Lemma battleLoop_frame (fuel : nat) :
  forall (g : Game) (s : bool) (w : World) (e : LoopExit) (w' : World),
    battleLoop fuel g s w = Some (e, w') ->
    match e with
    | Fainted g' | Ran g' => setup g' = setup g /\ stats g' = stats g
    | Crash => True
    end.
Proof.
  induction fuel as [|fuel IH]; intros g s w e w'; cbn [battleLoop];
    destruct (negb (Pokemon.fainted (Player.pkmn (p1 g)))
              && negb (Pokemon.fainted (Player.pkmn (p2 g))));
    try (intros E; injection E as <- <-; split; reflexivity); try discriminate.
  destruct (turn g s w) as [[g1 s1| g1 |] w1] eqn:T; intros L.
  - destruct (roundEffects_turn g s w g1 s1) as [(A & B & _) _];
      [rewrite T; reflexivity|].
    specialize (IH g1 s1 w1 e w' L).
    destruct e as [g'|g'|]; [| |exact I]; destruct IH; split; congruence.
  - injection L as <- <-.
    destruct (roundEffects_retreat g s w g1) as (A & B & _); [rewrite T; reflexivity|].
    split; assumption.
  - injection L as <- <-. exact I.
Qed.

Lemma reportResult_frame (g : Game) (w : World) :
  let g' := fst (reportResult g w) in
  setup g' = setup g
  /\ (forall s, getPkmn s g' = getPkmn s g)
  /\ gamesPlayed g' = gamesPlayed g + 1
  /\ humanWins g <= humanWins g' /\ cpuWins g <= cpuWins g'
  /\ humanWins g' + cpuWins g' <= humanWins g + cpuWins g + 1.
Proof.
  unfold reportResult.
  destruct (Pokemon.fainted (Player.pkmn (p1 g)));
    destruct (Pokemon.fainted (Player.pkmn (p2 g))); cbn [andb];
    try destruct (Player.isHuman (p1 g)); try destruct (Player.isHuman (p2 g));
    cbn; repeat split; try lia; intros [|]; reflexivity.
Qed.




(** ** A session of matches *)

Lemma pkmnStatic_reset (p : Pokemon.t) : pkmnStatic (Pokemon.reset p) = pkmnStatic p.
Proof.
  unfold pkmnStatic, Pokemon.reset. cbn. rewrite map_map. f_equal.
  apply map_ext. intros m. destruct (Move.pp m <? 0); reflexivity.
Qed.

Lemma setup_resetBoth (g : Game) :
  setup (resetBoth g) = setup g /\ stats (resetBoth g) = stats g.
Proof.
  unfold resetBoth.
  destruct (setup_setPkmn true (Pokemon.reset (getPkmn true g)) g (pkmnStatic_reset _))
    as [A B].
  set (g1 := setPkmn true (Pokemon.reset (getPkmn true g)) g) in *.
  destruct (setup_setPkmn false (Pokemon.reset (getPkmn false g)) g1) as [A' B'].
  { rewrite pkmnStatic_reset. destruct g; reflexivity. }
  split; congruence.
Qed.

Lemma runMatch_counts (fuel : nat) (g : Game) (w : World)
    (again : bool) (g' : Game) (w' : World) :
  runMatch fuel g w = Some (Returned again g', w') ->
  setup g' = setup g
  /\ gamesPlayed g <= gamesPlayed g' <= gamesPlayed g + 1
  /\ humanWins g <= humanWins g' /\ cpuWins g <= cpuWins g'
  /\ (humanWins g' + cpuWins g') - (humanWins g + cpuWins g)
     <= gamesPlayed g' - gamesPlayed g
  /\ (again = true -> gamesPlayed g' = gamesPlayed g + 1).
Proof.
  intros R. unfold runMatch in R.
  destruct (battleLoop fuel (clearDefends g) true w) as [[e w1]|] eqn:L; [|discriminate].
  destruct (setup_clearDefends g) as (A0 & B0 & _).
  assert (X := battleLoop_frame fuel _ _ _ _ _ L).
  destruct e as [g1|g1|]; cbn [finishMatch] in R; [| |discriminate].
  - destruct X as (A & B).
    destruct (reportResult_frame g1 w1) as (A1 & _ & G1 & H1 & C1 & S1).
    destruct (reportResult g1 w1) as [g2 w2]. cbn [fst] in *.
    destruct (askReplay w2) as [ag w3]. injection R as E1 E2 E3. subst again g' w'.
    assert (SG : stats g1 = stats g) by congruence.
    unfold stats in SG. injection SG as SG1 SG2 SG3.
    split; [congruence|]. repeat split; intros; lia.
  - destruct X as (A & B). injection R as E1 E2 E3. subst again g' w'.
    assert (SG : stats g1 = stats g) by congruence.
    unfold stats in SG. injection SG as SG1 SG2 SG3.
    split; [congruence|]. repeat split; intros; try lia; discriminate.
Qed.



(** [intSafe] only depends on what a match never changes. *)

Lemma setup_fields (g g' : Game) (s : bool) :
  setup g' = setup g ->
  difficulty g' = difficulty g
  /\ Pokemon.maxHP (getPkmn s g') = Pokemon.maxHP (getPkmn s g)
  /\ Pokemon.attack (getPkmn s g') = Pokemon.attack (getPkmn s g)
  /\ Pokemon.defense (getPkmn s g') = Pokemon.defense (getPkmn s g)
  /\ map Move.power (Pokemon.moves (getPkmn s g'))
     = map Move.power (Pokemon.moves (getPkmn s g)).
Proof.
  unfold setup, seatStatic. intros E.
  assert (D : difficulty g' = difficulty g) by congruence.
  assert (P : pkmnStatic (getPkmn s g') = pkmnStatic (getPkmn s g))
    by (destruct s; congruence).
  split; [exact D|]. unfold pkmnStatic in P.
  split; [exact (f_equal (fun x => snd (fst (fst (fst (fst x))))) P)|].
  split; [exact (f_equal (fun x => snd (fst (fst (fst x)))) P)|].
  split; [exact (f_equal (fun x => snd (fst (fst x))) P)|].
  assert (M := f_equal (fun x => map (fun st : string * Z * Z => snd (fst st)) (snd x)) P).
  cbn [snd] in M. rewrite !map_map in M. exact M.
Qed.

Lemma hitFits_setup (g g' : Game) (s : bool) :
  setup g' = setup g -> hitFits g' s = hitFits g s.
Proof.
  intros E. unfold hitFits.
  destruct (setup_fields g g' s E) as (D & _ & A & _ & M).
  destruct (setup_fields g g' (negb s) E) as (_ & _ & _ & F & _).
  rewrite D, A, F, M. reflexivity.
Qed.

Lemma intSafe_setup (g g' : Game) :
  setup g' = setup g -> intSafe g -> intSafe g'.
Proof.
  intros E [H F]. split; intros s.
  - destruct (setup_fields g g' s E) as (_ & M & _). rewrite M. apply H.
  - rewrite (hitFits_setup g g' s E). apply F.
Qed.

(** The invariant is kept by every round, by a whole match and by the
    reset before a rematch. *)

Lemma wellFormed_resolveMove (g : Game) (s : bool) (chosen i : Z) (mv : Move.t)
    (w : World) (g1 : Game) (w1 : World) :
  wellFormed g -> intSafe g ->
  moveAt (Pokemon.moves (getPkmn s g)) i = Some mv ->
  resolveMove g s chosen i mv w = Some (g1, w1) ->
  wellFormed g1.
Proof.
  intros W [Hm Hf] M. unfold resolveMove.
  destruct (Move.power mv =? 0); destruct (Z.leb_spec (Move.pp mv) 0) as [P|P];
    try (intros R; injection R as <- _; exact W).
  - intros R. injection R as <- _.
    apply (wellFormed_decrementPP s i mv); [|destruct s; exact M|exact P].
    apply wellFormed_setPkmn; [exact W|].
    apply healthy_setDefending, wellFormed_get, W.
  - destruct (randInt 1 100 w) as [roll w2].
    destruct (roll >? Move.accuracy mv); [intros R; injection R as <- _; exact W|].
    destruct (highlightOutside s chosen (getPkmn s g)); [discriminate|].
    destruct (fireProjectile s (getPkmn s g) (getPkmn (negb s) g)).
    + assert (D := hitInRange_bounds _ _ _ _ _
                     (hitFits_In g s mv w2 (Hf s) (moveAt_In _ _ _ M))).
      destruct (computeDamage g (getPkmn s g) (getPkmn (negb s) g) mv w2) as [dmg w3].
      cbn [fst] in D.
      assert (Hm' : Pokemon.maxHP (getPkmn (negb s) g) <= INT_MAX).
      { specialize (Hm (negb s)). unfold RETREAT_HEAL in Hm. lia. }
      assert (H := applyDamage_healthy dmg (getPkmn (negb s) g) ltac:(lia)
                     (wellFormed_get _ _ W) Hm').
      destruct (applyDamage dmg (getPkmn (negb s) g)) as [dmg' t']. cbn [fst snd] in *.
      intros R. injection R as <- _.
      apply (wellFormed_decrementPP s i mv); [|destruct s; exact M|exact P].
      apply wellFormed_setPkmn; assumption.
    + intros R. injection R as <- _.
      apply (wellFormed_decrementPP s i mv); assumption.
Qed.

Lemma wellFormed_turn (g : Game) (s : bool) (w : World) :
  wellFormed g -> intSafe g ->
  match fst (turn g s w) with
  | Again g' _ | Retreated g' => wellFormed g'
  | Undefined => True
  end.
Proof.
  intros W S. unfold turn.
  destruct (chooseAction g s w) as [[c| |] w1]; cbn [fst]; [|exact W|exact I].
  unfold processAction.
  destruct (c =? 3).
  - assert (H := wellFormed_retreat g s w1 W).
    destruct (retreat g s w1). exact H.
  - destruct (negb (c =? -1)); [|exact W].
    destruct (moveAt (Pokemon.moves (getPkmn s g))
                (moveIndex (Pokemon.moves (getPkmn s g)) c)) as [mv|] eqn:M; [|exact I].
    destruct (resolveMove g s c (moveIndex (Pokemon.moves (getPkmn s g)) c) mv w1)
      as [[g1 w2]|] eqn:R; [|exact I].
    cbn [fst]. apply wellFormed_clearOwnDefend.
    exact (wellFormed_resolveMove _ _ _ _ _ _ _ _ W S M R).
Qed.

Lemma wellFormed_battleLoop (fuel : nat) :
  forall (g : Game) (s : bool) (w : World),
    wellFormed g -> intSafe g ->
    match battleLoop fuel g s w with
    | Some (Fainted g', _) | Some (Ran g', _) => wellFormed g'
    | _ => True
    end.
Proof.
  induction fuel as [|fuel IH]; intros g s w W S; cbn [battleLoop];
    destruct (negb (Pokemon.fainted (Player.pkmn (p1 g)))
              && negb (Pokemon.fainted (Player.pkmn (p2 g)))); try exact W; try exact I.
  assert (H := wellFormed_turn g s w W S).
  destruct (turn g s w) as [[g1 s1| g1 |] w1] eqn:T; cbn [fst] in H.
  - destruct (roundEffects_turn g s w g1 s1) as [(A & _) _]; [rewrite T; reflexivity|].
    apply IH; [exact H | exact (intSafe_setup _ _ A S)].
  - exact H.
  - exact I.
Qed.

Lemma wellFormed_clearDefends (g : Game) : wellFormed g -> wellFormed (clearDefends g).
Proof. intros [H1 H2]. split; assumption. Qed.

Lemma wellFormed_resetBoth (g : Game) : wellFormed g -> wellFormed (resetBoth g).
Proof.
  intros [[H1 _] [H2 _]]. unfold resetBoth. split.
  - cbn. apply reset_healthy. cbn in *. lia.
  - cbn. apply reset_healthy. cbn in *. lia.
Qed.

Lemma wellFormed_runMatch (fuel : nat) (g : Game) (w : World)
    (again : bool) (g' : Game) (w' : World) :
  wellFormed g -> intSafe g ->
  runMatch fuel g w = Some (Returned again g', w') -> wellFormed g'.
Proof.
  intros W S R. unfold runMatch in R.
  destruct (setup_clearDefends g) as (A0 & _).
  assert (X := wellFormed_battleLoop fuel (clearDefends g) true w
                 (wellFormed_clearDefends g W) (intSafe_setup _ _ A0 S)).
  destruct (battleLoop fuel (clearDefends g) true w) as [[e w1]|]; [|discriminate].
  destruct e as [g1|g1|]; cbn [finishMatch] in R; [| |discriminate].
  - destruct (reportResult_frame g1 w1) as (_ & P & _).
    destruct (reportResult g1 w1) as [g2 w2]. cbn [fst] in *.
    destruct (askReplay w2) as [ag w3]. injection R as E1 E2 E3. subst again g' w'.
    destruct X as [X1 X2]. split; rewrite P; assumption.
  - injection R as E1 E2 E3. subst again g' w'. exact X.
Qed.

Lemma wellFormed_playMatches :
  forall (matches fuel : nat) (g : Game) (w : World)
         (again : bool) (g' : Game) (w' : World),
    wellFormed g -> intSafe g ->
    playMatches matches fuel g w = Some (Returned again g', w') ->
    wellFormed g' /\ intSafe g'.
Proof.
  induction matches as [|matches IH]; intros fuel g w again g' w' W S; cbn [playMatches];
    [discriminate|].
  destruct (runMatch fuel g w) as [[[ag g1|] w1]|] eqn:R; try discriminate.
  assert (W1 := wellFormed_runMatch _ _ _ _ _ _ W S R).
  destruct (runMatch_counts _ _ _ _ _ _ R) as (A & _).
  assert (S1 := intSafe_setup _ _ A S).
  destruct ag.
  - apply IH; [apply wellFormed_resetBoth, W1|].
    destruct (setup_resetBoth g1) as [A1 _]. exact (intSafe_setup _ _ A1 S1).
  - intros P. injection P as E1 E2 E3. subst again g' w'. split; assumption.
Qed.

(** X16.  Health within 0 and the maximum and no negative PP: when this
    holds for both combatants as a session of matches starts, and the
    stats keep the arithmetic on health inside [int] (both maxima are at
    most [INT_MAX - 8], and for every move and variance the damage is
    converted inside [int] and is below [INT_MAX]), it holds when the
    session comes back to the menu, whatever the players and the dice did
    in between; and the condition on the stats still holds then. *)
Theorem session_keeps_health_and_pp_in_range :
  forall (matches fuel : nat) (g : Game) (w : World)
         (again : bool) (g' : Game) (w' : World),
    wellFormed g -> intSafe g ->
    playMatches matches fuel g w = Some (Returned again g', w') ->
    wellFormed g' /\ intSafe g'.
Proof. exact wellFormed_playMatches. Qed.

Lemma session_keeps_health_and_pp_in_range_witness :
  exists (again : bool) (g' : Game) (w' : World),
    (wellFormed (sampleGame 0) /\ intSafe (sampleGame 0))
    /\ playMatches 2 30 (sampleGame 0)
         (worldOf [] [(10, 150); (10, 150); (170, 150); (10, 150); (10, 10); (170, 200)])
       = Some (Returned again g', w')
    /\ wellFormed g'.
Proof.
  eexists. eexists. eexists.
  split; [split; [apply sampleGame_wellFormed | apply sampleGame_intSafe]|].
  split; [vm_compute; reflexivity|].
  refine (proj1 (session_keeps_health_and_pp_in_range 2 30 (sampleGame 0)
            (worldOf [] [(10, 150); (10, 150); (170, 150); (10, 150); (10, 10); (170, 200)])
            _ _ _ (sampleGame_wellFormed 0) sampleGame_intSafe _)).
  vm_compute. reflexivity.
Defined.

(** ** The projectile *)

Lemma projectile_S (fuel : nat) (dir x y : Z) (t : Pokemon.t) :
  projectile (S fuel) dir x y t
  = if (x >? 0) && (x <? SCREEN_W) then
      if overlap x y t then true
      else projectile fuel dir (x + dir * PROJECTILE_STEP_PX) y t
    else false.
Proof. reflexivity. Qed.

Lemma projAt_0 (dir x : Z) : projAt dir x 0 = x.
Proof. unfold projAt. cbn. lia. Qed.

Lemma projAt_S (dir x : Z) (k : nat) :
  projAt dir x (S k) = projAt dir (x + dir * PROJECTILE_STEP_PX) k.
Proof. unfold projAt. lia. Qed.

Lemma endsAfter_now (dir x y : Z) (t : Pokemon.t) :
  onScreen x = false \/ overlap x y t = true -> endsAfter dir x y t 0.
Proof.
  intros H. unfold endsAfter. rewrite projAt_0.
  split; [intros k Hk; lia|]. split; [exact H|].
  intros [|fuel] Hf; [lia|]. rewrite projectile_S. fold (onScreen x).
  destruct H as [H|H]; rewrite H; [reflexivity|].
  destruct (onScreen x); reflexivity.
Qed.

Lemma endsAfter_step (dir x y : Z) (t : Pokemon.t) (n : nat) :
  onScreen x = true -> overlap x y t = false ->
  endsAfter dir (x + dir * PROJECTILE_STEP_PX) y t n ->
  endsAfter dir x y t (S n).
Proof.
  intros On Ov (A & B & C). unfold endsAfter. rewrite projAt_S.
  split; [|split; [exact B|]].
  - intros [|k] Hk; [rewrite projAt_0; split; assumption|].
    rewrite projAt_S. apply A. lia.
  - intros [|fuel] Hf; [lia|]. rewrite projectile_S. fold (onScreen x).
    rewrite On, Ov. apply C. lia.
Qed.

(** Every round brings the projectile 6 pixels closer to the edge of the
    screen it flies to. *)
Lemma projectile_ends (dir : Z) (y : Z) (t : Pokemon.t) :
  dir = 1 \/ dir = -1 ->
  forall (d : nat) (x : Z),
    (if dir =? 1 then SCREEN_W - x else x) <= 6 * Z.of_nat d ->
    exists n : nat, (n <= d)%nat /\ endsAfter dir x y t n.
Proof.
  intros Hdir. induction d as [|d IH]; intros x Hx.
  - exists 0%nat. split; [lia|]. apply endsAfter_now. left.
    unfold onScreen, SCREEN_W in *.
    destruct Hdir as [-> | ->]; cbn [Z.eqb Pos.eqb] in Hx.
    + destruct (Z.ltb_spec x 320); [lia|]. apply andb_false_r.
    + destruct (Z.gtb_spec x 0); [lia|]. reflexivity.
  - destruct (onScreen x) eqn:On; [|exists 0%nat; split; [lia|];
                                      apply endsAfter_now; left; exact On].
    destruct (overlap x y t) eqn:Ov; [exists 0%nat; split; [lia|];
                                       apply endsAfter_now; right; exact Ov|].
    destruct (IH (x + dir * PROJECTILE_STEP_PX)) as (n & Hn & E).
    { unfold PROJECTILE_STEP_PX.
      destruct Hdir as [-> | ->]; cbn [Z.eqb Pos.eqb] in *; lia. }
    exists (S n). split; [lia|]. apply endsAfter_step; assumption.
Qed.

(** X7.  The projectile loop always comes to an end, within 54 rounds:
    whatever the positions and sizes of the two sprites, there is a number
    [n <= 54] of rounds in which the projectile is on the screen and does
    not meet the target, after which the test of the loop fails or the
    round hits; [hit] is then [true] exactly in the second case, and this
    is the value that 320 rounds of fuel (or any number above [n]) give. *)
Theorem projectile_loop_terminates :
  forall (p1Turn : bool) (actor target : Pokemon.t),
    let dir := if p1Turn then 1 else -1 in
    let projX := Pokemon.x actor + (if p1Turn then Pokemon.w actor else -8) in
    let projY := Pokemon.y actor + Z.quot (Pokemon.h actor) 2 in
    exists n : nat,
      (n <= 54)%nat
      /\ (forall k : nat, (k < n)%nat ->
            onScreen (projAt dir projX k) = true
            /\ overlap (projAt dir projX k) projY target = false)
      /\ (onScreen (projAt dir projX n) = false
          \/ overlap (projAt dir projX n) projY target = true)
      /\ (forall fuel : nat, (n < fuel)%nat ->
            projectile fuel dir projX projY target
            = onScreen (projAt dir projX n) && overlap (projAt dir projX n) projY target)
      /\ fireProjectile p1Turn actor target
         = onScreen (projAt dir projX n) && overlap (projAt dir projX n) projY target.
Proof.
  intros p1Turn actor target dir projX projY.
  assert (Hdir : dir = 1 \/ dir = -1) by (subst dir; destruct p1Turn; [left|right]; reflexivity).
  assert (E : exists n : nat, (n <= 54)%nat /\ endsAfter dir projX projY target n).
  { destruct (onScreen projX) eqn:On.
    - apply (projectile_ends dir projY target Hdir 54 projX).
      unfold onScreen, SCREEN_W in *. apply andb_prop in On. destruct On as [G L].
      apply Z.gtb_lt in G. apply Z.ltb_lt in L.
      destruct Hdir as [-> | ->]; cbn [Z.eqb Pos.eqb]; lia.
    - exists 0%nat. split; [lia|]. apply endsAfter_now. left. exact On. }
  destruct E as (n & Hn & A & B & C).
  exists n. split; [exact Hn|]. split; [exact A|]. split; [exact B|]. split; [exact C|].
  unfold fireProjectile. fold projX projY dir. apply C.
  change (Z.to_nat SCREEN_W) with 320%nat. lia.
Qed.

Lemma projectile_loop_terminates_witness :
  exists n : nat,
    (n <= 54)%nat
    /\ fireProjectile true (getPkmn true (sampleGame 0)) (getPkmn false (sampleGame 0))
       = onScreen (projAt 1 88 n)
         && overlap (projAt 1 88 n) 84 (getPkmn false (sampleGame 0)).
Proof.
  destruct (projectile_loop_terminates true (getPkmn true (sampleGame 0))
              (getPkmn false (sampleGame 0))) as (n & Hn & _ & _ & _ & F).
  exists n. split; [exact Hn | exact F].
Defined.





(** ** Selecting an action *)

Lemma hardBest_in_range (ms : list Move.t) :
  ms <> [] -> (hardBest ms < List.length ms)%nat.
Proof.
  intros H. destruct ms as [|m0 ms']; [congruence|].
  destruct (hardBest_prefix (m0 :: ms') m0 eq_refl (List.length (m0 :: ms')) ltac:(lia))
    as (mb & Eb & _).
  apply nth_error_Some. unfold hardBest. congruence.
Qed.

Lemma cpuChoice_range (g : Game) (a : Pokemon.t) (w : World) :
  List.length (Pokemon.moves a) = 3%nat ->
  0 <= fst (cpuChoice g a w) <= 3.
Proof.
  intros L. unfold cpuChoice.
  destruct (randInt 1 100 w) as [r w1].
  destruct (difficulty g =? 0).
  - cbn [fst]. destruct (r <=? 35); [lia|]. destruct (r <=? 70); [lia|].
    destruct (r <=? 85); lia.
  - destruct (randInt 1 100 w1) as [r2 w2]. cbn [fst].
    assert (H : (hardBest (Pokemon.moves a) < List.length (Pokemon.moves a))%nat).
    { apply hardBest_in_range. destruct (Pokemon.moves a); [discriminate|congruence]. }
    destruct (r2 <=? 85); lia.
Qed.

Lemma buttons_three (a : Pokemon.t) :
  List.length (Pokemon.moves a) = 3%nat ->
  exists l0 l1 l2,
    buttons a = Some [ Btn.mk BBTN_LEFT_X (getY 0) BBTN_W BBTN_H l0 0;
                       Btn.mk BBTN_RIGHT_X (getY 0) BBTN_W BBTN_H l1 1;
                       Btn.mk BBTN_LEFT_X (getY 1) BBTN_W BBTN_H l2 2;
                       Btn.mk BBTN_RIGHT_X (getY 1) BBTN_W BBTN_H "RUN" 3 ].
Proof.
  intros L. unfold buttons, moveLabel.
  destruct (Pokemon.moves a) as [|m0 [|m1 [|m2 [|m3 ms]]]]; try discriminate.
  cbn [nth_error]. eauto.
Qed.

(** X9.  With the three moves of a roster creature the four buttons
    exist, and a human touch selects as the screen shows: move 1 in the
    top-left rectangle, move 2 top-right, move 3 bottom-left, RUN
    bottom-right (borders included, the rectangles do not meet).  A touch
    anywhere else selects nothing, and the round then ends with the game
    unchanged and the same seat to act: only the touch was consumed. *)
Theorem human_touch_selects_the_button_shown :
  forall (g : Game) (p1Turn : bool) (w : World),
    Player.isHuman (getPlayer p1Turn g) = true ->
    List.length (Pokemon.moves (getPkmn p1Turn g)) = 3%nat ->
    let tx := fst (touchSeq w (touchPos w)) in
    let ty := snd (touchSeq w (touchPos w)) in
    let left := (6 <=? tx) && (tx <=? 158) in
    let right := (164 <=? tx) && (tx <=? 316) in
    let top := (142 <=? ty) && (ty <=? 190) in
    let bottom := (196 <=? ty) && (ty <=? 244) in
    chooseAction g p1Turn w
    = ((if left && top then Chosen 0
        else if right && top then Chosen 1
        else if left && bottom then Chosen 2
        else if right && bottom then Chosen 3
        else NothingPressed),
       snd (WaitForCleanPress w))
    /\ (negb ((left || right) && (top || bottom)) = true ->
        turn g p1Turn w = (Again g p1Turn, snd (WaitForCleanPress w))).
Proof.
  intros g s w H L tx ty left right top bottom.
  assert (C : chooseAction g s w
    = ((if left && top then Chosen 0
        else if right && top then Chosen 1
        else if left && bottom then Chosen 2
        else if right && bottom then Chosen 3
        else NothingPressed),
       snd (WaitForCleanPress w))).
  { unfold chooseAction. fold (getPkmn s g).
    destruct (buttons_three (getPkmn s g) L) as (l0 & l1 & l2 & B).
    rewrite B, H. unfold WaitForCleanPress. cbn [snd].
    destruct (touchSeq w (touchPos w)) as [x y] eqn:T.
    subst tx ty left right top bottom. cbn [fst snd].
    unfold pressed. cbn [find Btn.x Btn.y Btn.w Btn.h Btn.id].
    unfold getY. unfold BBTN_RIGHT_X. unfold BBTN_LEFT_X, BBTN_W, BBTN_H, BBTN_START_Y, BBTN_GAP.
    change (6 + 152 + 6 + 152) with 316. change (6 + 152 + 6) with 164.
    change (6 + 152) with 158. change (142 + 0 * (48 + 6) + 48) with 190.
    change (142 + 0 * (48 + 6)) with 142. change (142 + 1 * (48 + 6) + 48) with 244.
    change (142 + 1 * (48 + 6)) with 196.
    rewrite !Z.geb_leb.
    destruct (6 <=? x); destruct (x <=? 158); destruct (164 <=? x);
      destruct (x <=? 316); destruct (142 <=? y); destruct (y <=? 190);
      destruct (196 <=? y); destruct (y <=? 244); reflexivity. }
  split; [exact C|].
  intros Out. unfold turn. rewrite C.
  destruct left; destruct right; destruct top; destruct bottom;
    try discriminate; reflexivity.
Qed.

Lemma human_touch_selects_the_button_shown_witness :
  (Player.isHuman (getPlayer true (sampleGame 0)) = true
   /\ List.length (Pokemon.moves (getPkmn true (sampleGame 0))) = 3%nat)
  /\ chooseAction (sampleGame 0) true (worldOf [] [(200, 160)])
     = (Chosen 1, snd (WaitForCleanPress (worldOf [] [(200, 160)]))).
Proof.
  assert (H : Player.isHuman (getPlayer true (sampleGame 0)) = true
              /\ List.length (Pokemon.moves (getPkmn true (sampleGame 0))) = 3%nat)
    by (split; reflexivity).
  split; [exact H|]. destruct H as [A B].
  exact (proj1 (human_touch_selects_the_button_shown (sampleGame 0) true
                  (worldOf [] [(200, 160)]) A B)).
Defined.

Lemma chooseAction_safe (g : Game) (s : bool) (w : World) :
  List.length (Pokemon.moves (getPkmn s g)) = 3%nat ->
  match fst (chooseAction g s w) with
  | Chosen c => 0 <= c <= 3
  | NothingPressed => True
  | BadAccess => False
  end.
Proof.
  intros L. unfold chooseAction. fold (getPkmn s g).
  destruct (buttons_three (getPkmn s g) L) as (l0 & l1 & l2 & B). rewrite B.
  destruct (Player.isHuman (getPlayer s g)).
  - destruct (WaitForCleanPress w) as [[tx ty] w1].
    destruct (pressed _ tx ty) as [b|] eqn:P; cbn [fst]; [|exact I].
    apply find_some in P. destruct P as [HIn _].
    cbn [List.In] in HIn. destruct HIn as [<-|[<-|[<-|[<-|[]]]]]; cbn; lia.
  - assert (R := cpuChoice_range g (getPkmn s g) w L).
    destruct (cpuChoice g (getPkmn s g) w) as [c w1]. cbn [fst] in R.
    cbn [List.length].
    destruct (Z.leb_spec 0 c); [|lia]. destruct (Z.ltb_spec c (Z.of_nat 4)); [|lia].
    cbn [andb fst]. exact R.
Qed.

Lemma turn_safe (g : Game) (s : bool) (w : World) :
  List.length (Pokemon.moves (getPkmn s g)) = 3%nat ->
  fst (turn g s w) <> Undefined.
Proof.
  intros L. assert (C := chooseAction_safe g s w L). unfold turn.
  destruct (chooseAction g s w) as [[c| |] w1]; cbn [fst] in *;
    [|discriminate|contradiction].
  unfold processAction. destruct (c =? 3).
  - destruct (retreat g s w1). discriminate.
  - destruct (negb (c =? -1)); [|discriminate].
    destruct (moveAt_in_range (Pokemon.moves (getPkmn s g))
                (moveIndex (Pokemon.moves (getPkmn s g)) c)) as [mv M].
    { unfold moveIndex. rewrite L.
      destruct (Z.geb_spec c (Z.of_nat 3)); lia. }
    rewrite M.
    assert (D := resolveMove_defined g s c
                   (moveIndex (Pokemon.moves (getPkmn s g)) c) mv w1 ltac:(lia)).
    destruct (resolveMove g s c (moveIndex (Pokemon.moves (getPkmn s g)) c) mv w1)
      as [[g1 w2]|]; [discriminate | congruence].
Qed.

Lemma battleLoop_safe (fuel : nat) :
  forall (g : Game) (s : bool) (w : World),
    List.length (Pokemon.moves (getPkmn true g)) = 3%nat ->
    List.length (Pokemon.moves (getPkmn false g)) = 3%nat ->
    forall w', battleLoop fuel g s w <> Some (Crash, w').
Proof.
  induction fuel as [|fuel IH]; intros g s w L1 L2 w'; cbn [battleLoop];
    destruct (negb (Pokemon.fainted (Player.pkmn (p1 g)))
              && negb (Pokemon.fainted (Player.pkmn (p2 g))));
    try discriminate.
  assert (S := turn_safe g s w ltac:(destruct s; assumption)).
  destruct (turn g s w) as [[g1 s1| g1 |] w1] eqn:T; cbn [fst] in S;
    [|discriminate|congruence].
  destruct (roundEffects_turn g s w g1 s1) as [(A & _) _]; [rewrite T; reflexivity|].
  apply IH; rewrite (setup_moves_length g g1 _ A); assumption.
Qed.

(** X10.  When both creatures have three moves, as every creature of the
    roster has, a match never reads outside a vector, whoever plays,
    whatever is touched and whatever the dice give: no button label, no
    highlighted button and no move is looked up out of range, for any
    number of rounds. *)
Theorem match_never_reads_outside_a_vector :
  forall (fuel : nat) (g : Game) (w w' : World),
    List.length (Pokemon.moves (getPkmn true g)) = 3%nat ->
    List.length (Pokemon.moves (getPkmn false g)) = 3%nat ->
    runMatch fuel g w <> Some (Crashed, w').
Proof.
  intros fuel g w w' L1 L2. unfold runMatch.
  assert (S := battleLoop_safe fuel (clearDefends g) true w L1 L2).
  destruct (battleLoop fuel (clearDefends g) true w) as [[e w1]|]; [|discriminate].
  destruct e as [g1|g1|].
  - cbn [finishMatch]. destruct (reportResult g1 w1) as [g2 w2].
    destruct (askReplay w2). discriminate.
  - discriminate.
  - exfalso. apply (S w1). reflexivity.
Qed.

Lemma match_never_reads_outside_a_vector_witness :
  (List.length (Pokemon.moves (getPkmn true (tiredGame 1))) = 3%nat
   /\ List.length (Pokemon.moves (getPkmn false (tiredGame 1))) = 3%nat)
  /\ runMatch 5 (tiredGame 1) (worldOf [] [(10, 150)])
     <> Some (Crashed, worldOf [] []).
Proof.
  split; [split; reflexivity|].
  exact (match_never_reads_outside_a_vector 5 (tiredGame 1) (worldOf [] [(10, 150)])
           (worldOf [] []) eq_refl eq_refl).
Defined.

(** ** The three ways a move with PP resolves *)

(** X11.  A utility move (power 0) that still has PP puts the actor on
    guard: its defending flag is set, the PP of that move is exactly one
    less afterwards while its name, power and accuracy and all the other
    moves are what they were, no health changes, the other seat and the
    counters are untouched, no random value is drawn, the line
    "<name> used <move>! Defending..." is written and the turn passes. *)
Theorem utility_move_sets_the_guard :
  forall (g : Game) (p1Turn : bool) (chosen : Z) (mv : Move.t) (w : World),
    chosen <> 3 -> chosen <> -1 ->
    let ms := Pokemon.moves (getPkmn p1Turn g) in
    let mIdx := moveIndex ms chosen in
    moveAt ms mIdx = Some mv ->
    Move.power mv = 0 ->
    0 < Move.pp mv ->
    exists g' : Game,
      processAction g p1Turn chosen w
      = (Again g' (negb p1Turn),
         WriteLine (Pokemon.name (getPkmn p1Turn g) ++ " used " ++ Move.name mv
                    ++ "! Defending...")%string w)
      /\ Pokemon.defending (getPkmn p1Turn g') = true
      /\ Pokemon.hp (getPkmn p1Turn g') = Pokemon.hp (getPkmn p1Turn g)
      /\ List.length (Pokemon.moves (getPkmn p1Turn g')) = List.length ms
      /\ (exists mv' : Move.t,
            moveAt (Pokemon.moves (getPkmn p1Turn g')) mIdx = Some mv'
            /\ Move.pp mv' = Move.pp mv - 1
            /\ Move.name mv' = Move.name mv
            /\ Move.power mv' = Move.power mv
            /\ Move.accuracy mv' = Move.accuracy mv)
      /\ (forall j : Z,
            j <> mIdx -> moveAt (Pokemon.moves (getPkmn p1Turn g')) j = moveAt ms j)
      /\ getPlayer (negb p1Turn) g' = getPlayer (negb p1Turn) g
      /\ stats g' = stats g.
Proof.
  intros g s chosen mv w N3 N1 ms mIdx M P PP.
  assert (R : resolveMove g s chosen mIdx mv w
              = Some (decrementPP s mIdx
                        (setPkmn s (Pokemon.setDefending true (getPkmn s g)) g),
                      WriteLine (Pokemon.name (getPkmn s g) ++ " used " ++ Move.name mv
                                 ++ "! Defending...")%string w)).
  { unfold resolveMove. rewrite P. cbn [Z.eqb].
    destruct (Z.leb_spec (Move.pp mv) 0); [lia|]. reflexivity. }
  eexists. split; [exact (processAction_resolved g s chosen mv w _ _ N3 N1 M R)|].
  destruct (moves_after_decrement ms mIdx mv M) as (L & X & O).
  assert (CO : forall g0 : Game, clearOwnDefend g0 s mv = g0).
  { intros g0. unfold clearOwnDefend. rewrite P. cbn [Z.gtb Z.compare].
    destruct (Pokemon.defending (getPkmn s g0)); reflexivity. }
  rewrite CO.
  unfold decrementPP. rewrite !getPkmn_setPkmn_same.
  cbn [Pokemon.setMoves Pokemon.setDefending Pokemon.defending Pokemon.hp Pokemon.moves].
  fold ms.
  split; [reflexivity|]. split; [reflexivity|]. split; [exact L|].
  split; [exact X|]. split; [exact O|].
  split; destruct s; reflexivity.
Qed.

Lemma utility_move_sets_the_guard_witness :
  (2 <> 3 /\ 2 <> -1
   /\ moveAt (Pokemon.moves (getPkmn true (sampleGame 0)))
        (moveIndex (Pokemon.moves (getPkmn true (sampleGame 0))) 2)
      = Some (Move.mk "Growl" 0 100 25)
   /\ Move.power (Move.mk "Growl" 0 100 25) = 0
   /\ 0 < Move.pp (Move.mk "Growl" 0 100 25))
  /\ exists g' : Game,
       processAction (sampleGame 0) true 2 (worldOf [] [])
       = (Again g' false,
          WriteLine "Pikachu used Growl! Defending..." (worldOf [] []))
       /\ Pokemon.defending (getPkmn true g') = true
       /\ exists mv' : Move.t,
            moveAt (Pokemon.moves (getPkmn true g')) 2 = Some mv'
            /\ Move.pp mv' = 24.
Proof.
  assert (H : 2 <> 3 /\ 2 <> -1
     /\ moveAt (Pokemon.moves (getPkmn true (sampleGame 0)))
          (moveIndex (Pokemon.moves (getPkmn true (sampleGame 0))) 2)
        = Some (Move.mk "Growl" 0 100 25)
     /\ Move.power (Move.mk "Growl" 0 100 25) = 0
     /\ 0 < Move.pp (Move.mk "Growl" 0 100 25)).
  { repeat split; try lia; try reflexivity. }
  split; [exact H|]. destruct H as (N3 & N1 & M & P & PP).
  destruct (utility_move_sets_the_guard (sampleGame 0) true 2 (Move.mk "Growl" 0 100 25)
              (worldOf [] []) N3 N1 M P PP)
    as (g' & E & D & _ & _ & (mv' & M' & PP' & _) & _).
  exists g'. split; [exact E|]. split; [exact D|].
  exists mv'. split; [exact M' | exact PP'].
Defined.

Lemma computeDamage_world (g : Game) (att def : Pokemon.t) (m : Move.t) (w : World) :
  snd (computeDamage g att def m w) = snd (randInt 85 100 w).
Proof. unfold computeDamage. destruct (randInt 85 100 w). reflexivity. Qed.

Lemma applyDamage_result (dmg : Z) (t : Pokemon.t) :
  0 <= dmg < INT_MAX -> 0 <= Pokemon.hp t <= INT_MAX ->
  let taken := if Pokemon.defending t then (dmg + 1) / 2 else dmg in
  fst (applyDamage dmg t) = taken
  /\ Pokemon.hp (snd (applyDamage dmg t)) = Z.max 0 (Pokemon.hp t - taken)
  /\ Pokemon.defending (snd (applyDamage dmg t)) = false.
Proof.
  intros D H taken. subst taken. unfold INT_MAX in *.
  rewrite applyDamage_spec by lia. cbn [fst snd].
  destruct (Pokemon.defending t) eqn:E; cbn; rewrite ?E; repeat split.
Qed.

Lemma resolveMove_hit (g : Game) (s : bool) (chosen i : Z) (mv : Move.t) (w : World) :
  0 <= chosen < 4 ->
  Move.power mv <> 0 -> 0 < Move.pp mv ->
  fst (randInt 1 100 w) <= Move.accuracy mv ->
  fireProjectile s (getPkmn s g) (getPkmn (negb s) g) = true ->
  let dw := computeDamage g (getPkmn s g) (getPkmn (negb s) g) mv (snd (randInt 1 100 w)) in
  let dt := applyDamage (fst dw) (getPkmn (negb s) g) in
  resolveMove g s chosen i mv w
  = Some (decrementPP s i (setPkmn (negb s) (snd dt) g),
          WriteLine ("Hit for " ++ to_string (fst dt) ++ " dmg")%string
            (WriteLine (Pokemon.name (getPkmn s g) ++ " used " ++ Move.name mv ++ "!")%string
               (snd dw))).
Proof.
  intros C P PP Roll Hit dw dt. subst dw dt.
  rewrite (resolveMove_attack g s chosen i mv w C P PP). cbn zeta.
  destruct (Z.gtb_spec (fst (randInt 1 100 w)) (Move.accuracy mv)); [lia|].
  rewrite Hit. reflexivity.
Qed.

Lemma getPkmn_decrementPP_other (s : bool) (i : Z) (g : Game) :
  getPkmn (negb s) (decrementPP s i g) = getPkmn (negb s) g.
Proof. unfold decrementPP. apply getPkmn_setPkmn_other. Qed.

Lemma hp_decrementPP (s : bool) (i : Z) (g : Game) :
  Pokemon.hp (getPkmn s (decrementPP s i g)) = Pokemon.hp (getPkmn s g).
Proof. unfold decrementPP. rewrite getPkmn_setPkmn_same. reflexivity. Qed.

Lemma stats_decrementPP (s : bool) (i : Z) (g : Game) :
  stats (decrementPP s i g) = stats g.
Proof. destruct s; reflexivity. Qed.

Lemma stats_setPkmn_any (s : bool) (pk : Pokemon.t) (g : Game) :
  stats (setPkmn s pk g) = stats g.
Proof. destruct s; reflexivity. Qed.

Lemma stats_of_frame (g g' : Game) :
  gamesPlayed g' = gamesPlayed g -> humanWins g' = humanWins g ->
  cpuWins g' = cpuWins g -> stats g' = stats g.
Proof. unfold stats. intros -> -> ->. reflexivity. Qed.

(** X12.  An attack chosen with a move button that passes the accuracy
    roll and whose projectile hits, when the damage is converted inside
    [int] and is below [INT_MAX] and the target's health is a non-negative
    [int], takes exactly what [computeDamage] returns off the target's
    health, halved upwards if the target was on guard, and never below
    zero; the amount taken is at least 1.  Afterwards neither combatant is
    on guard, the actor's health and the counters are unchanged, two
    random values have been drawn and the two lines "<name> used <move>!"
    and "Hit for <amount> dmg" have been written. *)
Theorem attack_hit_takes_the_computed_damage :
  forall (g : Game) (p1Turn : bool) (chosen : Z) (mv : Move.t) (w : World),
    0 <= chosen < 4 -> chosen <> 3 ->
    let a := getPkmn p1Turn g in
    let t := getPkmn (negb p1Turn) g in
    moveAt (Pokemon.moves a) (moveIndex (Pokemon.moves a) chosen) = Some mv ->
    0 < Move.power mv ->
    0 < Move.pp mv ->
    fst (randInt 1 100 w) <= Move.accuracy mv ->
    fireProjectile p1Turn a t = true ->
    hitInRange g a t mv (snd (randInt 1 100 w)) = true ->
    0 <= Pokemon.hp t <= INT_MAX ->
    let dmg := fst (computeDamage g a t mv (snd (randInt 1 100 w))) in
    let taken := if Pokemon.defending t then (dmg + 1) / 2 else dmg in
    1 <= taken
    /\ exists (g' : Game) (w' : World),
         processAction g p1Turn chosen w = (Again g' (negb p1Turn), w')
         /\ Pokemon.hp (getPkmn (negb p1Turn) g') = Z.max 0 (Pokemon.hp t - taken)
         /\ Pokemon.defending (getPkmn (negb p1Turn) g') = false
         /\ Pokemon.defending (getPkmn p1Turn g') = false
         /\ Pokemon.hp (getPkmn p1Turn g') = Pokemon.hp a
         /\ stats g' = stats g
         /\ randPos w' = S (S (randPos w))
         /\ lcd w' = (lcd w ++ [ (Pokemon.name a ++ " used " ++ Move.name mv ++ "!")%string;
                                 ("Hit for " ++ to_string taken ++ " dmg")%string ])%list.
Proof.
  intros g s chosen mv w C N3 a t M P PP Roll Hit Fit Hh dmg taken.
  assert (D : 1 <= dmg < INT_MAX) by (apply hitInRange_bounds, Fit).
  destruct (applyDamage_result dmg t ltac:(lia) Hh) as (T & Hp & Df).
  fold taken in T, Hp.
  assert (T1 : 1 <= taken).
  { subst taken. destruct (Pokemon.defending t); [|lia].
    apply Z.div_le_lower_bound; lia. }
  split; [exact T1|].
  assert (R := resolveMove_hit g s chosen (moveIndex (Pokemon.moves a) chosen) mv w
                 C ltac:(lia) PP Roll Hit).
  cbn zeta in R. fold a in R. fold t in R. fold dmg in R. rewrite T in R.
  eexists. eexists.
  split; [exact (processAction_resolved g s chosen mv w _ _ N3 ltac:(lia) M R)|].
  set (g1 := decrementPP s _ (setPkmn (negb s) (snd (applyDamage dmg t)) g)).
  destruct (clearOwnDefend_frame g1 s mv) as (F1 & F2 & _ & F4 & F5 & F6 & F7).
  assert (O : getPkmn (negb s) (clearOwnDefend g1 s mv) = snd (applyDamage dmg t)).
  { unfold getPkmn at 1. rewrite F1. fold (getPkmn (negb s) g1). subst g1.
    rewrite getPkmn_decrementPP_other. apply getPkmn_setPkmn_same. }
  rewrite O, F2, F4.
  split; [exact Hp|]. split; [exact Df|].
  split; [destruct (Z.leb_spec (Move.power mv) 0); [lia|apply andb_false_r]|].
  split; [subst g1; rewrite hp_decrementPP, getPkmn_setPkmn_negb; reflexivity|].
  split.
  { apply stats_of_frame; rewrite ?F5, ?F6, ?F7; subst g1; destruct s; reflexivity. }
  rewrite computeDamage_world. split; [reflexivity|].
  unfold WriteLine, randInt, rand. cbn [lcd snd]. rewrite <- app_assoc. reflexivity.
Qed.

Lemma attack_hit_takes_the_computed_damage_witness :
  (0 <= 0 < 4 /\ 0 <> 3
   /\ moveAt (Pokemon.moves (getPkmn true (sampleGame 0)))
        (moveIndex (Pokemon.moves (getPkmn true (sampleGame 0))) 0)
      = Some (Move.mk "Thunder" 40 95 15)
   /\ 0 < Move.power (Move.mk "Thunder" 40 95 15)
   /\ 0 < Move.pp (Move.mk "Thunder" 40 95 15)
   /\ fst (randInt 1 100 (worldOf [] [])) <= Move.accuracy (Move.mk "Thunder" 40 95 15)
   /\ fireProjectile true (getPkmn true (sampleGame 0)) (getPkmn false (sampleGame 0)) = true
   /\ hitInRange (sampleGame 0) (getPkmn true (sampleGame 0)) (getPkmn false (sampleGame 0))
        (Move.mk "Thunder" 40 95 15) (snd (randInt 1 100 (worldOf [] []))) = true
   /\ 0 <= Pokemon.hp (getPkmn false (sampleGame 0)) <= INT_MAX)
  /\ exists (g' : Game) (w' : World),
       processAction (sampleGame 0) true 0 (worldOf [] []) = (Again g' false, w')
       /\ Pokemon.hp (getPkmn false g') = 32
       /\ Pokemon.defending (getPkmn false g') = false.
Proof.
  assert (H : 0 <= 0 < 4 /\ 0 <> 3
   /\ moveAt (Pokemon.moves (getPkmn true (sampleGame 0)))
        (moveIndex (Pokemon.moves (getPkmn true (sampleGame 0))) 0)
      = Some (Move.mk "Thunder" 40 95 15)
   /\ 0 < Move.power (Move.mk "Thunder" 40 95 15)
   /\ 0 < Move.pp (Move.mk "Thunder" 40 95 15)
   /\ fst (randInt 1 100 (worldOf [] [])) <= Move.accuracy (Move.mk "Thunder" 40 95 15)
   /\ fireProjectile true (getPkmn true (sampleGame 0)) (getPkmn false (sampleGame 0)) = true
   /\ hitInRange (sampleGame 0) (getPkmn true (sampleGame 0)) (getPkmn false (sampleGame 0))
        (Move.mk "Thunder" 40 95 15) (snd (randInt 1 100 (worldOf [] []))) = true
   /\ 0 <= Pokemon.hp (getPkmn false (sampleGame 0)) <= INT_MAX).
  { repeat split; try lia; try reflexivity; vm_compute; congruence. }
  split; [exact H|]. destruct H as (C & N3 & M & P & PP & R & F & Fit & Hh).
  destruct (attack_hit_takes_the_computed_damage (sampleGame 0) true 0
              (Move.mk "Thunder" 40 95 15) (worldOf [] []) C N3 M P PP R F Fit Hh)
    as (_ & g' & w' & E & Hp & D & _).
  exists g', w'. split; [exact E|]. split; [|exact D].
  etransitivity; [exact Hp|]. vm_compute. reflexivity.
Defined.

Lemma resolveMove_miss (g : Game) (s : bool) (chosen i : Z) (mv : Move.t) (w : World) :
  Move.power mv <> 0 -> 0 < Move.pp mv ->
  Move.accuracy mv < fst (randInt 1 100 w) ->
  resolveMove g s chosen i mv w
  = Some (g, WriteLine (Pokemon.name (getPkmn s g) ++ " used " ++ Move.name mv
                        ++ " but missed!")%string (snd (randInt 1 100 w))).
Proof.
  intros P PP Roll. unfold resolveMove.
  destruct (Z.eqb_spec (Move.power mv) 0); [contradiction|].
  destruct (Z.leb_spec (Move.pp mv) 0); [lia|].
  destruct (randInt 1 100 w) as [roll w1]. cbn [fst snd] in *.
  destruct (Z.gtb_spec roll (Move.accuracy mv)); [reflexivity|lia].
Qed.

(** X13.  An attack whose accuracy roll fails (the roll exceeds the
    accuracy of the move) costs nothing and hurts nobody: the other seat,
    both healths, every PP and the counters are unchanged; the actor
    merely drops its own guard, one random value has been drawn, the line
    "<name> used <move> but missed!" is written and the turn passes.  A
    move of accuracy 100 cannot miss. *)
Theorem missed_attack_changes_only_the_guard :
  forall (g : Game) (p1Turn : bool) (chosen : Z) (mv : Move.t) (w : World),
    chosen <> 3 -> chosen <> -1 ->
    let a := getPkmn p1Turn g in
    moveAt (Pokemon.moves a) (moveIndex (Pokemon.moves a) chosen) = Some mv ->
    0 < Move.power mv ->
    0 < Move.pp mv ->
    (100 <= Move.accuracy mv -> fst (randInt 1 100 w) <= Move.accuracy mv)
    /\ (Move.accuracy mv < fst (randInt 1 100 w) ->
        exists g' : Game,
          processAction g p1Turn chosen w
          = (Again g' (negb p1Turn),
             WriteLine (Pokemon.name a ++ " used " ++ Move.name mv ++ " but missed!")%string
               (snd (randInt 1 100 w)))
          /\ getPlayer (negb p1Turn) g' = getPlayer (negb p1Turn) g
          /\ Pokemon.hp (getPkmn p1Turn g') = Pokemon.hp a
          /\ Pokemon.moves (getPkmn p1Turn g') = Pokemon.moves a
          /\ Pokemon.defending (getPkmn p1Turn g') = false
          /\ stats g' = stats g).
Proof.
  intros g s chosen mv w N3 N1 a M P PP. split.
  - intros A. assert (R := randInt_range 1 100 w ltac:(lia)). lia.
  - intros Roll.
    assert (R := resolveMove_miss g s chosen (moveIndex (Pokemon.moves a) chosen) mv w
                   ltac:(lia) PP Roll).
    eexists. split; [exact (processAction_resolved g s chosen mv w _ _ N3 N1 M R)|].
    destruct (clearOwnDefend_frame g s mv) as (F1 & F2 & F3 & F4 & F5 & F6 & F7).
    rewrite F1, F2, F3, F4.
    repeat split.
    + destruct (Z.leb_spec (Move.power mv) 0); [lia|apply andb_false_r].
    + apply stats_of_frame; assumption.
Qed.

Lemma missed_attack_changes_only_the_guard_witness :
  (0 <> 3 /\ 0 <> -1
   /\ moveAt (Pokemon.moves (getPkmn true (sampleGame 0)))
        (moveIndex (Pokemon.moves (getPkmn true (sampleGame 0))) 0)
      = Some (Move.mk "Thunder" 40 95 15)
   /\ 0 < Move.power (Move.mk "Thunder" 40 95 15)
   /\ 0 < Move.pp (Move.mk "Thunder" 40 95 15)
   /\ Move.accuracy (Move.mk "Thunder" 40 95 15) < fst (randInt 1 100 (worldOf [97%N] [])))
  /\ exists g' : Game,
       processAction (sampleGame 0) true 0 (worldOf [97%N] [])
       = (Again g' false,
          WriteLine "Pikachu used Thunder but missed!"
            (snd (randInt 1 100 (worldOf [97%N] []))))
       /\ Pokemon.moves (getPkmn true g') = Pokemon.moves (getPkmn true (sampleGame 0)).
Proof.
  assert (H : 0 <> 3 /\ 0 <> -1
   /\ moveAt (Pokemon.moves (getPkmn true (sampleGame 0)))
        (moveIndex (Pokemon.moves (getPkmn true (sampleGame 0))) 0)
      = Some (Move.mk "Thunder" 40 95 15)
   /\ 0 < Move.power (Move.mk "Thunder" 40 95 15)
   /\ 0 < Move.pp (Move.mk "Thunder" 40 95 15)
   /\ Move.accuracy (Move.mk "Thunder" 40 95 15) < fst (randInt 1 100 (worldOf [97%N] []))).
  { repeat split; try lia; try reflexivity; vm_compute; congruence. }
  split; [exact H|]. destruct H as (N3 & N1 & M & P & PP & R).
  destruct (proj2 (missed_attack_changes_only_the_guard (sampleGame 0) true 0
              (Move.mk "Thunder" 40 95 15) (worldOf [97%N] []) N3 N1 M P PP) R)
    as (g' & E & _ & _ & Mv & _).
  exists g'. split; [exact E | exact Mv].
Defined.

(** ** Dealing the creatures *)

Lemma resample_spec (fuel : nat) :
  forall (n i1 i2 : Z) (w : World) (i2' : Z) (w' : World),
    1 <= n ->
    resample fuel n i1 i2 w = Some (i2', w') ->
    i2' <> i1 /\ (i2' = i2 \/ 0 <= i2' <= n - 1).
Proof.
  induction fuel as [|fuel IH]; intros n i1 i2 w i2' w' Hn; cbn [resample];
    destruct (Z.eqb_spec i2 i1) as [E|E]; try discriminate;
    try (intros X; injection X as <- <-; split; [exact E|left; reflexivity]).
  assert (R := randInt_index n w ltac:(lia)).
  destruct (randInt 0 (n - 1) w) as [j w1]. cbn [fst] in R.
  intros X. destruct (IH _ _ _ _ _ _ Hn X) as [A [B|B]]; split; try assumption;
    right; lia.
Qed.

Lemma assignPlayers_shape :
  forall (fuel : nat) (g : Game) (w : World) (g' : Game) (w' : World),
    assignPlayers fuel g w = Some (g', w') ->
    (exists (i1 i2 : nat) (b1 b2 : Pokemon.t),
        i1 <> i2
        /\ nth_error (bank g) i1 = Some b1
        /\ nth_error (bank g) i2 = Some b2
        /\ getPkmn true g' = Pokemon.setPos 40 60 (Pokemon.reset b1)
        /\ getPkmn false g' = Pokemon.setPos 220 60 (Pokemon.reset b2))
    /\ Player.isHuman (getPlayer false g') = negb (Player.isHuman (getPlayer true g'))
    /\ (forall s : bool,
          Pokemon.hp (getPkmn s g') = Pokemon.maxHP (getPkmn s g')
          /\ Pokemon.defending (getPkmn s g') = false)
    /\ bank g' = bank g /\ difficulty g' = difficulty g /\ stats g' = stats g.
Proof.
  intros fuel g w g' w'. unfold assignPlayers.
  destruct (randInt 0 1 w) as [assignment w0].
  set (n := Z.of_nat (List.length (bank g))).
  destruct (randInt 0 (n - 1) w0) as [i1 w1] eqn:R1.
  destruct (randInt 0 (n - 1) w1) as [i2 w2] eqn:R2.
  destruct (resample fuel n i1 i2 w2) as [[j w3]|] eqn:RS; [|discriminate].
  destruct (nth_error (bank g) (Z.to_nat i1)) as [b1|] eqn:E1; [|discriminate].
  destruct (nth_error (bank g) (Z.to_nat j)) as [b2|] eqn:E2; [|discriminate].
  intros X. injection X as <- <-.
  assert (Hn : 1 <= n).
  { assert ((Z.to_nat i1 < List.length (bank g))%nat) by (apply nth_error_Some; congruence).
    subst n. lia. }
  assert (A1 := randInt_index n w0 ltac:(lia)). rewrite R1 in A1.
  assert (A2 := randInt_index n w1 ltac:(lia)). rewrite R2 in A2.
  cbn [fst] in A1, A2.
  destruct (resample_spec fuel n i1 i2 w2 j w3 Hn RS) as [D B].
  split.
  - exists (Z.to_nat i1), (Z.to_nat j), b1, b2.
    split; [lia|]. repeat split; assumption.
  - split; [reflexivity|]. split; [intros [|]; split; reflexivity|].
    repeat split.
Qed.

(** X17.  Whenever [assignPlayers] returns, the two seats hold creatures
    taken from two different places of the roster, each one reset (full
    health, guard down) and placed at its side of the screen (x = 40 and
    x = 220, y = 60); exactly one of the two seats is human; the roster,
    the difficulty and the session counters are untouched. *)
Theorem assignPlayers_deals_two_different_creatures :
  forall (fuel : nat) (g : Game) (w : World) (g' : Game) (w' : World),
    assignPlayers fuel g w = Some (g', w') ->
    (exists (i1 i2 : nat) (b1 b2 : Pokemon.t),
        i1 <> i2
        /\ nth_error (bank g) i1 = Some b1
        /\ nth_error (bank g) i2 = Some b2
        /\ getPkmn true g' = Pokemon.setPos 40 60 (Pokemon.reset b1)
        /\ getPkmn false g' = Pokemon.setPos 220 60 (Pokemon.reset b2))
    /\ Player.isHuman (getPlayer false g') = negb (Player.isHuman (getPlayer true g'))
    /\ (forall s : bool,
          Pokemon.hp (getPkmn s g') = Pokemon.maxHP (getPkmn s g')
          /\ Pokemon.defending (getPkmn s g') = false)
    /\ bank g' = bank g /\ difficulty g' = difficulty g /\ stats g' = stats g.
Proof. exact assignPlayers_shape. Qed.

Lemma assignPlayers_deals_two_different_creatures_witness :
  exists (g' : Game) (w' : World),
    assignPlayers 3 (sampleGame 1) (worldOf [1%N; 2%N; 2%N; 2%N; 5%N] []) = Some (g', w')
    /\ Player.isHuman (getPlayer false g') = negb (Player.isHuman (getPlayer true g'))
    /\ Pokemon.name (getPkmn true g') = "Squirtle"
    /\ Pokemon.name (getPkmn false g') = "Onix".
Proof.
  eexists. eexists. split; [vm_compute; reflexivity|].
  split; [|split; vm_compute; reflexivity].
  refine (proj1 (proj2 (assignPlayers_deals_two_different_creatures 3 (sampleGame 1)
            (worldOf [1%N; 2%N; 2%N; 2%N; 5%N] []) _ _ _))).
  vm_compute. reflexivity.
Defined.

Lemma resample_singleton (fuel : nat) :
  forall w : World, resample fuel 1 0 0 w = None.
Proof.
  induction fuel as [|fuel IH]; intros w; cbn [resample Z.eqb]; [reflexivity|].
  assert (R := randInt_index 1 w ltac:(lia)).
  destruct (randInt 0 (1 - 1) w) as [j w1]. cbn [fst] in R.
  replace j with 0 by lia. apply IH.
Qed.

(** X18.  The redraw loop of [assignPlayers].  With at least two
    creatures in the roster, the deal is over at once when the first two
    index draws differ.  With a roster of exactly one creature the second
    index can never differ from the first: the loop
    [while (i2 == i1)] never ends, however long it is run. *)
Theorem assignPlayers_redraws_until_different :
  forall (g : Game) (w : World),
    let n := Z.of_nat (List.length (bank g)) in
    let w1 := snd (randInt 0 1 w) in
    let w2 := snd (randInt 0 (n - 1) w1) in
    (2 <= n ->
     fst (randInt 0 (n - 1) w1) <> fst (randInt 0 (n - 1) w2) ->
     forall fuel : nat,
     exists g' : Game,
       assignPlayers fuel g w = Some (g', snd (randInt 0 (n - 1) w2)))
    /\ (n = 1 -> forall fuel : nat, assignPlayers fuel g w = None).
Proof.
  intros g w n w1 w2. split.
  - intros Hn Diff fuel. unfold assignPlayers.
    subst w1 w2. destruct (randInt 0 1 w) as [assignment w0]. cbn [snd] in *.
    fold n.
    assert (A1 := randInt_index n w0 ltac:(lia)).
    destruct (randInt 0 (n - 1) w0) as [i1 v1]. cbn [fst snd] in *.
    assert (A2 := randInt_index n v1 ltac:(lia)).
    destruct (randInt 0 (n - 1) v1) as [i2 v2]. cbn [fst snd] in *.
    assert (RS : resample fuel n i1 i2 v2 = Some (i2, v2)).
    { destruct fuel; cbn [resample]; destruct (Z.eqb_spec i2 i1); congruence. }
    rewrite RS.
    destruct (nth_error (bank g) (Z.to_nat i1)) as [b1|] eqn:E1;
      [|apply nth_error_None in E1; subst n; lia].
    destruct (nth_error (bank g) (Z.to_nat i2)) as [b2|] eqn:E2;
      [|apply nth_error_None in E2; subst n; lia].
    eexists. reflexivity.
  - intros Hn fuel. unfold assignPlayers.
    destruct (randInt 0 1 w) as [assignment w0]. fold n. rewrite Hn.
    assert (A1 := randInt_index 1 w0 ltac:(lia)).
    destruct (randInt 0 (1 - 1) w0) as [i1 v1]. cbn [fst] in A1.
    assert (A2 := randInt_index 1 v1 ltac:(lia)).
    destruct (randInt 0 (1 - 1) v1) as [i2 v2]. cbn [fst] in A2.
    replace i1 with 0 by lia. replace i2 with 0 by lia.
    rewrite resample_singleton. reflexivity.
Qed.

Lemma assignPlayers_redraws_until_different_witness :
  Z.of_nat (List.length (bank (setDifficulty 0 (mkGame [pikachu] (seat1 true pikachu)
                                                  (seat2 false pikachu) 0 0 0 0)))) = 1
  /\ assignPlayers 50 (setDifficulty 0 (mkGame [pikachu] (seat1 true pikachu)
                                          (seat2 false pikachu) 0 0 0 0))
       (worldOf [7%N; 3%N; 9%N] []) = None.
Proof.
  split; [reflexivity|].
  exact (proj2 (assignPlayers_redraws_until_different
                  (setDifficulty 0 (mkGame [pikachu] (seat1 true pikachu)
                                      (seat2 false pikachu) 0 0 0 0))
                  (worldOf [7%N; 3%N; 9%N] [])) eq_refl 50%nat).
Defined.

(** ** More on the damage formula *)

Section MoreDamage.

Import DoubleFacts.

Lemma rne_exact (m : Z) (t : Q) : (t == inject_Z m)%Q -> Double.rne t = m.
Proof.
  intros E.
  assert (A : (m <= Double.rne t)%Z) by (apply rne_lower; rewrite E; apply Qle_refl).
  assert (B : (Double.rne t <= m)%Z) by (apply rne_upper; rewrite E; apply Qle_refl).
  lia.
Qed.

Lemma round_pos_representable (m e : Z) :
  2 ^ 52 <= m < 2 ^ 53 ->
  (Double.round_pos (inject_Z m * Double.pow2 e) == inject_Z m * Double.pow2 e)%Q.
Proof.
  intros Hm.
  assert (P := pow2_pos e).
  assert (Lo : (inject_Z (2 ^ 52) <= inject_Z m)%Q) by (rewrite <- Zle_Qle; lia).
  assert (Hi : (inject_Z m < inject_Z (2 ^ 53))%Q) by (rewrite <- Zlt_Qlt; lia).
  assert (M : Double.mag (inject_Z m * Double.pow2 e) = e + 53).
  { apply mag_unique.
    - rewrite pow2_lo. replace (e + 53 - 53) with e by ring.
      apply Qmult_le_compat_r; [exact Lo|apply Qlt_le_weak, P].
    - rewrite (pow2_hi (e + 53)). replace (e + 53 - 53) with e by ring.
      apply Qmult_lt_compat_r; assumption. }
  rewrite round_pos_eq, M. replace (e + 53 - 53) with e by ring.
  rewrite (rne_exact m); [reflexivity|].
  field. intros Z0. rewrite Z0 in P. discriminate.
Qed.

Lemma round_pos_idem (x : Q) :
  (0 < x)%Q -> (Double.round_pos (Double.round_pos x) == Double.round_pos x)%Q.
Proof.
  intros Hx.
  destruct (scaled_bounds x Hx) as [L U].
  set (e := Double.mag x - 53) in *.
  set (m := Double.rne (x / Double.pow2 e)).
  assert (Lm : 2 ^ 52 <= m) by (apply rne_lower, L).
  assert (Um : m <= 2 ^ 53) by (apply rne_upper, U).
  assert (E : (Double.round_pos x == inject_Z m * Double.pow2 e)%Q) by apply round_pos_eq.
  assert (G := round_pos_gt0 x Hx).
  assert (R : forall y z : Q, (0 < y)%Q -> (y == z)%Q ->
                (Double.round_pos y == Double.round_pos z)%Q).
  { intros y z Hy Eyz. apply Qle_antisym; apply round_pos_le;
      rewrite ?Eyz; try apply Qle_refl; rewrite <- ?Eyz; exact Hy. }
  destruct (Z.eq_dec m (2 ^ 53)) as [Em|Ne].
  - assert (E' : (Double.round_pos x == inject_Z (2 ^ 52) * Double.pow2 (e + 1))%Q).
    { rewrite E, Em, pow2_succ.
      change (inject_Z (2 ^ 53)) with (2 * inject_Z (2 ^ 52))%Q. ring. }
    rewrite (R _ _ G E'), E'. apply round_pos_representable. lia.
  - rewrite (R _ _ G E), E. apply round_pos_representable. lia.
Qed.

Lemma round53_idem (x : Q) : (Double.round53 (Double.round53 x) == Double.round53 x)%Q.
Proof.
  assert (S := Qnum_sign x).
  assert (C : Double.round53 x
              = match Qnum x with
                | Z0 => 0%Q
                | Zpos _ => Double.round_pos x
                | Zneg _ => (- Double.round_pos (- x))%Q
                end) by reflexivity.
  destruct (Qnum x) eqn:Ex; rewrite C.
  - reflexivity.
  - assert (G := round_pos_gt0 x S).
    assert (S' := Qnum_sign (Double.round_pos x)). unfold Double.round53.
    destruct (Qnum (Double.round_pos x)); [rewrite S' in G; discriminate| |lra].
    apply round_pos_idem, S.
  - assert (Hx : (0 < - x)%Q) by lra.
    assert (G := round_pos_gt0 (- x) Hx).
    assert (S' := Qnum_sign (- Double.round_pos (- x))). unfold Double.round53.
    destruct (Qnum (- Double.round_pos (- x))); [lra|lra|].
    assert (I := round_pos_idem (- x) Hx).
    assert (E : (Double.round_pos (- - Double.round_pos (- x))
                 == Double.round_pos (Double.round_pos (- x)))%Q).
    { apply Qle_antisym; apply round_pos_le; lra. }
    rewrite E, I. reflexivity.
Qed.

Lemma mul_grows (a c : Q) :
  (0 <= a)%Q -> (1 <= c)%Q -> (Double.round53 a <= Double.mul (Double.round53 a) c)%Q.
Proof.
  intros Ha Hc. unfold Double.mul.
  assert (N := round53_nonneg a Ha).
  assert (X : (Double.round53 a * 1 <= Double.round53 a * c)%Q).
  { rewrite (Qmult_comm _ 1), (Qmult_comm _ c). apply Qmult_le_compat_r; assumption. }
  rewrite Qmult_1_r in X. apply round53_le in X.
  rewrite round53_idem in X. exact X.
Qed.

(** X19.  With the same combatants, move and variance draw, the damage
    under HARD is never less than under any other difficulty setting, as
    long as the HARD damage is converted inside the range of [int]: the
    factor 1.08 only ever raises it. *)
Theorem hard_damage_is_at_least_easy_damage :
  forall (g g' : Game) (att def : Pokemon.t) (m : Move.t) (w : World),
    difficulty g <> 1 -> difficulty g' = 1 ->
    damageInRange g' att def m w = true ->
    fst (computeDamage g att def m w) <= fst (computeDamage g' att def m w).
Proof.
  intros g g' att def m w D D' F. rewrite !computeDamage_stages.
  unfold damageInRange, damageOperand in F. revert F.
  destruct (Z.eqb_spec (difficulty g) 1); [contradiction|].
  rewrite D'. cbn [Z.eqb Pos.eqb].
  assert (Hr : 85 <= fst (randInt 85 100 w)) by (apply randInt_range; lia).
  set (r := fst (randInt 85 100 w)) in *.
  set (b := clampedBase (Pokemon.attack att) (Pokemon.defense def)).
  set (q := Double.div (Double.of_int (Move.power m)) (Double.literal 20)).
  intros F.
  destruct (Qlt_le_dec (b * q) 0) as [Neg|Pos].
  - assert (X : (Double.mul b q <= 0)%Q) by (apply round53_nonpos; lra).
    rewrite !finishDamage_nonpos; try assumption. lia.
  - unfold finishDamage.
    apply min_damage_le, to_int_fits_le; [|exact F].
    unfold castOperand.
    apply add_le_l, mul_le_l; [apply variance_nonneg, Hr|].
    apply mul_grows; [exact Pos|]. rewrite literal_108. discriminate.
Qed.

Lemma hard_damage_is_at_least_easy_damage_witness :
  (difficulty (sampleGame 0) <> 1 /\ difficulty (sampleGame 1) = 1
   /\ damageInRange (sampleGame 1) pikachu charmander
        (Move.mk "Thunder" 40 95 15) (worldOf [15%N] []) = true)
  /\ fst (computeDamage (sampleGame 0) pikachu charmander
            (Move.mk "Thunder" 40 95 15) (worldOf [15%N] [])) = 16
  /\ fst (computeDamage (sampleGame 1) pikachu charmander
            (Move.mk "Thunder" 40 95 15) (worldOf [15%N] [])) = 17
  /\ fst (computeDamage (sampleGame 0) pikachu charmander
            (Move.mk "Thunder" 40 95 15) (worldOf [15%N] []))
     <= fst (computeDamage (sampleGame 1) pikachu charmander
               (Move.mk "Thunder" 40 95 15) (worldOf [15%N] [])).
Proof.
  assert (H : difficulty (sampleGame 0) <> 1 /\ difficulty (sampleGame 1) = 1
              /\ damageInRange (sampleGame 1) pikachu charmander
                   (Move.mk "Thunder" 40 95 15) (worldOf [15%N] []) = true).
  { split; [discriminate|]. split; [reflexivity | vm_compute; reflexivity]. }
  split; [exact H|]. destruct H as (A & B & F).
  split; [vm_compute; reflexivity|]. split; [vm_compute; reflexivity|].
  exact (hard_damage_is_at_least_easy_damage (sampleGame 0) (sampleGame 1)
           pikachu charmander (Move.mk "Thunder" 40 95 15) (worldOf [15%N] []) A B F).
Defined.

Lemma clampedBase_antitone (a d d' : Z) :
  d <= d' -> (clampedBase a d' <= clampedBase a d)%Q.
Proof.
  intros H. unfold clampedBase.
  assert (C : (0 <= Double.literal (45 # 100))%Q) by (rewrite literal_045; discriminate).
  assert (M := mul_le_l _ _ _ C (of_int_le d d' H)).
  set (y := Double.mul (Double.of_int d) _) in *.
  set (y' := Double.mul (Double.of_int d') _) in *.
  assert (B : (Double.sub (Double.of_int a) y' <= Double.sub (Double.of_int a) y)%Q).
  { apply round53_le. lra. }
  set (b := Double.sub (Double.of_int a) y) in *.
  set (b' := Double.sub (Double.of_int a) y') in *.
  destruct (Double.ltb b' _) eqn:E'; destruct (Double.ltb b _) eqn:E.
  - apply Qle_refl.
  - apply ltb_false in E. exact E.
  - apply ltb_false in E'. apply ltb_true in E. lra.
  - exact B.
Qed.

(** X20.  With the same attacker, move, difficulty and variance draw,
    the damage does not grow when the defense stat of the defender grows,
    as long as the damage against the lower defense is converted inside
    the range of [int]. *)
Theorem computeDamage_antitone_in_defense :
  forall (g : Game) (att def def' : Pokemon.t) (m : Move.t) (w : World),
    Pokemon.defense def <= Pokemon.defense def' ->
    damageInRange g att def m w = true ->
    fst (computeDamage g att def' m w) <= fst (computeDamage g att def m w).
Proof.
  intros g att def def' m w H F. rewrite !computeDamage_stages.
  assert (Hr : 85 <= fst (randInt 85 100 w)) by (apply randInt_range; lia).
  assert (P20 : (0 < Double.literal 20)%Q) by (rewrite literal_20; reflexivity).
  destruct (Z.le_gt_cases 0 (Move.power m)) as [Hp|Hp].
  - apply finishDamage_le; [exact Hr| |exact F].
    apply mul_le_l; [|apply clampedBase_antitone, H].
    apply div_nonneg; [|exact P20]. apply of_int_nonneg, Hp.
  - assert (Q : (Double.div (Double.of_int (Move.power m)) (Double.literal 20) <= 0)%Q).
    { apply div_nonpos; [|exact P20]. apply (of_int_le (Move.power m) 0). lia. }
    rewrite !finishDamage_nonpos; try lia; try exact Hr;
      apply mul_nonpos_r; try exact Q; apply clampedBase_nonneg.
Qed.

Lemma computeDamage_antitone_in_defense_witness :
  (Pokemon.defense pikachu <= Pokemon.defense (nth 5 loadBank pikachu)
   /\ damageInRange (sampleGame 0) charmander pikachu
        (Move.mk "Ember" 40 95 15) (worldOf [4%N] []) = true)
  /\ fst (computeDamage (sampleGame 0) charmander (nth 5 loadBank pikachu)
            (Move.mk "Ember" 40 95 15) (worldOf [4%N] []))
     <= fst (computeDamage (sampleGame 0) charmander pikachu
               (Move.mk "Ember" 40 95 15) (worldOf [4%N] [])).
Proof.
  assert (H : Pokemon.defense pikachu <= Pokemon.defense (nth 5 loadBank pikachu)
              /\ damageInRange (sampleGame 0) charmander pikachu
                   (Move.mk "Ember" 40 95 15) (worldOf [4%N] []) = true).
  { split; [cbn; lia | vm_compute; reflexivity]. }
  split; [exact H|]. destruct H as [D F].
  exact (computeDamage_antitone_in_defense (sampleGame 0) charmander pikachu
           (nth 5 loadBank pikachu) (Move.mk "Ember" 40 95 15) (worldOf [4%N] []) D F).
Defined.

End MoreDamage.

(** ** One round *)

(** X21.  A round after which the match goes on changes little.  The
    roster, the difficulty, the seats, the fixed data of both creatures
    and the three counters are unchanged; the actor's health is
    unchanged; the moves of the other seat are unchanged; each move of the
    actor keeps its PP or, if it had some, loses exactly one.  When every
    hit of the actor stays inside [int] and the health of the other seat
    is a non-negative [int], that health stays non-negative and does not
    grow.  The turn passes to the other seat, except when a human touched
    no button: then the same seat acts again and the game is exactly what
    it was. *)
Theorem round_never_heals_nor_restores_pp :
  forall (g : Game) (p1Turn : bool) (w : World) (g' : Game) (next : bool),
    fst (turn g p1Turn w) = Again g' next ->
    setup g' = setup g
    /\ stats g' = stats g
    /\ Pokemon.hp (getPkmn p1Turn g') = Pokemon.hp (getPkmn p1Turn g)
    /\ Pokemon.moves (getPkmn (negb p1Turn) g') = Pokemon.moves (getPkmn (negb p1Turn) g)
    /\ Forall2 ppSpent (Pokemon.moves (getPkmn p1Turn g)) (Pokemon.moves (getPkmn p1Turn g'))
    /\ (hitFits g p1Turn = true ->
        0 <= Pokemon.hp (getPkmn (negb p1Turn) g) <= INT_MAX ->
        0 <= Pokemon.hp (getPkmn (negb p1Turn) g') <= Pokemon.hp (getPkmn (negb p1Turn) g))
    /\ (next = negb p1Turn
        \/ (next = p1Turn /\ g' = g /\ Player.isHuman (getPlayer p1Turn g) = true)).
Proof.
  intros g s w g' next T.
  destruct (roundEffects_turn g s w g' next T) as [(A & B & C & D & E & F) Same].
  split; [exact A|]. split; [exact B|]. split; [exact C|]. split; [exact D|].
  split; [exact F|]. split; [exact E|].
  exact (turn_passes g s w g' next T).
Qed.

Lemma round_never_heals_nor_restores_pp_witness :
  exists g' : Game,
    (fst (turn (sampleGame 0) true (worldOf [] [(10, 150)])) = Again g' false
     /\ hitFits (sampleGame 0) true = true
     /\ 0 <= Pokemon.hp (getPkmn false (sampleGame 0)) <= INT_MAX)
    /\ stats g' = stats (sampleGame 0)
    /\ Pokemon.hp (getPkmn true g') = Pokemon.hp (getPkmn true (sampleGame 0))
    /\ Pokemon.hp (getPkmn false g') = 32
    /\ 0 <= Pokemon.hp (getPkmn false g') <= Pokemon.hp (getPkmn false (sampleGame 0)).
Proof.
  eexists.
  eassert (H : fst (turn (sampleGame 0) true (worldOf [] [(10, 150)])) = Again _ false
               /\ hitFits (sampleGame 0) true = true
               /\ 0 <= Pokemon.hp (getPkmn false (sampleGame 0)) <= INT_MAX).
  { split; [vm_compute; reflexivity|]. split; [vm_compute; reflexivity|].
    vm_compute. split; congruence. }
  split; [exact H|]. destruct H as (T & F & Hh).
  destruct (round_never_heals_nor_restores_pp (sampleGame 0) true
              (worldOf [] [(10, 150)]) _ false T) as (_ & S & A & _ & _ & Hp & _).
  split; [exact S|]. split; [exact A|]. split; [vm_compute; reflexivity|].
  exact (Hp F Hh).
Defined.

(** ** A match dealt from the roster *)

(** The stats of the roster keep every hit and every heal inside [int]:
    every creature against every creature, under both difficulties. *)
Lemma roster_fits (att def : Pokemon.t) (hard : bool) :
  In att loadBank -> In def loadBank ->
  Pokemon.maxHP att + RETREAT_HEAL <= INT_MAX
  /\ forallb (powerFits hard (Pokemon.attack att) (Pokemon.defense def))
       (map Move.power (Pokemon.moves att)) = true.
Proof.
  intros Ha Hd. unfold loadBank in Ha, Hd. cbn [In] in Ha, Hd.
  destruct Ha as [<-|[<-|[<-|[<-|[<-|[<-|[]]]]]]];
    destruct Hd as [<-|[<-|[<-|[<-|[<-|[<-|[]]]]]]];
    destruct hard; (split; [vm_compute; congruence | vm_compute; reflexivity]).
Qed.

Lemma reset_powers (b : Pokemon.t) (x y : Z) :
  map Move.power (Pokemon.moves (Pokemon.setPos x y (Pokemon.reset b)))
  = map Move.power (Pokemon.moves b).
Proof.
  cbn [Pokemon.setPos Pokemon.reset Pokemon.moves]. rewrite map_map.
  apply map_ext. intros m. destruct (Move.pp m <? 0); reflexivity.
Qed.

(** Every match dealt from the roster satisfies the condition under which
    the invariant of a session was proved. *)
Lemma dealt_match_intSafe (fuel : nat) (g : Game) (w : World) (g' : Game) (w' : World) :
  bank g = loadBank ->
  assignPlayers fuel g w = Some (g', w') ->
  intSafe g'.
Proof.
  intros B A.
  destruct (assignPlayers_shape fuel g w g' w' A)
    as ((i1 & i2 & b1 & b2 & _ & E1 & E2 & P1 & P2) & _).
  rewrite B in E1, E2. apply nth_error_In in E1, E2.
  assert (Fit : forall att def : Pokemon.t, In att loadBank -> In def loadBank ->
            Pokemon.maxHP att + RETREAT_HEAL <= INT_MAX
            /\ forall hard : bool,
                 forallb (powerFits hard (Pokemon.attack att) (Pokemon.defense def))
                   (map Move.power (Pokemon.moves att)) = true).
  { intros att def Ha Hd. split; [apply (roster_fits att def true Ha Hd)|].
    intros hard. apply (roster_fits att def hard Ha Hd). }
  assert (G : forall s : bool,
            getPkmn s g' = Pokemon.setPos (if s then 40 else 220) 60
                             (Pokemon.reset (if s then b1 else b2)))
    by (intros [|]; assumption).
  split; intros s.
  - rewrite G. cbn [Pokemon.setPos Pokemon.reset Pokemon.maxHP].
    destruct s; [apply (Fit b1 b2) | apply (Fit b2 b1)]; assumption.
  - unfold hitFits. rewrite (G s), (G (negb s)), reset_powers.
    cbn [Pokemon.setPos Pokemon.reset Pokemon.attack Pokemon.defense].
    destruct s; cbn [negb]; [apply (Fit b1 b2) | apply (Fit b2 b1)]; assumption.
Qed.

(** What holds of every creature of the roster once it is reset and
    seated. *)
Lemma roster_entry_sound (b : Pokemon.t) (x y : Z) :
  In b loadBank ->
  healthy (Pokemon.setPos x y (Pokemon.reset b))
  /\ 0 < Pokemon.hp (Pokemon.setPos x y (Pokemon.reset b))
  /\ List.length (Pokemon.moves (Pokemon.setPos x y (Pokemon.reset b))) = 3%nat
  /\ Pokemon.w (Pokemon.setPos x y (Pokemon.reset b)) = 48
  /\ Pokemon.h (Pokemon.setPos x y (Pokemon.reset b)) = 48
  /\ Pokemon.x (Pokemon.setPos x y (Pokemon.reset b)) = x
  /\ Pokemon.y (Pokemon.setPos x y (Pokemon.reset b)) = y.
Proof.
  intros H. cbn [In loadBank] in H.
  repeat (destruct H as [<-|H]; [
    split; [split; [cbn; lia|cbn; repeat constructor; cbn; lia]|];
    cbn; repeat split; lia |]).
  destruct H.
Qed.



Lemma dealt_match_wellFormed (fuel : nat) (g : Game) (w : World) (g' : Game) (w' : World) :
  bank g = loadBank ->
  assignPlayers fuel g w = Some (g', w') ->
  wellFormed g'.
Proof.
  intros B A.
  destruct (assignPlayers_shape fuel g w g' w' A)
    as ((i1 & i2 & b1 & b2 & _ & E1 & E2 & P1 & P2) & _).
  rewrite B in E1, E2. apply nth_error_In in E1, E2.
  destruct (roster_entry_sound b1 40 60 E1) as (H1 & _).
  destruct (roster_entry_sound b2 220 60 E2) as (H2 & _).
  rewrite <- P1 in H1. rewrite <- P2 in H2. split; assumption.
Qed.

(** X23.  A session played with creatures dealt from the roster of
    [loadBank] keeps its data sound: whatever the difficulty, the players'
    touches and the dice, when the session comes back to the menu both
    combatants have a health between 0 and their maximum and no negative
    PP.  No condition on the stats is left: those of the roster keep every
    hit and every heal inside [int]. *)
Theorem dealt_session_keeps_health_and_pp_in_range :
  forall (dealFuel matches fuel : nat) (g : Game) (w : World)
         (g1 : Game) (w1 : World) (again : bool) (g' : Game) (w' : World),
    bank g = loadBank ->
    assignPlayers dealFuel g w = Some (g1, w1) ->
    playMatches matches fuel g1 w1 = Some (Returned again g', w') ->
    wellFormed g'
    /\ (forall s : bool,
          Pokemon.maxHP (getPkmn s g') = Pokemon.maxHP (getPkmn s g1)
          /\ 0 <= Pokemon.hp (getPkmn s g') <= Pokemon.maxHP (getPkmn s g1)).
Proof.
  intros dealFuel matches fuel g w g1 w1 again g' w' B A P.
  destruct (wellFormed_playMatches matches fuel g1 w1 again g' w'
              (dealt_match_wellFormed _ _ _ _ _ B A)
              (dealt_match_intSafe _ _ _ _ _ B A) P) as [W _].
  split; [exact W|]. intros s.
  assert (M : Pokemon.maxHP (getPkmn s g') = Pokemon.maxHP (getPkmn s g1)).
  { apply setup_fields.
    assert (X : forall m f (a : Game) (v : World) (b : bool) (c : Game) (u : World),
               playMatches m f a v = Some (Returned b c, u) -> setup c = setup a).
    { induction m as [|m IH]; intros f a v b c u; cbn [playMatches]; [discriminate|].
      destruct (runMatch f a v) as [[[ag a1|] v1]|] eqn:R; try discriminate.
      destruct (runMatch_counts _ _ _ _ _ _ R) as (S1 & _).
      destruct ag.
      - intros Q. rewrite (IH _ _ _ _ _ _ Q).
        destruct (setup_resetBoth a1) as [S2 _]. congruence.
      - intros Q. injection Q as E1 E2 E3. subst. exact S1. }
    exact (X _ _ _ _ _ _ _ P). }
  split; [exact M|]. rewrite <- M. destruct (wellFormed_get s g' W) as [H _]. exact H.
Qed.

Lemma dealt_session_keeps_health_and_pp_in_range_witness :
  exists (g1 : Game) (w1 : World) (again : bool) (g' : Game) (w' : World),
    (bank (sampleGame 1) = loadBank
     /\ assignPlayers 2 (sampleGame 1)
          (worldOf [0%N; 0%N; 1%N] [(10, 150); (170, 200)]) = Some (g1, w1)
     /\ playMatches 2 30 g1 w1 = Some (Returned again g', w'))
    /\ wellFormed g'.
Proof.
  eexists. eexists. eexists. eexists. eexists.
  split.
  - split; [reflexivity|]. split; [vm_compute; reflexivity | vm_compute; reflexivity].
  - refine (proj1 (dealt_session_keeps_health_and_pp_in_range 2 2 30 (sampleGame 1)
                     (worldOf [0%N; 0%N; 1%N] [(10, 150); (170, 200)])
                     _ _ _ _ _ eq_refl _ _)).
    + vm_compute. reflexivity.
    + vm_compute. reflexivity.
Defined.
